(** * harp.gl technique handlers: a shallow embedding and its properties

    The development follows the TypeScript sources of [@here/harp-mapview]:

    - [GenericTechniqueHandler]   lib/techniques/TechniqueHandlerCommon.ts
    - [TechniqueHandlerCommon]    lib/techniques/TechniqueHandlerCommon.ts
    - [TechniqueHandlerPool]      lib/techniques/TechniqueHandlerPool.ts
    - [SolidLineTechniqueHandler] lib/techniques/SolidLineTechniqueHandler.ts
    - [TileGeometryCreator]       lib/geometry/TileGeometryCreator.ts

    JavaScript numbers that carry measurements (widths, opacities, ratios)
    are IEEE-754 binary64 values, modelled by Rocq's primitive [float];
    numbers that count or index (frame numbers, tile offsets, buffer
    positions) are modelled by [Z].  Objects with identity (handlers,
    meshes) live in explicit stores and are named by their index. *)

From Stdlib Require Import ZArith Floats Lia Btauto.
From stdpp Require Import gmap strings list.

Set Warnings "-inexact-float".
Set Default Proof Using "Type".

(** ** Shared vocabulary *)

(** How a call ends: JavaScript code either returns or throws. *)
Inductive Completion := Normal | Thrown.

Inductive ProjectionType := Planar | Spherical.

Record ViewRanges := {
  near : float;
  far : float;
  minimum : float;
  maximum : float
}.

(** [TechniqueUpdateContext] of TechniqueHandler.ts; the optional
    [cachedExprResults] is a cache of the expression engine and has no
    reader in the modelled code. *)
Record TechniqueUpdateContext := {
  env : gmap string float;
  frameNumber : Z;
  viewRanges : ViewRanges;
  projection : ProjectionType
}.

(** ** GenericTechniqueHandler *)

Module GenericTechniqueHandler.
Section Handler.

(** [World] is everything the registered closures can reach: materials,
    drawable objects, tiles. *)
Context {World : Type}.

(** [TechniqueUpdater = (context) => void]: a closure that mutates the
    world it captured, and may throw after having mutated part of it. *)
Definition TechniqueUpdater : Type :=
  TechniqueUpdateContext -> World -> World * Completion.

Record Handler := {
  isShareableAcrossTiles : bool;
  updaters : list TechniqueUpdater;
  lastUpdateFrameNumber : Z
}.

(** Field initialisers of the class; subclasses push their updaters in
    their own constructors. *)
Definition create (us : list TechniqueUpdater) : Handler :=
  {| isShareableAcrossTiles := true;
     updaters := us;
     lastUpdateFrameNumber := (-1)%Z |}.

Definition isDynamic (h : Handler) : bool :=
  negb (Nat.eqb (length (updaters h)) 0).

(** [for (const updater of this.updaters) updater(context)]: a throwing
    updater ends the loop and the exception leaves [update]. *)
Fixpoint run_updaters (context : TechniqueUpdateContext)
    (us : list TechniqueUpdater) (w : World) : World * Completion :=
  match us with
  | [] => (w, Normal)
  | updater :: rest =>
      match updater context w with
      | (w', Normal) => run_updaters context rest w'
      | (w', Thrown) => (w', Thrown)
      end
  end.

Definition record_frame (h : Handler) (n : Z) : Handler :=
  {| isShareableAcrossTiles := isShareableAcrossTiles h;
     updaters := updaters h;
     lastUpdateFrameNumber := n |}.

Definition update (context : TechniqueUpdateContext) (h : Handler) (w : World)
    : Handler * World * Completion :=
  if (frameNumber context =? lastUpdateFrameNumber h)%Z then (h, w, Normal)
  else
    let h' := record_frame h (frameNumber context) in
    let '(w', c) := run_updaters context (updaters h') w in
    (h', w', c).

(** What the updaters compute when none of them throws: their composition,
    first registered first. *)
Definition apply_in_order (context : TechniqueUpdateContext)
    (us : list TechniqueUpdater) (w : World) : World :=
  fold_left (fun acc updater => fst (updater context acc)) us w.

Lemma run_updaters_normal context us w w' :
  run_updaters context us w = (w', Normal) ->
  w' = apply_in_order context us w.
Proof.
  revert w. induction us as [|u us IH]; intros w; simpl.
  - intros [= <-]. reflexivity.
  - unfold apply_in_order. simpl. destruct (u context w) as [w1 [|]] eqn:Hu.
    + intros H. apply IH in H. exact H.
    + intros [=].
Qed.

Lemma run_updaters_app context us1 us2 w :
  run_updaters context (us1 ++ us2) w =
  match run_updaters context us1 w with
  | (w', Normal) => run_updaters context us2 w'
  | (w', Thrown) => (w', Thrown)
  end.
Proof.
  revert w. induction us1 as [|u us1 IH]; intros w; simpl.
  - reflexivity.
  - destruct (u context w) as [w1 [|]]; [apply IH | reflexivity].
Qed.

Lemma update_same_frame context h w :
  frameNumber context = lastUpdateFrameNumber h ->
  update context h w = (h, w, Normal).
Proof.
  intros H. unfold update. rewrite H, Z.eqb_refl. reflexivity.
Qed.

Lemma update_other_frame context h w :
  frameNumber context <> lastUpdateFrameNumber h ->
  update context h w =
  (record_frame h (frameNumber context),
   fst (run_updaters context (updaters h) w),
   snd (run_updaters context (updaters h) w)).
Proof.
  intros H. unfold update. apply Z.eqb_neq in H. rewrite H. simpl.
  destruct (run_updaters context (updaters h) w); reflexivity.
Qed.

(** C1.  A call to [update] leaves the handler with the call's frame number
    recorded, so any further call carrying the same frame number returns at
    once: handler and world are left as they are.  A call whose frame number
    is not the recorded one runs the registered updaters in registration
    order and records the frame number; when no updater throws, the world
    that results is the left-to-right composition of all of them. *)
Theorem update_once_per_frame
    (context : TechniqueUpdateContext) (h h1 : Handler) (w w1 : World)
    (c1 : Completion)
    (Hfirst : update context h w = (h1, w1, c1)) :
  (forall context', frameNumber context' = frameNumber context ->
     update context' h1 w1 = (h1, w1, Normal)) /\
  (frameNumber context = lastUpdateFrameNumber h ->
     h1 = h /\ w1 = w /\ c1 = Normal) /\
  (frameNumber context <> lastUpdateFrameNumber h ->
     lastUpdateFrameNumber h1 = frameNumber context /\
     updaters h1 = updaters h /\
     (w1, c1) = run_updaters context (updaters h) w /\
     (c1 = Normal -> w1 = apply_in_order context (updaters h) w)).
Proof.
  split; [|split].
  - intros context' Hsame. apply update_same_frame.
    rewrite Hsame. unfold update in Hfirst.
    destruct (Z.eqb_spec (frameNumber context) (lastUpdateFrameNumber h)) as [He|Hne].
    + injection Hfirst as <- _ _. exact He.
    + simpl in Hfirst.
      destruct (run_updaters context (updaters h) w).
      injection Hfirst as <- _ _. reflexivity.
  - intros Hsame. rewrite (update_same_frame _ _ _ Hsame) in Hfirst.
    injection Hfirst as <- <- <-. auto.
  - intros Hne. rewrite (update_other_frame _ _ _ Hne) in Hfirst.
    injection Hfirst as <- <- <-. simpl.
    repeat split.
    + destruct (run_updaters context (updaters h) w); reflexivity.
    + intros Hc. apply run_updaters_normal.
      destruct (run_updaters context (updaters h) w) as [w' c]; simpl in *.
      subst c. reflexivity.
Qed.

(** C10.  The guard is an equality test.  A context that carries an older
    frame number than the recorded one is treated like any other new frame:
    the updaters run and the recorded number moves back to the older one.
    Hence, after a newer frame was applied, an older one followed by the
    newer one again runs the updaters both times. *)
Theorem update_accepts_older_frame
    (older newer : TechniqueUpdateContext) (h : Handler) (w : World)
    (Hrecorded : lastUpdateFrameNumber h = frameNumber newer)
    (Holder : (frameNumber older < frameNumber newer)%Z) :
  let r := run_updaters older (updaters h) w in
  update older h w = (record_frame h (frameNumber older), fst r, snd r) /\
  lastUpdateFrameNumber (fst (fst (update older h w))) = frameNumber older /\
  (let r' := run_updaters newer (updaters h) (fst r) in
   update newer (fst (fst (update older h w))) (fst r) =
   (record_frame h (frameNumber newer), fst r', snd r')).
Proof.
  intros r.
  assert (Hne : frameNumber older <> lastUpdateFrameNumber h) by lia.
  pose proof (update_other_frame older h w Hne) as Hu.
  fold r in Hu. rewrite Hu. simpl.
  split; [reflexivity|]. split; [reflexivity|].
  rewrite update_other_frame by (simpl; lia). reflexivity.
Qed.

End Handler.

(** A concrete handler: the world is the log of updater calls. *)
Definition ctx (n : Z) : TechniqueUpdateContext :=
  {| env := ∅; frameNumber := n;
     viewRanges := {| near := 0; far := 0; minimum := 0; maximum := 0 |};
     projection := Planar |}.

Definition logging (tag : Z) : @TechniqueUpdater (list (Z * Z)) :=
  fun context w => (w ++ [(tag, frameNumber context)], Normal).

Definition two_updaters : @Handler (list (Z * Z)) :=
  create [logging 1; logging 2].

Example update_runs_in_registration_order :
  update (ctx 7) two_updaters [] =
  (record_frame two_updaters 7, [(1, 7); (2, 7)]%Z, Normal).
Proof. reflexivity. Qed.

Example update_fresh_handler_ignores_frame_minus_one :
  update (ctx (-1)) two_updaters [] = (two_updaters, [], Normal).
Proof. reflexivity. Qed.

Lemma update_once_per_frame_witness :
  (forall context', frameNumber context' = 7%Z ->
     update context' (record_frame two_updaters 7) [(1, 7); (2, 7)]%Z =
     (record_frame two_updaters 7, [(1, 7); (2, 7)]%Z, Normal)) /\
  (7%Z <> (-1)%Z ->
     (([(1, 7); (2, 7)]%Z, Normal) : list (Z * Z) * Completion) =
     run_updaters (ctx 7) (updaters two_updaters) []).
Proof.
  pose proof (update_once_per_frame (ctx 7) two_updaters
                (record_frame two_updaters 7) [] [(1, 7); (2, 7)]%Z Normal
                eq_refl) as [Hsame [_ Hnew]].
  split.
  - exact Hsame.
  - intros Hne. apply Hnew. exact Hne.
Defined.

Lemma update_accepts_older_frame_witness :
  update (ctx 3) (record_frame two_updaters 5) [] =
    (record_frame two_updaters 3, [(1, 3); (2, 3)]%Z, Normal) /\
  update (ctx 5) (record_frame two_updaters 3) [(1, 3); (2, 3)]%Z =
    (record_frame two_updaters 5, [(1, 3); (2, 3); (1, 5); (2, 5)]%Z, Normal).
Proof.
  pose proof (update_accepts_older_frame (ctx 3) (ctx 5)
                (record_frame two_updaters 5) [] eq_refl ltac:(simpl; lia))
    as [H1 [_ H2]].
  split; [exact H1 | exact H2].
Defined.

(** ** Calls of [update] over several frames *)

Section Frames.
Context {World : Type}.
Local Abbreviation Handler := (@Handler World).

(** The calls of [update] that a handler receives, one after the other;
    the caller goes on whatever a call did. *)
Definition update_each (contexts : list TechniqueUpdateContext)
    (h : Handler) (w : World) : Handler * World :=
  fold_left (fun hw context => (update context hw.1 hw.2).1) contexts (h, w).

(** The calls that find a frame number other than the recorded one. *)
Fixpoint new_frames (recorded : Z) (contexts : list TechniqueUpdateContext)
    : list TechniqueUpdateContext :=
  match contexts with
  | [] => []
  | context :: rest =>
      if (frameNumber context =? recorded)%Z
      then new_frames recorded rest
      else context :: new_frames (frameNumber context) rest
  end.

(** X1.  Over any sequence of calls, the updaters run once for each call
    whose frame number differs from that of the call before it (for the
    first call: from the number the handler has recorded), and for no
    other call; the handler ends with the frame number of the last call
    and the updaters it had. *)
Theorem update_runs_once_per_frame_change
    (contexts : list TechniqueUpdateContext) (h : Handler) (w : World) :
  update_each contexts h w =
  (record_frame h (default (lastUpdateFrameNumber h)
                     (frameNumber <$> last contexts)),
   fold_left (fun w context => (run_updaters context (updaters h) w).1)
     (new_frames (lastUpdateFrameNumber h) contexts) w).
Proof.
  unfold update_each. revert h w.
  induction contexts as [|context rest IH]; intros h w.
  - simpl. by destruct h.
  - cbn [fold_left new_frames fst snd].
    destruct (Z.eqb_spec (frameNumber context) (lastUpdateFrameNumber h))
      as [Heq|Hne].
    + rewrite update_same_frame by done. cbn [fst]. rewrite IH. f_equal.
      destruct rest as [|c rest']; [|by rewrite !last_cons_cons].
      simpl. rewrite Heq. by destruct h.
    + rewrite update_other_frame by done. cbn [fst]. rewrite IH.
      cbn [fold_left updaters record_frame lastUpdateFrameNumber]. f_equal.
      destruct rest as [|c rest']; [done|]. rewrite !last_cons_cons.
      destruct (last (c :: rest')) eqn:Hl; [done|by apply last_None in Hl].
Qed.

End Frames.

End GenericTechniqueHandler.

(** ** Techniques and tiles, as the pool and the orchestrator see them *)

(** The attributes of an [IndexedTechnique] that the modelled code reads:
    the kind name that selects the handler class, the identity key, and
    the [enabled] flag set by [initDecodedTile] ([undefined] before). *)
Record Technique := {
  name : string;
  _key : string;
  enabled : option bool
}.

(** A tile, as far as handlers and orchestrator read it. *)
Record Tile := {
  tileKey : Z;
  offset : Z;
  frameNumLastVisible : Z;
  tileProjection : ProjectionType;
  boundingBoxSize : float * float
}.

(** ** TechniqueHandlerPool *)

Module TechniqueHandlerPool.

(** The registry [techniqueHandlers] is a plain object ([= {}]), so besides
    the properties the handler modules assign it has the properties every
    object inherits from [Object.prototype]; these are their names. *)
Definition Object_prototype : list string :=
  ["constructor"; "hasOwnProperty"; "isPrototypeOf"; "propertyIsEnumerable";
   "toLocaleString"; "toString"; "valueOf"; "__proto__";
   "__defineGetter__"; "__defineSetter__"; "__lookupGetter__";
   "__lookupSetter__"].

Definition inherited (property : string) : bool :=
  bool_decide (property ∈ Object_prototype).

Section Pool.

(** The handler objects; [isShareableAcrossTiles] is the flag read right
    after construction. *)
Context {Handler : Type}.
Variable isShareableAcrossTiles : Handler -> bool.

(** A handler class as the handler modules register it; [new] on it
    yields a handler. *)
Definition TechniqueHandlerConstructor : Type :=
  Technique -> Tile -> TechniqueUpdateContext -> Handler.

(** The registry [techniqueHandlers] that the handler modules fill at load
    time ([techniqueHandlers.fill = FillTechniqueHandler], ...): its own
    properties. *)
Variable techniqueHandlers : gmap string TechniqueHandlerConstructor.

(** [pool : Map<string, TechniqueHandler>] holds references; [handlers] is
    the store of every handler object constructed so far, a reference being
    the position in it, so that [new] yields a reference never used before. *)
Record State := {
  pool : gmap string nat;
  handlers : list Handler
}.

Definition initial : State := {| pool := ∅; handlers := [] |}.

(** [technique.name in techniqueHandlers]: the [in] operator also finds
    inherited properties. *)
Definition canHandle (technique : Technique) : bool :=
  match techniqueHandlers !! name technique with
  | Some _ => true
  | None => inherited (name technique)
  end.

(** How [getTechniqueHandler] ends: it returns a handler, it throws
    [Error("unknown technique ...")], or the member it found under the name
    is one inherited from [Object.prototype].  Then [new] raises a
    [TypeError], since those members are no constructors, except for
    [constructor]: [new Object(technique, tile, context)] is the technique
    itself, which has no [isShareableAcrossTiles] and is not pooled, and
    the final assertion on [createObject] fails. *)
Inductive Outcome :=
| Returned (handler : nat)
| UnknownTechnique (technique_name : string)
| NotAHandler (technique_name : string).

(** A handler made by a registered constructor is a
    [WorldTechniqueHandler], so the final assertion holds for it, and for
    a pooled handler, which was made by one. *)
Definition getTechniqueHandler (technique : Technique) (tile : Tile)
    (context : TechniqueUpdateContext) (st : State) : Outcome * State :=
  let key := _key technique in
  match pool st !! key with
  | Some handler => (Returned handler, st)
  | None =>
      match techniqueHandlers !! name technique with
      | None =>
          if inherited (name technique)
          then (NotAHandler (name technique), st)
          else (UnknownTechnique (name technique), st)
      | Some techniqueHandlerCtor =>
          let handler := techniqueHandlerCtor technique tile context in
          let ref := length (handlers st) in
          let constructed := handlers st ++ [handler] in
          if isShareableAcrossTiles handler
          then (Returned ref,
                {| pool := <[key := ref]> (pool st); handlers := constructed |})
          else (Returned ref,
                {| pool := pool st; handlers := constructed |})
      end
  end.

Definition reset (st : State) : State :=
  {| pool := ∅; handlers := handlers st |}.

(** Calls a pool receives during its life. *)
Inductive Call :=
| Get (technique : Technique) (tile : Tile) (context : TechniqueUpdateContext)
| Reset.

Definition step (st : State) (c : Call) : State :=
  match c with
  | Get technique tile context =>
      snd (getTechniqueHandler technique tile context st)
  | Reset => reset st
  end.

Definition run (calls : list Call) (st : State) : State :=
  fold_left step calls st.

Definition is_get (c : Call) : Prop :=
  match c with Get _ _ _ => True | Reset => False end.

(** Every pooled reference names a constructed handler. *)
Definition pool_in_store (st : State) : Prop :=
  forall k r, pool st !! k = Some r -> r < length (handlers st).

(** Every pooled handler said it was shareable. *)
Definition pool_shareable (st : State) : Prop :=
  forall k r, pool st !! k = Some r ->
  exists h, handlers st !! r = Some h /\ isShareableAcrossTiles h = true.

Lemma run_app calls1 calls2 st :
  run (calls1 ++ calls2) st = run calls2 (run calls1 st).
Proof. unfold run. apply fold_left_app. Qed.

Lemma step_handlers_grow st c :
  exists fresh, handlers (step st c) = handlers st ++ fresh.
Proof.
  destruct c as [technique tile context|]; simpl.
  - unfold getTechniqueHandler.
    destruct (pool st !! _key technique).
    + exists []. simpl. by rewrite app_nil_r.
    + destruct (techniqueHandlers !! name technique) as [ctor|].
      * exists [ctor technique tile context].
        by destruct (isShareableAcrossTiles _).
      * exists []. destruct (inherited _); simpl; by rewrite app_nil_r.
  - exists []. simpl. by rewrite app_nil_r.
Qed.

Lemma run_handlers_grow calls st :
  exists fresh, handlers (run calls st) = handlers st ++ fresh.
Proof.
  revert st. induction calls as [|c calls IH]; intros st; simpl.
  - exists []. by rewrite app_nil_r.
  - destruct (IH (step st c)) as [f2 H2].
    destruct (step_handlers_grow st c) as [f1 H1].
    exists (f1 ++ f2). rewrite H2, H1. by rewrite app_assoc.
Qed.

Lemma step_pool_in_store st c :
  pool_in_store st -> pool_in_store (step st c).
Proof.
  intros Hwf. destruct c as [technique tile context|]; simpl.
  - unfold getTechniqueHandler.
    destruct (pool st !! _key technique) eqn:Hp; [exact Hwf|].
    destruct (techniqueHandlers !! name technique) as [ctor|];
      [|by destruct (inherited _)].
    destruct (isShareableAcrossTiles _); intros k r; simpl;
      rewrite length_app; simpl.
    + rewrite lookup_insert. case_decide.
      * intros [= <-]. lia.
      * intros H'. apply Hwf in H'. lia.
    + intros H'. apply Hwf in H'. lia.
  - intros k r. simpl. by rewrite lookup_empty.
Qed.

Lemma run_pool_in_store calls st :
  pool_in_store st -> pool_in_store (run calls st).
Proof.
  revert st. induction calls as [|c calls IH]; intros st Hwf; simpl; [done|].
  apply IH. by apply step_pool_in_store.
Qed.

Lemma initial_pool_in_store : pool_in_store initial.
Proof. intros k r. simpl. by rewrite lookup_empty. Qed.

Lemma step_pool_shareable st c :
  pool_shareable st -> pool_shareable (step st c).
Proof.
  intros Hwf. destruct c as [technique tile context|]; simpl.
  - unfold getTechniqueHandler.
    destruct (pool st !! _key technique) eqn:Hp; [exact Hwf|].
    destruct (techniqueHandlers !! name technique) as [ctor|];
      [|by destruct (inherited _)].
    destruct (isShareableAcrossTiles _) eqn:Hs; intros k r; simpl.
    + rewrite lookup_insert. case_decide.
      * intros [= <-]. eexists. split; [|exact Hs].
        rewrite lookup_app_r by lia. by rewrite Nat.sub_diag.
      * intros H'. destruct (Hwf _ _ H') as (h & Hh & Hsh).
        exists h. split; [|done]. by apply lookup_app_l_Some.
    + intros H'. destruct (Hwf _ _ H') as (h & Hh & Hsh).
      exists h. split; [|done]. by apply lookup_app_l_Some.
  - intros k r. simpl. by rewrite lookup_empty.
Qed.

Lemma run_pool_shareable calls st :
  pool_shareable st -> pool_shareable (run calls st).
Proof.
  revert st. induction calls as [|c calls IH]; intros st Hwf; simpl; [done|].
  apply IH. by apply step_pool_shareable.
Qed.

(** Without a reset in between, a pooled entry stays where it is. *)
Lemma step_get_keeps_entry st c k r :
  is_get c -> pool st !! k = Some r -> pool (step st c) !! k = Some r.
Proof.
  destruct c as [technique tile context|]; [intros _ Hk|done]. simpl.
  unfold getTechniqueHandler.
  destruct (pool st !! _key technique) eqn:Hp; [done|].
  destruct (techniqueHandlers !! name technique) as [ctor|];
      [|by destruct (inherited _)].
  destruct (isShareableAcrossTiles _); simpl; [|done].
  rewrite lookup_insert_ne; [done|]. intros Heq. congruence.
Qed.

Lemma run_gets_keep_entry calls st k r :
  Forall is_get calls -> pool st !! k = Some r ->
  pool (run calls st) !! k = Some r.
Proof.
  revert st. induction calls as [|c calls IH]; intros st Hg Hk; simpl; [done|].
  inversion Hg; subst. apply IH; [done|]. by apply step_get_keeps_entry.
Qed.

(** A handler that was constructed and left out of the pool is never put
    there later: later insertions bind references constructed later. *)
Lemma step_never_pools_old st c r :
  r < length (handlers st) ->
  (forall k, pool st !! k <> Some r) ->
  forall k, pool (step st c) !! k <> Some r.
Proof.
  intros Hr Hout. destruct c as [technique tile context|]; simpl.
  - unfold getTechniqueHandler.
    destruct (pool st !! _key technique) eqn:Hp; [done|].
    destruct (techniqueHandlers !! name technique) as [ctor|];
      [|by destruct (inherited _)].
    destruct (isShareableAcrossTiles _); simpl; [|done].
    intros k. rewrite lookup_insert. case_decide.
    + intros [= Heq]. lia.
    + apply Hout.
  - intros k. by rewrite lookup_empty.
Qed.

Lemma run_never_pools_old calls st r :
  r < length (handlers st) ->
  (forall k, pool st !! k <> Some r) ->
  forall k, pool (run calls st) !! k <> Some r.
Proof.
  revert st. induction calls as [|c calls IH]; intros st Hr Hout; simpl; [done|].
  apply IH.
  - destruct (step_handlers_grow st c) as [f ->]. rewrite length_app. lia.
  - by apply step_never_pools_old.
Qed.

Lemma getTechniqueHandler_constructs st technique tile context ctor :
  pool st !! _key technique = None ->
  techniqueHandlers !! name technique = Some ctor ->
  let h := ctor technique tile context in
  getTechniqueHandler technique tile context st =
  (Returned (length (handlers st)),
   {| pool := if isShareableAcrossTiles h
              then <[_key technique := length (handlers st)]> (pool st)
              else pool st;
      handlers := handlers st ++ [h] |}).
Proof.
  intros Hp Hc. unfold getTechniqueHandler. rewrite Hp, Hc. simpl.
  by destruct (isShareableAcrossTiles _).
Qed.

Lemma getTechniqueHandler_unregistered st technique tile context :
  pool st !! _key technique = None ->
  techniqueHandlers !! name technique = @None TechniqueHandlerConstructor ->
  getTechniqueHandler technique tile context st =
  (if inherited (name technique)
   then NotAHandler (name technique)
   else UnknownTechnique (name technique),
   st).
Proof.
  intros Hp Hc. unfold getTechniqueHandler, TechniqueHandlerConstructor in *.
  rewrite Hp, Hc. by destruct (inherited _).
Qed.

Lemma getTechniqueHandler_pooled st technique tile context r :
  pool st !! _key technique = Some r ->
  getTechniqueHandler technique tile context st = (Returned r, st).
Proof. intros Hp. unfold getTechniqueHandler. by rewrite Hp. Qed.

(** C2.  Take any pool state reached from the empty pool, and a request
    whose key is not pooled and whose kind has a registered constructor, so
    that a handler is constructed; it gets a reference no handler had before.
    If that handler reports itself shareable, it is inserted under the key,
    and every later request with the key, from any tile, returns that same
    handler (as long as the pool is not reset).  If it reports itself not
    shareable, the pool is left as it was, no later call ever puts the
    handler into the pool, and the next request with the key constructs a
    second handler, distinct from the first and new as well. *)
Theorem getTechniqueHandler_shares_iff_shareable
    (history : list Call) (technique : Technique) (tile : Tile)
    (context : TechniqueUpdateContext) (ctor : TechniqueHandlerConstructor)
    (Hfresh : pool (run history initial) !! _key technique = None)
    (Hctor : techniqueHandlers !! name technique = Some ctor) :
  let st := run history initial in
  let h := ctor technique tile context in
  let r := length (handlers st) in
  let st1 := snd (getTechniqueHandler technique tile context st) in
  fst (getTechniqueHandler technique tile context st) = Returned r /\
  handlers st1 !! r = Some h /\
  (isShareableAcrossTiles h = true ->
     pool st1 !! _key technique = Some r /\
     forall between technique2 tile2 context2,
       Forall is_get between ->
       _key technique2 = _key technique ->
       getTechniqueHandler technique2 tile2 context2 (run between st1) =
       (Returned r, run between st1)) /\
  (isShareableAcrossTiles h = false ->
     pool st1 = pool st /\
     (forall later k, pool (run later st1) !! k <> Some r) /\
     forall technique2 tile2 context2 ctor2,
       _key technique2 = _key technique ->
       techniqueHandlers !! name technique2 = Some ctor2 ->
       let r2 := length (handlers st1) in
       let st2 := snd (getTechniqueHandler technique2 tile2 context2 st1) in
       fst (getTechniqueHandler technique2 tile2 context2 st1) = Returned r2 /\
       r2 <> r /\
       handlers st2 !! r2 = Some (ctor2 technique2 tile2 context2) /\
       handlers st2 !! r = Some h).
Proof.
  intros st h r st1.
  assert (Hwf : pool_in_store st)
    by (apply run_pool_in_store, initial_pool_in_store).
  pose proof (getTechniqueHandler_constructs st technique tile context ctor
                Hfresh Hctor) as Hget.
  simpl in Hget. fold h r in Hget.
  assert (Hst1 : st1 = {| pool := if isShareableAcrossTiles h
                                  then <[_key technique := r]> (pool st)
                                  else pool st;
                          handlers := handlers st ++ [h] |})
    by (unfold st1; rewrite Hget; reflexivity).
  assert (Hr : handlers st1 !! r = Some h).
  { rewrite Hst1. simpl. rewrite lookup_app_r by (unfold r; lia).
    unfold r. by rewrite Nat.sub_diag. }
  split; [by rewrite Hget|]. split; [exact Hr|]. split.
  - intros Hs. rewrite Hs in Hst1.
    assert (Hin : pool st1 !! _key technique = Some r)
      by (rewrite Hst1; simpl; apply lookup_insert_eq).
    split; [exact Hin|].
    intros between technique2 tile2 context2 Hgets Hkey.
    apply getTechniqueHandler_pooled. rewrite Hkey.
    by apply run_gets_keep_entry.
  - intros Hs. rewrite Hs in Hst1.
    assert (Hlen : length (handlers st1) = S r)
      by (rewrite Hst1; simpl; rewrite length_app; simpl; unfold r; lia).
    assert (Hout : forall k, pool st1 !! k <> Some r).
    { intros k Hk. rewrite Hst1 in Hk. simpl in Hk.
      apply Hwf in Hk. unfold r in Hk. lia. }
    split; [by rewrite Hst1|]. split.
    + intros later. apply run_never_pools_old; [lia | exact Hout].
    + intros technique2 tile2 context2 ctor2 Hkey Hctor2 r2 st2.
      assert (Hfresh2 : pool st1 !! _key technique2 = None)
        by (rewrite Hkey, Hst1; exact Hfresh).
      pose proof (getTechniqueHandler_constructs st1 technique2 tile2 context2
                    ctor2 Hfresh2 Hctor2) as Hget2.
      simpl in Hget2. fold r2 in Hget2.
      unfold st2. rewrite Hget2. simpl.
      split; [reflexivity|]. split; [unfold r2; lia|]. split.
      * rewrite lookup_app_r by (unfold r2; lia).
        unfold r2. by rewrite Nat.sub_diag.
      * by apply lookup_app_l_Some.
Qed.

End Pool.

(** The registry as two of the handler modules fill it: the fill handler
    keeps the default [isShareableAcrossTiles = true], the terrain handler
    sets it to [false]. *)
Record SampleHandler := { made_for : Z; shareable : bool }.

Definition sample_registry
    : gmap string (@TechniqueHandlerConstructor SampleHandler) :=
  <["fill" := fun _ tile _ => {| made_for := tileKey tile; shareable := true |}]>
  (<["terrain" := fun _ tile _ => {| made_for := tileKey tile; shareable := false |}]> ∅).

Definition sample_tile (key : Z) : Tile :=
  {| tileKey := key; offset := 0; frameNumLastVisible := 0;
     tileProjection := Planar; boundingBoxSize := (1%float, 1%float) |}.

Definition sample_context : TechniqueUpdateContext :=
  {| env := ∅; frameNumber := 0;
     viewRanges := {| near := 0; far := 0; minimum := 0; maximum := 0 |};
     projection := Planar |}.

Definition water : Technique :=
  {| name := "fill"; _key := "fill:water"; enabled := Some true |}.

Definition relief : Technique :=
  {| name := "terrain"; _key := "terrain:relief"; enabled := Some true |}.

Example pool_shares_fill_between_tiles :
  let st1 := snd (getTechniqueHandler shareable sample_registry water
                    (sample_tile 1) sample_context initial) in
  fst (getTechniqueHandler shareable sample_registry water
         (sample_tile 2) sample_context st1) = Returned 0 /\
  handlers st1 = [{| made_for := 1; shareable := true |}].
Proof. split; reflexivity. Qed.

Example pool_rebuilds_terrain_per_request :
  let st1 := snd (getTechniqueHandler shareable sample_registry relief
                    (sample_tile 1) sample_context initial) in
  let st2 := snd (getTechniqueHandler shareable sample_registry relief
                    (sample_tile 2) sample_context st1) in
  fst (getTechniqueHandler shareable sample_registry relief
         (sample_tile 2) sample_context st1) = Returned 1 /\
  pool st2 = ∅ /\
  handlers st2 = [{| made_for := 1; shareable := false |};
                  {| made_for := 2; shareable := false |}].
Proof. repeat split; reflexivity. Qed.

Lemma getTechniqueHandler_shares_iff_shareable_witness :
  (getTechniqueHandler shareable sample_registry water (sample_tile 2)
     sample_context
     (snd (getTechniqueHandler shareable sample_registry water (sample_tile 1)
             sample_context initial))
   = (Returned 0,
      snd (getTechniqueHandler shareable sample_registry water (sample_tile 1)
             sample_context initial))) /\
  (fst (getTechniqueHandler shareable sample_registry relief (sample_tile 2)
          sample_context
          (snd (getTechniqueHandler shareable sample_registry relief
                  (sample_tile 1) sample_context initial)))
   = Returned 1 /\ 1 <> 0).
Proof.
  split.
  - pose proof (getTechniqueHandler_shares_iff_shareable shareable
                  sample_registry [] water (sample_tile 1) sample_context
                  (fun _ tile _ => {| made_for := tileKey tile; shareable := true |})
                  eq_refl eq_refl) as (_ & _ & Hshared & _).
    destruct (Hshared eq_refl) as [_ Hagain].
    exact (Hagain [] water (sample_tile 2) sample_context
             ltac:(constructor) eq_refl).
  - pose proof (getTechniqueHandler_shares_iff_shareable shareable
                  sample_registry [] relief (sample_tile 1) sample_context
                  (fun _ tile _ => {| made_for := tileKey tile; shareable := false |})
                  eq_refl eq_refl) as (_ & _ & _ & Hprivate).
    destruct (Hprivate eq_refl) as (_ & _ & Hagain).
    destruct (Hagain relief (sample_tile 2) sample_context
                (fun _ tile _ => {| made_for := tileKey tile; shareable := false |})
                eq_refl eq_refl) as (Hret & Hne & _).
    split; [exact Hret | exact Hne].
Defined.

(** ** Unknown techniques *)

Section PoolErrors.

Context {Handler : Type}.
Variable isShareableAcrossTiles : Handler -> bool.
Variable techniqueHandlers : gmap string (@TechniqueHandlerConstructor Handler).

Local Abbreviation getTechniqueHandler_ :=
  (getTechniqueHandler isShareableAcrossTiles techniqueHandlers).
Local Abbreviation run_ := (run isShareableAcrossTiles techniqueHandlers).

(** X2.  In any pool reached from the empty one, [getTechniqueHandler]
    returns exactly when the key of the technique is pooled or its name is
    one the handler modules registered; the handler it returns exists, and
    a pooled key is answered without looking at the name at all.  In every
    other case it throws and leaves the pool as it was: with the error
    "unknown technique", naming the technique, when the name is no
    property of the registry, and otherwise, for a name inherited from
    [Object.prototype] such as [constructor], on the member found there,
    although [canHandle] accepts such a name. *)
Theorem getTechniqueHandler_throws_iff_not_registered
    (history : list Call) (technique : Technique) (tile : Tile)
    (context : TechniqueUpdateContext) :
  let st := run_ history initial in
  let r := getTechniqueHandler_ technique tile context st in
  match r.1 with
  | Returned handler =>
      is_Some (handlers r.2 !! handler) /\
      (is_Some (pool st !! _key technique) \/
       is_Some (techniqueHandlers !! name technique))
  | UnknownTechnique unknown =>
      unknown = name technique /\
      pool st !! _key technique = None /\
      techniqueHandlers !! name technique = None /\
      (name technique ∉ Object_prototype) /\
      canHandle techniqueHandlers technique = false /\
      r.2 = st
  | NotAHandler member =>
      member = name technique /\
      pool st !! _key technique = None /\
      techniqueHandlers !! name technique = None /\
      (name technique ∈ Object_prototype) /\
      canHandle techniqueHandlers technique = true /\
      r.2 = st
  end.
Proof.
  intros st r.
  assert (Hwf : pool_in_store st)
    by apply run_pool_in_store, initial_pool_in_store.
  unfold r, getTechniqueHandler, canHandle.
  destruct (pool st !! _key technique) as [pooled|] eqn:Hpooled; simpl.
  - split; [|by left; eauto]. apply lookup_lt_is_Some. by apply Hwf in Hpooled.
  - destruct (techniqueHandlers !! name technique) as [ctor|]; simpl.
    + destruct (isShareableAcrossTiles _); simpl;
        (split; [|by right; eauto]); rewrite lookup_app_r by lia;
        rewrite Nat.sub_diag; by eexists.
    + unfold inherited. case_bool_decide; simpl; by repeat split.
Qed.

End PoolErrors.

(** ** Resetting the pool *)

Section PoolReset.

Context {Handler : Type}.
Variable isShareableAcrossTiles : Handler -> bool.
Variable techniqueHandlers : gmap string (@TechniqueHandlerConstructor Handler).

Local Abbreviation getTechniqueHandler_ :=
  (getTechniqueHandler isShareableAcrossTiles techniqueHandlers).
Local Abbreviation run_ := (run isShareableAcrossTiles techniqueHandlers).

(** X26.  [reset] ends all sharing but destroys nothing: the first request
    after it constructs a handler anew for whatever technique, also for one
    whose handler was pooled, and that handler is none of those handed out
    before, which all stay as they are.  A technique that was served only
    because its key was pooled is unknown after the reset: the request
    throws, on the inherited member if the name is one inherited from
    [Object.prototype] and with "unknown technique" otherwise. *)
Theorem reset_forgets_pooled_handlers
    (history : list Call) (technique : Technique) (tile : Tile)
    (context : TechniqueUpdateContext) :
  let st := run_ history initial in
  let r := getTechniqueHandler_ technique tile context (reset st) in
  match techniqueHandlers !! name technique with
  | Some ctor =>
      r.1 = Returned (length (handlers st)) /\
      handlers r.2 = handlers st ++ [ctor technique tile context] /\
      pool r.2 =
        (if isShareableAcrossTiles (ctor technique tile context)
         then {[ _key technique := length (handlers st) ]} else ∅) /\
      forall k pooled, pool st !! k = Some pooled -> pooled < length (handlers st)
  | None =>
      r.1 = (if inherited (name technique)
             then NotAHandler (name technique)
             else UnknownTechnique (name technique)) /\
      r.2 = reset st
  end.
Proof.
  intros st r. subst r. unfold getTechniqueHandler, reset. cbn [pool handlers].
  rewrite lookup_empty.
  destruct (techniqueHandlers !! name technique) as [ctor|];
      [|by destruct (inherited _)].
  assert (Hwf : pool_in_store st)
    by apply run_pool_in_store, initial_pool_in_store.
  destruct (isShareableAcrossTiles _); cbn [fst snd pool handlers];
    repeat split; try done.
Qed.

End PoolReset.

(** A technique named after a member every object inherits: [canHandle]
    accepts it, but what [getTechniqueHandler] finds under the name is no
    handler constructor, and nothing is pooled. *)
Definition inherited_name : Technique :=
  {| name := "constructor"; _key := "constructor:1"; enabled := Some true |}.

Example canHandle_accepts_inherited_name :
  canHandle sample_registry inherited_name = true /\
  getTechniqueHandler shareable sample_registry inherited_name (sample_tile 1)
    sample_context initial
  = (NotAHandler "constructor", initial).
Proof. split; reflexivity. Qed.

Example unregistered_name_is_unknown :
  let lines := {| name := "line"; _key := "line:1"; enabled := Some true |} in
  canHandle sample_registry lines = false /\
  getTechniqueHandler shareable sample_registry lines (sample_tile 1)
    sample_context initial
  = (UnknownTechnique "line", initial).
Proof. split; reflexivity. Qed.

End TechniqueHandlerPool.

(** ** Materials, drawable objects and the scene *)

(** JavaScript operators on values of type [number | undefined]. *)

(** [a === b] *)
Definition strict_equal (a b : option float) : bool :=
  match a, b with
  | None, None => true
  | Some x, Some y => PrimFloat.eqb x y
  | _, _ => false
  end.

(** [a > 0]; [undefined] converts to NaN, which compares false. *)
Definition greater_than_zero (a : option float) : bool :=
  match a with
  | Some x => PrimFloat.ltb 0 x
  | None => false
  end.

(** [a * b] with a possibly undefined left operand. *)
Definition times (a : option float) (b : float) : float :=
  match a with
  | Some x => PrimFloat.mul x b
  | None => nan
  end.

(** A render material, as far as the handlers read or write it. *)
Record Material := {
  color : Z;
  opacity : option float;
  lineWidth : float;
  outlineWidth : float;
  dashSize : float;
  gapSize : float;
  fadeNear : option float;
  fadeFar : option float;
  caps : string;
  clipTileSize : option (float * float);
  useVertexColor : bool
}.

(** Assignments to one field of a material. *)
Definition with_opacity (m : Material) (v : option float) : Material :=
  {| color := color m; opacity := v; lineWidth := lineWidth m;
     outlineWidth := outlineWidth m; dashSize := dashSize m;
     gapSize := gapSize m; fadeNear := fadeNear m; fadeFar := fadeFar m;
     caps := caps m; clipTileSize := clipTileSize m;
     useVertexColor := useVertexColor m |}.

Definition with_lineWidth (m : Material) (v : float) : Material :=
  {| color := color m; opacity := opacity m; lineWidth := v;
     outlineWidth := outlineWidth m; dashSize := dashSize m;
     gapSize := gapSize m; fadeNear := fadeNear m; fadeFar := fadeFar m;
     caps := caps m; clipTileSize := clipTileSize m;
     useVertexColor := useVertexColor m |}.

Definition with_outlineWidth (m : Material) (v : float) : Material :=
  {| color := color m; opacity := opacity m; lineWidth := lineWidth m;
     outlineWidth := v; dashSize := dashSize m;
     gapSize := gapSize m; fadeNear := fadeNear m; fadeFar := fadeFar m;
     caps := caps m; clipTileSize := clipTileSize m;
     useVertexColor := useVertexColor m |}.

Definition with_dashSize (m : Material) (v : float) : Material :=
  {| color := color m; opacity := opacity m; lineWidth := lineWidth m;
     outlineWidth := outlineWidth m; dashSize := v;
     gapSize := gapSize m; fadeNear := fadeNear m; fadeFar := fadeFar m;
     caps := caps m; clipTileSize := clipTileSize m;
     useVertexColor := useVertexColor m |}.

Definition with_gapSize (m : Material) (v : float) : Material :=
  {| color := color m; opacity := opacity m; lineWidth := lineWidth m;
     outlineWidth := outlineWidth m; dashSize := dashSize m;
     gapSize := v; fadeNear := fadeNear m; fadeFar := fadeFar m;
     caps := caps m; clipTileSize := clipTileSize m;
     useVertexColor := useVertexColor m |}.

Definition with_fadeNear (m : Material) (v : option float) : Material :=
  {| color := color m; opacity := opacity m; lineWidth := lineWidth m;
     outlineWidth := outlineWidth m; dashSize := dashSize m;
     gapSize := gapSize m; fadeNear := v; fadeFar := fadeFar m;
     caps := caps m; clipTileSize := clipTileSize m;
     useVertexColor := useVertexColor m |}.

Definition with_fadeFar (m : Material) (v : option float) : Material :=
  {| color := color m; opacity := opacity m; lineWidth := lineWidth m;
     outlineWidth := outlineWidth m; dashSize := dashSize m;
     gapSize := gapSize m; fadeNear := fadeNear m; fadeFar := v;
     caps := caps m; clipTileSize := clipTileSize m;
     useVertexColor := useVertexColor m |}.

Definition with_caps (m : Material) (v : string) : Material :=
  {| color := color m; opacity := opacity m; lineWidth := lineWidth m;
     outlineWidth := outlineWidth m; dashSize := dashSize m;
     gapSize := gapSize m; fadeNear := fadeNear m; fadeFar := fadeFar m;
     caps := v; clipTileSize := clipTileSize m;
     useVertexColor := useVertexColor m |}.

Definition with_useVertexColor (m : Material) (v : bool) : Material :=
  {| color := color m; opacity := opacity m; lineWidth := lineWidth m;
     outlineWidth := outlineWidth m; dashSize := dashSize m;
     gapSize := gapSize m; fadeNear := fadeNear m; fadeFar := fadeFar m;
     caps := caps m; clipTileSize := clipTileSize m;
     useVertexColor := v |}.

(** Which of its handler's materials an object is drawn with. *)
Inductive MaterialSlot := MainMaterial | SecondaryMaterial.

Record BufferGeometry := {
  source : nat;
  groupStart : Z;
  groupCount : Z;
  hasColorAttribute : bool
}.

(** A [THREE.Object3D]; [onBeforeRender] lists the chained clip-size
    callbacks, each with the material it writes and the size it writes. *)
Record Object3D := {
  geometry : BufferGeometry;
  material : MaterialSlot;
  visible : bool;
  renderOrder : float;
  onBeforeRender : list (MaterialSlot * (float * float))
}.

Definition set_visible (v : bool) (o : Object3D) : Object3D :=
  {| geometry := geometry o; material := material o; visible := v;
     renderOrder := renderOrder o; onBeforeRender := onBeforeRender o |}.

Definition set_renderOrder (v : float) (o : Object3D) : Object3D :=
  {| geometry := geometry o; material := material o; visible := visible o;
     renderOrder := v; onBeforeRender := onBeforeRender o |}.

(** [object.onBeforeRender = chainCallbacks(object.onBeforeRender, cb)] *)
Definition chain_onBeforeRender (cb : MaterialSlot * (float * float))
    (o : Object3D) : Object3D :=
  {| geometry := geometry o; material := material o; visible := visible o;
     renderOrder := renderOrder o;
     onBeforeRender := onBeforeRender o ++ [cb] |}.

(** [TileObjectEntry]: references to a drawable object and to its tile. *)
Record TileObjectEntry := {
  object : nat;
  tile : nat
}.

(** The objects and tiles that handlers hold references to.  An object
    reference is a position in [objects]; [tileObjects] is the
    [tile.objects] array of each tile. *)
Record Scene := {
  objects : list Object3D;
  tiles : nat -> Tile;
  tileObjects : gmap nat (list nat)
}.

Definition with_objects (s : Scene) (os : list Object3D) : Scene :=
  {| objects := os; tiles := tiles s; tileObjects := tileObjects s |}.

(** [tile.objects.push(object)] *)
Definition push_tile_object (tileRef objectRef : nat) (s : Scene) : Scene :=
  {| objects := objects s; tiles := tiles s;
     tileObjects :=
       <[tileRef := default [] (tileObjects s !! tileRef) ++ [objectRef]]>
         (tileObjects s) |}.

(** ** Geometry groups *)

(** A [Group] of harp-datasource-protocol: a span of a geometry's buffers
    labelled with a technique index, with the tile offsets it was already
    created for. *)
Module Group.
Record t := {
  start : Z;
  count : Z;
  technique : nat;
  createdOffsets : list Z;
  renderOrderOffset : option float
}.
End Group.

(** The source [Geometry] of a decoded tile, as far as the modelled code
    reads it. *)
Record Geometry := {
  uuid : nat;
  hasColor : bool;
  groups : list Group.t
}.

(** ** TechniqueHandlerCommon *)

Module TechniqueHandlerCommon.

(** The loop shared by every colour updater:
    [for (const entry of objects)
       if (entry.tile.frameNumLastVisible === context.frameNumber)
         entry.object.visible = material.opacity > 0]. *)
Fixpoint show_on_visible_tiles (frame : Z) (v : bool)
    (entries : list TileObjectEntry) (s : Scene) : Scene :=
  match entries with
  | [] => s
  | entry :: rest =>
      let s' :=
        if (frameNumLastVisible (tiles s (tile entry)) =? frame)%Z
        then with_objects s (alter (set_visible v) (object entry) (objects s))
        else s in
      show_on_visible_tiles frame v rest s'
  end.

(** Is [r] registered by an entry whose tile was last visible in [frame]? *)
Definition on_visible_tile (frame : Z) (tile_of : nat -> Tile)
    (entries : list TileObjectEntry) (r : nat) : bool :=
  existsb (fun entry =>
             Nat.eqb (object entry) r &&
             (frameNumLastVisible (tile_of (tile entry)) =? frame)%Z)
          entries.

Lemma show_on_visible_tiles_frame frame v entries s :
  tiles (show_on_visible_tiles frame v entries s) = tiles s /\
  tileObjects (show_on_visible_tiles frame v entries s) = tileObjects s /\
  length (objects (show_on_visible_tiles frame v entries s)) =
  length (objects s).
Proof.
  revert s. induction entries as [|entry rest IH]; intros s; simpl; [done|].
  destruct (IH (if (frameNumLastVisible (tiles s (tile entry)) =? frame)%Z
                then with_objects s (alter (set_visible v) (object entry) (objects s))
                else s)) as (Ht & Hto & Hl).
  rewrite Ht, Hto, Hl.
  destruct (frameNumLastVisible (tiles s (tile entry)) =? frame)%Z; simpl;
    [|done].
  by rewrite length_alter.
Qed.

Lemma set_visible_twice v o : set_visible v (set_visible v o) = set_visible v o.
Proof. reflexivity. Qed.

Lemma show_on_visible_tiles_lookup frame v entries s r :
  objects (show_on_visible_tiles frame v entries s) !! r =
  if on_visible_tile frame (tiles s) entries r
  then set_visible v <$> objects s !! r
  else objects s !! r.
Proof.
  revert s. induction entries as [|entry rest IH]; intros s; simpl; [done|].
  rewrite IH. clear IH.
  destruct (frameNumLastVisible (tiles s (tile entry)) =? frame)%Z eqn:Hf;
    simpl.
  - destruct (Nat.eqb_spec (object entry) r) as [->|Hne]; simpl.
    + rewrite list_lookup_alter_eq.
      destruct (on_visible_tile frame (tiles s) rest r);
        destruct (objects s !! r); reflexivity.
    + rewrite list_lookup_alter_ne by done. reflexivity.
  - rewrite andb_false_r. reflexivity.
Qed.

Section BaseColor.

(** [applyBaseColorToMaterial] of DecodedTileHelpers evaluates the
    technique's colour and opacity in the environment and writes them into
    the material; it is handed the material, the technique and the
    environment and nothing else. *)
Context {TechniqueWithColor : Type}.
Variable applyBaseColorToMaterial :
  Material -> TechniqueWithColor -> gmap string float -> Material.

Definition updateBaseColor (m : Material) (entries : list TileObjectEntry)
    (technique : TechniqueWithColor) (context : TechniqueUpdateContext)
    (s : Scene) : Material * Scene :=
  let lastOpacity := opacity m in
  let m' := applyBaseColorToMaterial m technique (env context) in
  if negb (strict_equal lastOpacity (opacity m'))
  then (m', show_on_visible_tiles (frameNumber context)
              (greater_than_zero (opacity m')) entries s)
  else (m', s).

(** C3.  Run at update frame [N = frameNumber context].  If the opacity of
    the material after the run is not the one before it, every registered
    object whose tile was last visible in frame [N] ends with its visible
    flag equal to [opacity > 0] and nothing else about it changed; an object
    none of whose registrations names a tile last visible in frame [N] is
    left exactly as it was, and this second part holds whether or not the
    opacity changed.  If the opacity did not change the scene is untouched. *)
Theorem updateBaseColor_visibility
    (m m' : Material) (entries : list TileObjectEntry)
    (technique : TechniqueWithColor) (context : TechniqueUpdateContext)
    (s s' : Scene)
    (Hrun : updateBaseColor m entries technique context s = (m', s')) :
  m' = applyBaseColorToMaterial m technique (env context) /\
  tiles s' = tiles s /\
  (strict_equal (opacity m) (opacity m') = false ->
   forall entry o,
     entry ∈ entries ->
     frameNumLastVisible (tiles s (tile entry)) = frameNumber context ->
     objects s !! object entry = Some o ->
     exists o',
       objects s' !! object entry = Some o' /\
       visible o' = greater_than_zero (opacity m') /\
       geometry o' = geometry o /\
       material o' = material o /\
       renderOrder o' = renderOrder o /\
       onBeforeRender o' = onBeforeRender o) /\
  (forall r,
     (forall entry, entry ∈ entries -> object entry = r ->
        frameNumLastVisible (tiles s (tile entry)) <> frameNumber context) ->
     objects s' !! r = objects s !! r) /\
  (strict_equal (opacity m) (opacity m') = true -> s' = s).
Proof.
  unfold updateBaseColor in Hrun.
  set (applied := applyBaseColorToMaterial m technique (env context)) in *.
  assert (Hm : m' = applied)
    by (destruct (negb _) in Hrun; by injection Hrun as <- _).
  subst m'.
  split; [reflexivity|].
  destruct (strict_equal (opacity m) (opacity applied)) eqn:Hop; simpl in Hrun;
    injection Hrun as <-.
  - repeat split; try done.
  - split; [apply show_on_visible_tiles_frame|]. split; [|split; [|done]].
    + intros _ entry o Hin Hvis Ho.
      rewrite show_on_visible_tiles_lookup.
      assert (Hon : on_visible_tile (frameNumber context) (tiles s) entries
                      (object entry) = true).
      { apply existsb_exists. exists entry. split.
        - by apply list_elem_of_In.
        - rewrite Nat.eqb_refl. simpl. by apply Z.eqb_eq. }
      rewrite Hon, Ho. simpl. eexists. split; [reflexivity|]. by repeat split.
    + intros r Hnone. rewrite show_on_visible_tiles_lookup.
      destruct (on_visible_tile (frameNumber context) (tiles s) entries r)
        eqn:Hon; [|reflexivity].
      apply existsb_exists in Hon. destruct Hon as (entry & Hin & Hcond).
      apply andb_true_iff in Hcond. destruct Hcond as [Hobj Hvis].
      apply Nat.eqb_eq in Hobj. apply Z.eqb_eq in Hvis.
      exfalso. apply (Hnone entry); [by apply list_elem_of_In|done|done].
Qed.

End BaseColor.

(** Opacity going from 1.0 to 0.0 with two registered objects, the first
    on a tile visible in the update frame, the second on a tile last
    visible a frame earlier. *)
Definition opaque_material : Material :=
  {| color := 0; opacity := Some 1%float; lineWidth := 1; outlineWidth := 0;
     dashSize := 1; gapSize := 1; fadeNear := None; fadeFar := None;
     caps := "Round"; clipTileSize := None; useVertexColor := false |}.

Definition opacity_from_env (m : Material) (_ : unit)
    (environment : gmap string float) : Material :=
  with_opacity m (environment !! "opacity").

Definition plain_object : Object3D :=
  {| geometry := {| source := 0; groupStart := 0; groupCount := 3;
                    hasColorAttribute := false |};
     material := MainMaterial; visible := true; renderOrder := 0;
     onBeforeRender := [] |}.

Definition tile_seen_in (frame : Z) : Tile :=
  {| tileKey := frame; offset := 0; frameNumLastVisible := frame;
     tileProjection := Planar; boundingBoxSize := (1%float, 1%float) |}.

Definition two_tiles : Scene :=
  {| objects := [plain_object; plain_object];
     tiles := fun r => match r with 0 => tile_seen_in 7 | _ => tile_seen_in 6 end;
     tileObjects := ∅ |}.

Definition two_entries : list TileObjectEntry :=
  [{| object := 0; tile := 0 |}; {| object := 1; tile := 1 |}].

Definition fading_context : TechniqueUpdateContext :=
  {| env := <["opacity" := 0%float]> ∅; frameNumber := 7;
     viewRanges := {| near := 0; far := 0; minimum := 0; maximum := 0 |};
     projection := Planar |}.

Example updateBaseColor_hides_visible_tile_only :
  visible <$> objects (snd (updateBaseColor opacity_from_env opaque_material
                              two_entries tt fading_context two_tiles))
  = [false; true].
Proof. reflexivity. Qed.

Lemma updateBaseColor_visibility_witness :
  let s' := snd (updateBaseColor opacity_from_env opaque_material two_entries
                   tt fading_context two_tiles) in
  (exists hidden,
     objects s' !! 0 = Some hidden /\
     visible hidden = false /\
     geometry hidden = geometry plain_object /\
     renderOrder hidden = renderOrder plain_object) /\
  (visible <$> objects s' !! 1) = Some true.
Proof.
  pose proof (updateBaseColor_visibility opacity_from_env opaque_material _
                two_entries tt fading_context two_tiles _ eq_refl)
    as (_ & _ & Hshown & Hframe & _).
  cbv zeta. split.
  - destruct (Hshown eq_refl {| object := 0; tile := 0 |} plain_object)
      as (hidden & Hhidden & Hvisible & Hgeometry & _ & Horder & _).
    + apply list_elem_of_here.
    + reflexivity.
    + reflexivity.
    + exists hidden. split; [exact Hhidden|]. split; [exact Hvisible|].
      split; [exact Hgeometry|exact Horder].
  - assert (Hkept : objects
             (snd (updateBaseColor opacity_from_env opaque_material two_entries
                     tt fading_context two_tiles)) !! 1
           = objects two_tiles !! 1); [|by rewrite Hkept].
    apply (Hframe 1). intros entry Hin Hobj.
    apply elem_of_cons in Hin. destruct Hin as [->|Hin].
    + discriminate Hobj.
    + apply elem_of_cons in Hin. destruct Hin as [->|Hin].
      * simpl. discriminate.
      * by apply not_elem_of_nil in Hin.
Defined.

End TechniqueHandlerCommon.

(** ** SolidLineTechniqueHandler *)

(** A [SolidLineTechnique].  An attribute is a constant, an interpolated
    property or an expression; the expression engine is a collaborator and
    enters as [evaluate] and [interpolate] below. *)
Module SolidLineTechnique.
Section Technique.
Context {Expr Interpolation : Type}.

Inductive Property :=
| Constant (v : float)
| Interpolated (i : Interpolation)
| Expression (e : Expr).

Record t := {
  color : option Property;
  opacity : option Property;
  lineWidth : option Property;
  outlineWidth : option Property;
  dashSize : option Property;
  gapSize : option Property;
  fadeNear : option Property;
  fadeFar : option Property;
  secondaryWidth : option Property;
  secondaryColor : option Property;
  secondaryCaps : option string;
  secondaryRenderOrder : option float;
  renderOrder : float;
  metricUnit : option string;
  clipping : option bool
}.

End Technique.
Arguments Property : clear implicits.
Arguments t : clear implicits.
End SolidLineTechnique.

Module FadingParameters.
Record t := {
  fadeNear : option float;
  fadeFar : option float
}.
End FadingParameters.

Module SolidLineTechniqueHandler.
Module T := SolidLineTechnique.
Import GenericTechniqueHandler.

Section Handler.
Context {Expr Interpolation : Type}.

Abbreviation Property := (T.Property Expr Interpolation).
Abbreviation SolidLineTechnique := (T.t Expr Interpolation).

(** Collaborators: the expression engine, the material factory and colour
    helper of DecodedTileHelpers, and harp-materials. *)
Variable evaluate : Expr -> gmap string float -> float.
Variable interpolate : Interpolation -> gmap string float -> float.
Variable createMaterial : SolidLineTechnique -> gmap string float -> Material.
Variable applyBaseColorToMaterial :
  Material -> SolidLineTechnique -> option Property -> gmap string float ->
  Material.
Variable cameraToWorldDistance : float -> ViewRanges -> float.
Variable DEFAULT_FADE_NEAR : float.
Variable DEFAULT_FADE_FAR : float.

(** [Expr.isExpr(value)] *)
Definition isExpr (p : option Property) : bool :=
  match p with
  | Some (T.Expression _) => true
  | _ => false
  end.

(** [getPropertyValue(property, env)]: [undefined] stays [undefined], a
    constant is its own value, anything else is evaluated. *)
Definition getPropertyValue (p : option Property)
    (environment : gmap string float) : option float :=
  match p with
  | None => None
  | Some (T.Constant v) => Some v
  | Some (T.Interpolated i) => Some (interpolate i environment)
  | Some (T.Expression e) => Some (evaluate e environment)
  end.

(** The fields of the handler and the scene its closures reach. *)
Record State := {
  technique : SolidLineTechnique;
  mainMaterial : Material;
  secondaryMaterial : option Material;
  mainObjects : list TileObjectEntry;
  secondaryObjects : list TileObjectEntry;
  metricUnitIsPixel : bool;
  scene : Scene
}.

Definition with_mainMaterial (s : State) (m : Material) : State :=
  {| technique := technique s; mainMaterial := m;
     secondaryMaterial := secondaryMaterial s; mainObjects := mainObjects s;
     secondaryObjects := secondaryObjects s;
     metricUnitIsPixel := metricUnitIsPixel s; scene := scene s |}.

Definition with_secondaryMaterial (s : State) (m : option Material) : State :=
  {| technique := technique s; mainMaterial := mainMaterial s;
     secondaryMaterial := m; mainObjects := mainObjects s;
     secondaryObjects := secondaryObjects s;
     metricUnitIsPixel := metricUnitIsPixel s; scene := scene s |}.

Definition with_mainObjects (s : State) (l : list TileObjectEntry) : State :=
  {| technique := technique s; mainMaterial := mainMaterial s;
     secondaryMaterial := secondaryMaterial s; mainObjects := l;
     secondaryObjects := secondaryObjects s;
     metricUnitIsPixel := metricUnitIsPixel s; scene := scene s |}.

Definition with_secondaryObjects (s : State) (l : list TileObjectEntry) : State :=
  {| technique := technique s; mainMaterial := mainMaterial s;
     secondaryMaterial := secondaryMaterial s; mainObjects := mainObjects s;
     secondaryObjects := l;
     metricUnitIsPixel := metricUnitIsPixel s; scene := scene s |}.

Definition with_metricUnitIsPixel (s : State) (b : bool) : State :=
  {| technique := technique s; mainMaterial := mainMaterial s;
     secondaryMaterial := secondaryMaterial s; mainObjects := mainObjects s;
     secondaryObjects := secondaryObjects s;
     metricUnitIsPixel := b; scene := scene s |}.

Definition with_scene (s : State) (sc : Scene) : State :=
  {| technique := technique s; mainMaterial := mainMaterial s;
     secondaryMaterial := secondaryMaterial s; mainObjects := mainObjects s;
     secondaryObjects := secondaryObjects s;
     metricUnitIsPixel := metricUnitIsPixel s; scene := sc |}.

(** [(context.env.lookup("$pixelToWorld") as number) ?? 1.0] *)
Definition getPixelToWorld (context : TechniqueUpdateContext) : float :=
  default 1%float (env context !! "$pixelToWorld").

Definition getUnitFactor (s : State) (context : TechniqueUpdateContext) : float :=
  if metricUnitIsPixel s then getPixelToWorld context else 1%float.

Definition updateLineWidth (context : TechniqueUpdateContext) (s : State)
    : State * Completion :=
  let unitFactor := getUnitFactor s context in
  (with_mainMaterial s
     (with_lineWidth (mainMaterial s)
        (times (getPropertyValue (T.lineWidth (technique s)) (env context))
               unitFactor * 0.5)%float),
   Normal).

Definition updateOutlineWidth (context : TechniqueUpdateContext) (s : State)
    : State * Completion :=
  let unitFactor := getUnitFactor s context in
  (with_mainMaterial s
     (with_outlineWidth (mainMaterial s)
        (times (getPropertyValue (T.outlineWidth (technique s)) (env context))
               unitFactor)),
   Normal).

Definition updateDashSize (context : TechniqueUpdateContext) (s : State)
    : State * Completion :=
  let unitFactor := getUnitFactor s context in
  (with_mainMaterial s
     (with_dashSize (mainMaterial s)
        (times (getPropertyValue (T.dashSize (technique s)) (env context))
               unitFactor * 0.5)%float),
   Normal).

Definition updateGapSize (context : TechniqueUpdateContext) (s : State)
    : State * Completion :=
  let unitFactor := getUnitFactor s context in
  (with_mainMaterial s
     (with_gapSize (mainMaterial s)
        (times (getPropertyValue (T.gapSize (technique s)) (env context))
               unitFactor * 0.5)%float),
   Normal).

(** [opacity === undefined || opacity === 1] *)
Definition fully_opaque (o : option float) : bool :=
  match o with
  | None => true
  | Some v => PrimFloat.eqb v 1
  end.

Definition updateSecondaryWidth (context : TechniqueUpdateContext) (s : State)
    : State * Completion :=
  match secondaryMaterial s with
  | None => (s, Thrown)
  | Some secondary =>
      let o := opacity (mainMaterial s) in
      let unitFactor := getUnitFactor s context in
      let techniqueLineWidth := lineWidth (mainMaterial s) in
      let techniqueSecondaryWidth :=
        (times (getPropertyValue (T.secondaryWidth (technique s)) (env context))
               unitFactor * 0.5)%float in
      let actualLineWidth :=
        if PrimFloat.leb techniqueSecondaryWidth techniqueLineWidth
           && fully_opaque o
        then 0%float
        else techniqueSecondaryWidth in
      (with_secondaryMaterial s (Some (with_lineWidth secondary actualLineWidth)),
       Normal)
  end.

(** [TechniqueHandlerCommon.updateBaseColor.bind(undefined,
      this.mainMaterial, this.mainObjects, technique)] *)
Definition updateMainColor (context : TechniqueUpdateContext) (s : State)
    : State * Completion :=
  let '(m', sc') :=
    TechniqueHandlerCommon.updateBaseColor
      (fun m t e => applyBaseColorToMaterial m t (T.color t) e)
      (mainMaterial s) (mainObjects s) (technique s) context (scene s) in
  (with_scene (with_mainMaterial s m') sc', Normal).

Definition updateSecondaryColor (context : TechniqueUpdateContext) (s : State)
    : State * Completion :=
  match secondaryMaterial s with
  | None => (s, Thrown)
  | Some secondary =>
      let lastOpacity := opacity secondary in
      let secondary' :=
        applyBaseColorToMaterial secondary (technique s)
          (T.secondaryColor (technique s)) (env context) in
      let sc' :=
        if negb (strict_equal lastOpacity (opacity secondary'))
        then TechniqueHandlerCommon.show_on_visible_tiles
               (frameNumber context)
               (greater_than_zero (opacity secondary'))
               (secondaryObjects s) (scene s)
        else scene s in
      (with_scene (with_secondaryMaterial s (Some secondary')) sc', Normal)
  end.

(** [TechniqueHandlerCommon.getFadingParams] *)
Definition getFadingParams (technique : SolidLineTechnique)
    (environment : gmap string float) : FadingParameters.t :=
  {| FadingParameters.fadeNear :=
       match T.fadeNear technique with
       | Some p => getPropertyValue (Some p) environment
       | None => Some DEFAULT_FADE_NEAR
       end;
     FadingParameters.fadeFar :=
       match T.fadeFar technique with
       | Some p => getPropertyValue (Some p) environment
       | None => Some DEFAULT_FADE_FAR
       end |}.

(** [TechniqueHandlerCommon.isFadingFeatureEnabled] *)
Definition isFadingFeatureEnabled (p : FadingParameters.t) : bool :=
  let fadeNear :=
    if strict_equal (FadingParameters.fadeNear p) (Some DEFAULT_FADE_NEAR)
    then None else FadingParameters.fadeNear p in
  let fadeFar :=
    if strict_equal (FadingParameters.fadeFar p) (Some DEFAULT_FADE_FAR)
    then None else FadingParameters.fadeFar p in
  negb (strict_equal fadeNear None) || negb (strict_equal fadeFar None).

(** [TechniqueHandlerCommon.updateFadingParams] *)
Definition updateFadingParams (m : Material) (p : FadingParameters.t)
    (context : TechniqueUpdateContext) : Material :=
  let m1 :=
    match FadingParameters.fadeNear p with
    | Some v => with_fadeNear m (Some (cameraToWorldDistance v (viewRanges context)))
    | None => m
    end in
  match FadingParameters.fadeFar p with
  | Some v => with_fadeFar m1 (Some (cameraToWorldDistance v (viewRanges context)))
  | None => m1
  end.

Definition updateMainFading (p : FadingParameters.t)
    (context : TechniqueUpdateContext) (s : State) : State * Completion :=
  (with_mainMaterial s (updateFadingParams (mainMaterial s) p context), Normal).

(** The closure is bound to the secondary material object, which exists
    when it is registered. *)
Definition updateSecondaryFading (p : FadingParameters.t)
    (context : TechniqueUpdateContext) (s : State) : State * Completion :=
  (with_secondaryMaterial s
     (option_map (fun m => updateFadingParams m p context) (secondaryMaterial s)),
   Normal).

(** [if (cond) this.updaters.push(updater)] *)
Definition push_if {A : Type} (cond : bool) (x : A) (l : list A) : list A :=
  if cond then l ++ [x] else l.

(** [if (cond) this.update...(context)]; these four never throw. *)
Definition call_if (cond : bool) (f : State -> State * Completion) (s : State)
    : State :=
  if cond then fst (f s) else s.

Definition is_defined {A : Type} (o : option A) : bool :=
  match o with Some _ => true | None => false end.

Definition is_pixel (unit : option string) : bool :=
  match unit with
  | Some u => String.eqb u "Pixel"
  | None => false
  end.

(** The constructor.  It yields the generic part of the handler (the
    registered updaters, the last applied frame) and the handler's own
    fields.  The assertion on the class of the created material is a
    check of the material factory and is not modelled. *)
Definition construct (technique : SolidLineTechnique) (tileRef : nat)
    (context : TechniqueUpdateContext) (sc : Scene)
    : @Handler State * State :=
  let environment := env context in
  let s0 :=
    {| technique := technique;
       mainMaterial := createMaterial technique environment;
       secondaryMaterial := None;
       mainObjects := []; secondaryObjects := [];
       metricUnitIsPixel := false;
       scene := sc |} in
  let u1 :=
    push_if (isExpr (T.color technique) || isExpr (T.opacity technique))
      updateMainColor [] in
  let pixel := is_pixel (T.metricUnit technique) in
  let s1 := with_metricUnitIsPixel s0 pixel in
  let u2 := push_if (isExpr (T.lineWidth technique) || pixel) updateLineWidth u1 in
  let u3 := push_if (isExpr (T.outlineWidth technique) || pixel) updateOutlineWidth u2 in
  let u4 := push_if (isExpr (T.dashSize technique) || pixel) updateDashSize u3 in
  let u5 := push_if (isExpr (T.gapSize technique) || pixel) updateGapSize u4 in
  let s2 := call_if (is_defined (T.lineWidth technique)) (updateLineWidth context) s1 in
  let s3 := call_if (is_defined (T.outlineWidth technique)) (updateOutlineWidth context) s2 in
  let s4 := call_if (is_defined (T.dashSize technique)) (updateDashSize context) s3 in
  let s5 := call_if (is_defined (T.gapSize technique)) (updateGapSize context) s4 in
  let fadingParam := getFadingParams technique environment in
  let fading := isFadingFeatureEnabled fadingParam in
  let u6 := push_if fading (updateMainFading fadingParam) u5 in
  if is_defined (T.secondaryWidth technique) then
    let cloned := mainMaterial s5 in
    let coloured :=
      applyBaseColorToMaterial cloned technique
        (Some (default (T.Constant 16711680%float) (T.secondaryColor technique)))
        environment in
    let capped :=
      match T.secondaryCaps technique with
      | Some c => with_caps coloured c
      | None => coloured
      end in
    let s6 := with_secondaryMaterial s5 (Some capped) in
    let u7 :=
      push_if (isExpr (T.secondaryColor technique) || isExpr (T.opacity technique))
        updateSecondaryColor u6 in
    let u8 := push_if fading (updateSecondaryFading fadingParam) u7 in
    let u9 :=
      push_if (isExpr (T.secondaryWidth technique)
               || isExpr (T.secondaryColor technique)
               || isExpr (T.opacity technique)
               || pixel)
        updateSecondaryWidth u8 in
    let s7 := call_if (is_defined (T.secondaryWidth technique))
                (updateSecondaryWidth context) s6 in
    (create u9, s7)
  else (create u6, s5).

(** [new THREE.Mesh(bufferGeometry, material)]: the new object goes to the
    end of the store; a mesh starts visible, with render order 0 and no
    render callback. *)
Definition new_mesh (g : BufferGeometry) (slot : MaterialSlot) (sc : Scene)
    : nat * Scene :=
  (length (objects sc),
   with_objects sc
     (objects sc ++ [{| geometry := g; material := slot; visible := true;
                        renderOrder := 0; onBeforeRender := [] |}])).

(** [TechniqueHandlerCommon.createGenericBufferGeometry], reduced to the
    group added to the buffer geometry and the presence of a colour
    attribute. *)
Definition createGenericBufferGeometry (srcGeometry : Geometry)
    (group : Group.t) : BufferGeometry :=
  {| source := uuid srcGeometry;
     groupStart := Group.start group;
     groupCount := Group.count group;
     hasColorAttribute := hasColor srcGeometry |}.

Definition is_planar (p : ProjectionType) : bool :=
  match p with Planar => true | Spherical => false end.

Definition installTileSizeUpdaterIfNeeded (tileRef objectRef : nat)
    (slot : MaterialSlot) (s : State) : State :=
  let t := tiles (scene s) tileRef in
  if negb (bool_decide (T.clipping (technique s) = Some false))
     && is_planar (tileProjection t)
  then
    with_scene s
      (with_objects (scene s)
         (alter (chain_onBeforeRender (slot, boundingBoxSize t)) objectRef
            (objects (scene s))))
  else s.

(** [createObject(tile, srcGeometry, group)].  Picking metadata
    ([setupUserData]) is not part of the model. *)
Definition createObject (tileRef : nat) (srcGeometry : Geometry)
    (group : Group.t) (s : State) : list nat * State :=
  let bufferGeometry := createGenericBufferGeometry srcGeometry group in
  let '(mainObject, sc1) := new_mesh bufferGeometry MainMaterial (scene s) in
  let s1 := with_scene s sc1 in
  let s2 := installTileSizeUpdaterIfNeeded tileRef mainObject MainMaterial s1 in
  let s3 :=
    with_scene s2
      (with_objects (scene s2)
         (alter (set_renderOrder (T.renderOrder (technique s2))) mainObject
            (objects (scene s2)))) in
  let s4 := with_scene s3 (push_tile_object tileRef mainObject (scene s3)) in
  let s5 :=
    with_mainObjects s4
      (mainObjects s4 ++ [{| object := mainObject; tile := tileRef |}]) in
  let s6 := installTileSizeUpdaterIfNeeded tileRef mainObject MainMaterial s5 in
  let s7 :=
    if hasColorAttribute bufferGeometry
    then with_mainMaterial s6 (with_useVertexColor (mainMaterial s6) true)
    else s6 in
  match secondaryMaterial s7 with
  | Some _ =>
      let '(secondaryObject, sc8) :=
        new_mesh bufferGeometry SecondaryMaterial (scene s7) in
      let s8 := with_scene s7 sc8 in
      let s9 :=
        installTileSizeUpdaterIfNeeded tileRef secondaryObject
          SecondaryMaterial s8 in
      let order :=
        match T.secondaryRenderOrder (technique s9) with
        | Some v => v
        | None => (T.renderOrder (technique s9) - 0.0000001)%float
        end in
      let s10 :=
        with_scene s9
          (with_objects (scene s9)
             (alter (set_renderOrder order) secondaryObject
                (objects (scene s9)))) in
      let s11 :=
        with_scene s10 (push_tile_object tileRef secondaryObject (scene s10)) in
      let s12 :=
        with_secondaryObjects s11
          (secondaryObjects s11 ++ [{| object := mainObject; tile := tileRef |}]) in
      ([mainObject; secondaryObject], s12)
  | None => ([mainObject], s7)
  end.

(** *** What happens to a handler during its life *)

Definition with_tiles (sc : Scene) (tiles' : nat -> Tile) : Scene :=
  {| objects := objects sc; tiles := tiles'; tileObjects := tileObjects sc |}.

(** A handler is constructed; afterwards the orchestrator asks it for
    objects, the frame loop updates it, and the tiles' visibility
    bookkeeping moves on between frames. *)
Inductive reachable : @Handler State * State -> Prop :=
| reachable_construct technique tileRef context sc :
    reachable (construct technique tileRef context sc)
| reachable_createObject h s tileRef srcGeometry group :
    reachable (h, s) ->
    reachable (h, snd (createObject tileRef srcGeometry group s))
| reachable_update h s context :
    reachable (h, s) ->
    reachable (fst (update context h s))
| reachable_frame h s tiles' :
    reachable (h, s) ->
    reachable (h, with_scene s (with_tiles (scene s) tiles')).

(** Only the materials differ between the two states. *)
Definition materials_only (s s' : State) : Prop :=
  technique s' = technique s /\
  metricUnitIsPixel s' = metricUnitIsPixel s /\
  mainObjects s' = mainObjects s /\
  secondaryObjects s' = secondaryObjects s /\
  scene s' = scene s.

(** Every object of the first store is still in the second, drawn with
    the same material. *)
Definition persists (os os' : list Object3D) : Prop :=
  forall r o, os !! r = Some o ->
  exists o', os' !! r = Some o' /\ material o' = material o.

Definition names_main_mesh (os : list Object3D) (entry : TileObjectEntry) : Prop :=
  exists o, os !! object entry = Some o /\ material o = MainMaterial.

(** The invariant: the pixel flag is the one the constructor computed from
    the technique, and every entry of [secondaryObjects] references a mesh
    drawn with the main material. *)
Definition inv (s : State) : Prop :=
  metricUnitIsPixel s = is_pixel (T.metricUnit (technique s)) /\
  Forall (names_main_mesh (objects (scene s))) (secondaryObjects s).

Definition preserves (u : @TechniqueUpdater State) : Prop :=
  forall context s, inv s -> inv (fst (u context s)).

Lemma materials_only_refl s : materials_only s s.
Proof. by repeat split. Qed.

Lemma materials_only_trans s1 s2 s3 :
  materials_only s1 s2 -> materials_only s2 s3 -> materials_only s1 s3.
Proof.
  intros (A1 & A2 & A3 & A4 & A5) (B1 & B2 & B3 & B4 & B5).
  repeat split; congruence.
Qed.

Lemma materials_only_inv s s' : materials_only s s' -> inv s -> inv s'.
Proof.
  intros (A1 & A2 & A3 & A4 & A5) [I1 I2]. split.
  - by rewrite A2, A1.
  - by rewrite A4, A5.
Qed.

Lemma updateLineWidth_materials_only context s :
  materials_only s (fst (updateLineWidth context s)).
Proof. by repeat split. Qed.

Lemma updateOutlineWidth_materials_only context s :
  materials_only s (fst (updateOutlineWidth context s)).
Proof. by repeat split. Qed.

Lemma updateDashSize_materials_only context s :
  materials_only s (fst (updateDashSize context s)).
Proof. by repeat split. Qed.

Lemma updateGapSize_materials_only context s :
  materials_only s (fst (updateGapSize context s)).
Proof. by repeat split. Qed.

Lemma updateSecondaryWidth_materials_only context s :
  materials_only s (fst (updateSecondaryWidth context s)).
Proof.
  unfold updateSecondaryWidth. destruct (secondaryMaterial s); by repeat split.
Qed.

Lemma updateMainFading_materials_only p context s :
  materials_only s (fst (updateMainFading p context s)).
Proof. by repeat split. Qed.

Lemma updateSecondaryFading_materials_only p context s :
  materials_only s (fst (updateSecondaryFading p context s)).
Proof. by repeat split. Qed.

Lemma call_if_materials_only cond f s :
  materials_only s (fst (f s)) -> materials_only s (call_if cond f s).
Proof.
  intros H. unfold call_if. destruct cond; [done|apply materials_only_refl].
Qed.

Lemma persists_refl os : persists os os.
Proof. intros r o H. by exists o. Qed.

Lemma persists_trans os1 os2 os3 :
  persists os1 os2 -> persists os2 os3 -> persists os1 os3.
Proof.
  intros H12 H23 r o H.
  destruct (H12 _ _ H) as (o2 & H2 & M2).
  destruct (H23 _ _ H2) as (o3 & H3 & M3).
  exists o3. split; [done|congruence].
Qed.

Lemma persists_app os fresh : persists os (os ++ fresh).
Proof.
  intros r o H. exists o. split; [|done]. by apply lookup_app_l_Some.
Qed.

Lemma persists_alter f r os :
  (forall o, material (f o) = material o) -> persists os (alter f r os).
Proof.
  intros Hf r' o H. destruct (decide (r = r')) as [->|Hne].
  - exists (f o). split; [|apply Hf].
    by rewrite list_lookup_alter_eq, H.
  - exists o. split; [|done]. by rewrite list_lookup_alter_ne.
Qed.

Lemma persists_show_on_visible_tiles frame v entries sc :
  persists (objects sc)
    (objects (TechniqueHandlerCommon.show_on_visible_tiles frame v entries sc)).
Proof.
  intros r o H.
  rewrite TechniqueHandlerCommon.show_on_visible_tiles_lookup, H.
  destruct (TechniqueHandlerCommon.on_visible_tile _ _ _ _); simpl; eauto.
Qed.

Lemma names_main_mesh_persists os os' entry :
  persists os os' -> names_main_mesh os entry -> names_main_mesh os' entry.
Proof.
  intros Hp (o & Ho & Hm). destruct (Hp _ _ Ho) as (o' & Ho' & Hm').
  exists o'. split; [done|congruence].
Qed.

Lemma updateMainColor_preserves : preserves updateMainColor.
Proof.
  intros context s [I1 I2]. unfold updateMainColor.
  destruct (TechniqueHandlerCommon.updateBaseColor _ _ _ _ _ _) as [m' sc'] eqn:Hrun.
  simpl. split; [done|].
  unfold TechniqueHandlerCommon.updateBaseColor in Hrun.
  destruct (negb _) in Hrun; injection Hrun as _ <-; [|done].
  eapply Forall_impl; [exact I2|].
  intros entry. apply names_main_mesh_persists.
  apply persists_show_on_visible_tiles.
Qed.

Lemma updateSecondaryColor_preserves : preserves updateSecondaryColor.
Proof.
  intros context s [I1 I2]. unfold updateSecondaryColor.
  destruct (secondaryMaterial s) as [secondary|]; [|done].
  simpl. split; [done|].
  destruct (negb _); [|done].
  eapply Forall_impl; [exact I2|].
  intros entry. apply names_main_mesh_persists.
  apply persists_show_on_visible_tiles.
Qed.

Lemma materials_only_preserves (u : @TechniqueUpdater State) :
  (forall context s, materials_only s (fst (u context s))) -> preserves u.
Proof. intros H context s. apply materials_only_inv, H. Qed.

Lemma push_if_preserves cond u us :
  preserves u -> Forall preserves us -> Forall preserves (push_if cond u us).
Proof.
  intros Hu Hus. unfold push_if. destruct cond; [|done].
  apply Forall_app. split; [done|]. by constructor.
Qed.

Lemma installTileSizeUpdaterIfNeeded_frame tileRef objectRef slot s :
  let s' := installTileSizeUpdaterIfNeeded tileRef objectRef slot s in
  technique s' = technique s /\
  metricUnitIsPixel s' = metricUnitIsPixel s /\
  mainMaterial s' = mainMaterial s /\
  secondaryMaterial s' = secondaryMaterial s /\
  mainObjects s' = mainObjects s /\
  secondaryObjects s' = secondaryObjects s /\
  persists (objects (scene s)) (objects (scene s')) /\
  length (objects (scene s')) = length (objects (scene s)) /\
  (forall r o, objects (scene s) !! r = Some o ->
     exists o', objects (scene s') !! r = Some o' /\
                visible o' = visible o /\ geometry o' = geometry o).
Proof.
  unfold installTileSizeUpdaterIfNeeded.
  destruct (negb _ && _); simpl.
  - repeat split; try done.
    + by apply persists_alter.
    + by rewrite length_alter.
    + intros r o H. destruct (decide (objectRef = r)) as [->|Hne].
      * eexists. rewrite list_lookup_alter_eq, H. simpl. by split.
      * exists o. by rewrite list_lookup_alter_ne.
  - repeat split; try done; [apply persists_refl|].
    intros r o H. by exists o.
Qed.

Lemma run_updaters_preserves context us s :
  Forall preserves us -> inv s -> inv (fst (run_updaters context us s)).
Proof.
  intros Hus. revert s. induction Hus as [|u us Hu _ IH]; intros s Hs; simpl.
  - done.
  - specialize (Hu context s Hs).
    destruct (u context s) as [s1 [|]]; simpl in *; [by apply IH|done].
Qed.

(** Naming the next [let] of an unfolded definition, so that a long
    sequence of assignments can be followed one state at a time. *)
Ltac name_let H :=
  lazymatch type of H with
  | (let x := ?v in @?b x) = ?rhs =>
      let y := fresh x in
      let E := fresh "E" y in
      pose (y := v);
      change (b y = rhs) in H; cbv beta in H;
      assert (E : y = v) by reflexivity;
      clearbody y
  end.

(** Every object of the first store is still in the second and looks the
    same: same material, same geometry, same visible flag. *)
Definition same_look (os os' : list Object3D) : Prop :=
  forall r o, os !! r = Some o ->
  exists o', os' !! r = Some o' /\ material o' = material o /\
             visible o' = visible o /\ geometry o' = geometry o.

Lemma same_look_refl os : same_look os os.
Proof. intros r o H. by exists o. Qed.

Lemma same_look_trans os1 os2 os3 :
  same_look os1 os2 -> same_look os2 os3 -> same_look os1 os3.
Proof.
  intros H12 H23 r o H.
  destruct (H12 _ _ H) as (o2 & H2 & M2 & V2 & G2).
  destruct (H23 _ _ H2) as (o3 & H3 & M3 & V3 & G3).
  exists o3. repeat split; congruence.
Qed.

Lemma same_look_app os fresh : same_look os (os ++ fresh).
Proof.
  intros r o H. exists o. split; [|done]. by apply lookup_app_l_Some.
Qed.

Lemma same_look_alter f r os :
  (forall o, material (f o) = material o /\ visible (f o) = visible o /\
             geometry (f o) = geometry o) ->
  same_look os (alter f r os).
Proof.
  intros Hf r' o H. destruct (decide (r = r')) as [->|Hne].
  - exists (f o). split; [|apply Hf].
    by rewrite list_lookup_alter_eq, H.
  - exists o. split; [|done]. by rewrite list_lookup_alter_ne.
Qed.

Lemma same_look_persists os os' : same_look os os' -> persists os os'.
Proof.
  intros H r o Ho. destruct (H _ _ Ho) as (o' & Ho' & Hm & _).
  by exists o'.
Qed.

(** The handler fields that [createObject] only reads. *)
Definition fixed_part (s : State)
    : SolidLineTechnique * bool * option Material :=
  (technique s, metricUnitIsPixel s, secondaryMaterial s).

Lemma installTileSizeUpdaterIfNeeded_effect tileRef objectRef slot s :
  let s' := installTileSizeUpdaterIfNeeded tileRef objectRef slot s in
  fixed_part s' = fixed_part s /\
  mainMaterial s' = mainMaterial s /\
  mainObjects s' = mainObjects s /\
  secondaryObjects s' = secondaryObjects s /\
  same_look (objects (scene s)) (objects (scene s')) /\
  length (objects (scene s')) = length (objects (scene s)).
Proof.
  unfold installTileSizeUpdaterIfNeeded.
  destruct (negb _ && _); simpl.
  - repeat split; try done.
    + by apply same_look_alter.
    + by rewrite length_alter.
  - repeat split; try done. apply same_look_refl.
Qed.

Lemma createObject_effect tileRef srcGeometry group s :
  let mainObject := length (objects (scene s)) in
  let entry := {| object := mainObject; tile := tileRef |} in
  let result := createObject tileRef srcGeometry group s in
  let s' := snd result in
  fixed_part s' = fixed_part s /\
  mainObjects s' = mainObjects s ++ [entry] /\
  same_look (objects (scene s)) (objects (scene s')) /\
  names_main_mesh (objects (scene s')) entry /\
  match secondaryMaterial s with
  | Some _ =>
      fst result = [mainObject; S mainObject] /\
      secondaryObjects s' = secondaryObjects s ++ [entry] /\
      length (objects (scene s')) = S (S mainObject) /\
      exists o, objects (scene s') !! S mainObject = Some o /\
                material o = SecondaryMaterial /\ visible o = true
  | None =>
      fst result = [mainObject] /\
      secondaryObjects s' = secondaryObjects s /\
      length (objects (scene s')) = S mainObject
  end.
Proof.
  intros mainObject entry result s'. subst result s'.
  destruct (createObject tileRef srcGeometry group s) as [refs s'] eqn:Hrun.
  cbv beta delta [createObject] in Hrun.
  name_let Hrun.
  cbv beta iota delta [new_mesh] in Hrun.
  repeat name_let Hrun.
  fold mainObject in Hrun, Es2, Es3, Es4, Es5, Es6. fold entry in Es5.
  (* the main mesh *)
  assert (F1 : fixed_part s1 = fixed_part s) by (by subst s1).
  assert (L1 : length (objects (scene s1)) = S mainObject)
    by (subst s1; simpl; rewrite length_app; simpl; unfold mainObject; lia).
  assert (K1 : same_look (objects (scene s)) (objects (scene s1)))
    by (subst s1; apply same_look_app).
  assert (M1 : exists o, objects (scene s1) !! mainObject = Some o /\
                         material o = MainMaterial /\ visible o = true).
  { subst s1. simpl. eexists. split.
    - rewrite lookup_app_r by (unfold mainObject; lia).
      unfold mainObject. rewrite Nat.sub_diag. reflexivity.
    - done. }
  assert (O1 : mainObjects s1 = mainObjects s /\
               secondaryObjects s1 = secondaryObjects s) by (by subst s1).
  destruct (installTileSizeUpdaterIfNeeded_effect tileRef mainObject MainMaterial s1)
    as (F2 & _ & A2 & B2 & K2 & L2).
  rewrite <- Es2 in F2, A2, B2, K2, L2.
  assert (F3 : fixed_part s3 = fixed_part s2) by (by subst s3).
  assert (O3 : mainObjects s3 = mainObjects s2 /\
               secondaryObjects s3 = secondaryObjects s2) by (by subst s3).
  assert (K3 : same_look (objects (scene s2)) (objects (scene s3)))
    by (subst s3; simpl; by apply same_look_alter).
  assert (L3 : length (objects (scene s3)) = length (objects (scene s2)))
    by (subst s3; simpl; by rewrite length_alter).
  assert (S5 : fixed_part s5 = fixed_part s3 /\
               objects (scene s5) = objects (scene s3) /\
               mainObjects s5 = mainObjects s3 ++ [entry] /\
               secondaryObjects s5 = secondaryObjects s3)
    by (by subst s5 s4).
  destruct S5 as (F5 & Q5 & A5 & B5).
  destruct (installTileSizeUpdaterIfNeeded_effect tileRef mainObject MainMaterial s5)
    as (F6 & _ & A6 & B6 & K6 & L6).
  rewrite <- Es6 in F6, A6, B6, K6, L6.
  assert (S7 : fixed_part s7 = fixed_part s6 /\
               scene s7 = scene s6 /\
               mainObjects s7 = mainObjects s6 /\
               secondaryObjects s7 = secondaryObjects s6)
    by (subst s7; by destruct (hasColorAttribute bufferGeometry)).
  destruct S7 as (F7 & Q7 & A7 & B7).
  assert (F : fixed_part s7 = fixed_part s) by congruence.
  assert (K : same_look (objects (scene s)) (objects (scene s7))).
  { rewrite Q7. eapply same_look_trans; [|exact K6]. rewrite Q5.
    eapply same_look_trans; [|exact K3].
    eapply same_look_trans; [exact K1|exact K2]. }
  assert (K17 : same_look (objects (scene s1)) (objects (scene s7))).
  { rewrite Q7. eapply same_look_trans; [|exact K6]. rewrite Q5.
    eapply same_look_trans; [exact K2|exact K3]. }
  assert (L : length (objects (scene s7)) = S mainObject)
    by (rewrite Q7, L6, Q5, L3, L2; exact L1).
  assert (A : mainObjects s7 = mainObjects s ++ [entry])
    by (destruct O1, O3; congruence).
  assert (B : secondaryObjects s7 = secondaryObjects s)
    by (destruct O1, O3; congruence).
  assert (N7 : names_main_mesh (objects (scene s7)) entry).
  { destruct M1 as (o & Ho & Hm & _).
    destruct (K17 _ _ Ho) as (o' & Ho' & Hm' & _).
    exists o'. split; [exact Ho'|congruence]. }
  assert (Hsec : secondaryMaterial s7 = secondaryMaterial s)
    by (injection F; congruence).
  rewrite Hsec in Hrun.
  destruct (secondaryMaterial s) as [secondary|].
  - repeat name_let Hrun. rewrite L in Hrun, Es9, Es10, Es11.
    injection Hrun as <- <-. simpl.
    assert (K8 : same_look (objects (scene s7)) (objects (scene s8)))
      by (subst s8; apply same_look_app).
    assert (M8 : exists o, objects (scene s8) !! S mainObject = Some o /\
                           material o = SecondaryMaterial /\ visible o = true).
    { subst s8. simpl. eexists. split.
      - rewrite lookup_app_r by lia. rewrite L, Nat.sub_diag. reflexivity.
      - done. }
    assert (S8 : fixed_part s8 = fixed_part s7 /\
                 mainObjects s8 = mainObjects s7 /\
                 secondaryObjects s8 = secondaryObjects s7 /\
                 length (objects (scene s8)) = S (S mainObject))
      by (subst s8; simpl; rewrite length_app, L; simpl; repeat split; lia).
    destruct S8 as (F8 & A8 & B8 & L8).
    destruct (installTileSizeUpdaterIfNeeded_effect tileRef (S mainObject)
                SecondaryMaterial s8) as (F9 & _ & A9 & B9 & K9 & L9).
    rewrite <- Es9 in F9, A9, B9, K9, L9.
    assert (K10 : same_look (objects (scene s9)) (objects (scene s10)))
      by (subst s10; simpl; by apply same_look_alter).
    assert (S10 : fixed_part s10 = fixed_part s9 /\
                  mainObjects s10 = mainObjects s9 /\
                  secondaryObjects s10 = secondaryObjects s9 /\
                  length (objects (scene s10)) = length (objects (scene s9)))
      by (subst s10; simpl; by rewrite length_alter).
    destruct S10 as (F10 & A10 & B10 & L10).
    assert (S12 : fixed_part s12 = fixed_part s10 /\
                  objects (scene s12) = objects (scene s10) /\
                  mainObjects s12 = mainObjects s10 /\
                  secondaryObjects s12 = secondaryObjects s10 ++ [entry])
      by (by subst s12 s11).
    destruct S12 as (F12 & Q12 & A12 & B12).
    assert (K812 : same_look (objects (scene s8)) (objects (scene s12)))
      by (rewrite Q12; eapply same_look_trans; [exact K9|exact K10]).
    assert (K712 : same_look (objects (scene s7)) (objects (scene s12)))
      by (eapply same_look_trans; [exact K8|exact K812]).
    split; [congruence|]. split; [congruence|].
    split; [eapply same_look_trans; [exact K|exact K712]|].
    split.
    { destruct N7 as (o & Ho & Hm).
      destruct (K712 _ _ Ho) as (o' & Ho' & Hm' & _).
      exists o'. split; [exact Ho'|congruence]. }
    split; [reflexivity|]. split; [congruence|].
    split; [rewrite Q12, L10, L9; exact L8|].
    destruct M8 as (o & Ho & Hm & Hv).
    destruct (K812 _ _ Ho) as (o' & Ho' & Hm' & Hv' & _).
    exists o'. repeat split; congruence.
  - injection Hrun as <- <-. simpl.
    repeat split; try done; congruence.
Qed.

Lemma createObject_preserves_inv tileRef srcGeometry group s :
  inv s -> inv (snd (createObject tileRef srcGeometry group s)).
Proof.
  intros [I1 I2].
  destruct (createObject_effect tileRef srcGeometry group s)
    as (F & _ & K & N & Hcase).
  injection F as Ht Hp Hs.
  split; [by rewrite Hp, Ht|].
  assert (Hold : Forall (names_main_mesh
                           (objects (scene (snd (createObject tileRef srcGeometry group s)))))
                        (secondaryObjects s)).
  { eapply Forall_impl; [exact I2|]. intros entry.
    apply names_main_mesh_persists. by apply same_look_persists. }
  destruct (secondaryMaterial s).
  - destruct Hcase as (_ & -> & _). apply Forall_app. split; [done|].
    by constructor.
  - destruct Hcase as (_ & -> & _). done.
Qed.

Lemma construct_inv technique0 tileRef context sc :
  inv (snd (construct technique0 tileRef context sc)) /\
  Forall preserves (updaters (fst (construct technique0 tileRef context sc))) /\
  technique (snd (construct technique0 tileRef context sc)) = technique0.
Proof.
  destruct (construct technique0 tileRef context sc) as [h s] eqn:Hc.
  cbv beta delta [construct] in Hc.
  repeat name_let Hc. simpl.
  assert (I1 : metricUnitIsPixel s1 = is_pixel (T.metricUnit (technique s1)) /\
               secondaryObjects s1 = [] /\ technique s1 = technique0)
    by (by subst s1 s0 pixel).
  assert (M5 : materials_only s1 s5).
  { subst s5 s4 s3 s2.
    repeat (eapply materials_only_trans;
            [|apply call_if_materials_only;
              first [apply updateLineWidth_materials_only
                    |apply updateOutlineWidth_materials_only
                    |apply updateDashSize_materials_only
                    |apply updateGapSize_materials_only]]).
    apply materials_only_refl. }
  assert (U6 : Forall preserves u6).
  { subst u6 u5 u4 u3 u2 u1.
    repeat (apply push_if_preserves);
      first [ apply updateMainColor_preserves
            | apply materials_only_preserves;
              first [ apply updateLineWidth_materials_only
                    | apply updateOutlineWidth_materials_only
                    | apply updateDashSize_materials_only
                    | apply updateGapSize_materials_only
                    | apply updateMainFading_materials_only ]
            | constructor ]. }
  assert (Hstart : forall s', materials_only s1 s' ->
            inv s' /\ technique s' = technique0).
  { intros s' (A1 & A2 & A3 & A4 & A5). destruct I1 as (J1 & J2 & J3).
    split; [split|congruence].
    - by rewrite A2, A1.
    - rewrite A4, J2. constructor. }
  destruct (is_defined (T.secondaryWidth technique0)).
  - repeat name_let Hc. injection Hc as <- <-. simpl.
    assert (M7 : materials_only s1 s7).
    { subst s7. eapply materials_only_trans;
        [|apply call_if_materials_only, updateSecondaryWidth_materials_only].
      subst s6. eapply materials_only_trans; [exact M5|]. by repeat split. }
    destruct (Hstart _ M7) as [Hi Ht].
    split; [exact Hi|]. split; [|exact Ht].
    subst u9 u8 u7.
    repeat (apply push_if_preserves);
      first [ apply updateSecondaryColor_preserves
            | apply materials_only_preserves;
              first [ apply updateSecondaryWidth_materials_only
                    | apply updateSecondaryFading_materials_only ]
            | exact U6 ].
  - injection Hc as <- <-. simpl.
    destruct (Hstart _ M5) as [Hi Ht].
    split; [exact Hi|]. split; [exact U6|exact Ht].
Qed.

Lemma update_steps_preserve context (h : @Handler State) s :
  Forall preserves (updaters h) -> inv s ->
  inv (snd (fst (update context h s))) /\
  updaters (fst (fst (update context h s))) = updaters h.
Proof.
  intros Hus Hs. unfold update.
  destruct (frameNumber context =? lastUpdateFrameNumber h)%Z; [done|].
  simpl. pose proof (run_updaters_preserves context _ _ Hus Hs) as H.
  destruct (run_updaters context (updaters h) s). by simpl in *.
Qed.

Lemma reachable_inv hs :
  reachable hs -> inv (snd hs) /\ Forall preserves (updaters (fst hs)).
Proof.
  induction 1 as [technique0 tileRef context sc
                 |h s tileRef srcGeometry group _ [Hi Hu]
                 |h s context _ [Hi Hu]
                 |h s tiles' _ [Hi Hu]]; simpl in *.
  - destruct (construct_inv technique0 tileRef context sc) as (A & B & _).
    by split.
  - split; [by apply createObject_preserves_inv|done].
  - destruct (update_steps_preserve context h s Hu Hi) as [A B].
    split; [exact A|by rewrite B].
  - split; [|done]. destruct Hi as [I1 I2]. by split.
Qed.

(** The unit factor in terms of the technique: 1.0 unless the metric unit
    is the pixel, and then the environment's pixel-to-world ratio, or 1.0
    when the environment has none. *)
Definition unit_factor_of (technique0 : SolidLineTechnique)
    (context : TechniqueUpdateContext) : float :=
  if is_pixel (T.metricUnit technique0)
  then match env context !! "$pixelToWorld" with
       | Some ratio => ratio
       | None => 1%float
       end
  else 1%float.

Lemma getUnitFactor_reachable hs context :
  reachable hs ->
  getUnitFactor (snd hs) context = unit_factor_of (technique (snd hs)) context.
Proof.
  intros Hreach. destruct (reachable_inv hs Hreach) as [[I1 _] _].
  unfold getUnitFactor, unit_factor_of, getPixelToWorld. rewrite I1.
  destruct (is_pixel _); [|done].
  by destruct (env context !! "$pixelToWorld").
Qed.

(** The four lengths of a line material, the other fields of a material,
    and the fields of the handler besides its main material. *)
Definition lengths (m : Material) : float * float * float * float :=
  (lineWidth m, outlineWidth m, dashSize m, gapSize m).

Definition look (m : Material)
    : Z * option float * option float * option float * string
      * option (float * float) * bool :=
  (color m, opacity m, fadeNear m, fadeFar m, caps m, clipTileSize m,
   useVertexColor m).

Definition besides_mainMaterial (s : State)
    : SolidLineTechnique * option Material * list TileObjectEntry
      * list TileObjectEntry * bool * Scene :=
  (technique s, secondaryMaterial s, mainObjects s, secondaryObjects s,
   metricUnitIsPixel s, scene s).

(** An updater that returns normally and has changed nothing, except
    perhaps lengths of the main material. *)
Definition changes_lengths_only (r : State * Completion) (s : State) : Prop :=
  r.2 = Normal /\
  look (mainMaterial r.1) = look (mainMaterial s) /\
  besides_mainMaterial r.1 = besides_mainMaterial s.

(** C6.  In every state a handler can be in, each of the width, dash-size
    and gap-size updaters leaves the evaluated technique value times the
    unit factor times 0.5 in its field of the main material, and the
    outline-width updater the value times the unit factor; the three other
    lengths of the material, its other fields and the rest of the handler
    are as before.  The unit factor is 1.0 for a technique whose metric
    unit is not the pixel, and otherwise the environment's pixel-to-world
    ratio, 1.0 when the environment has none. *)
Theorem width_updaters_scale_by_unit_factor
    (hs : @Handler State * State) (context : TechniqueUpdateContext)
    (Hreach : reachable hs) :
  let s := snd hs in
  let m := mainMaterial s in
  let unitFactor := unit_factor_of (technique s) context in
  let value p := getPropertyValue p (env context) in
  (forall v, value (T.lineWidth (technique s)) = Some v ->
     let r := updateLineWidth context s in
     lineWidth (mainMaterial r.1) = (v * unitFactor * 0.5)%float /\
     outlineWidth (mainMaterial r.1) = outlineWidth m /\
     dashSize (mainMaterial r.1) = dashSize m /\
     gapSize (mainMaterial r.1) = gapSize m /\
     changes_lengths_only r s) /\
  (forall v, value (T.dashSize (technique s)) = Some v ->
     let r := updateDashSize context s in
     dashSize (mainMaterial r.1) = (v * unitFactor * 0.5)%float /\
     lineWidth (mainMaterial r.1) = lineWidth m /\
     outlineWidth (mainMaterial r.1) = outlineWidth m /\
     gapSize (mainMaterial r.1) = gapSize m /\
     changes_lengths_only r s) /\
  (forall v, value (T.gapSize (technique s)) = Some v ->
     let r := updateGapSize context s in
     gapSize (mainMaterial r.1) = (v * unitFactor * 0.5)%float /\
     lineWidth (mainMaterial r.1) = lineWidth m /\
     outlineWidth (mainMaterial r.1) = outlineWidth m /\
     dashSize (mainMaterial r.1) = dashSize m /\
     changes_lengths_only r s) /\
  (forall v, value (T.outlineWidth (technique s)) = Some v ->
     let r := updateOutlineWidth context s in
     outlineWidth (mainMaterial r.1) = (v * unitFactor)%float /\
     lineWidth (mainMaterial r.1) = lineWidth m /\
     dashSize (mainMaterial r.1) = dashSize m /\
     gapSize (mainMaterial r.1) = gapSize m /\
     changes_lengths_only r s).
Proof.
  intros s m unitFactor value.
  pose proof (getUnitFactor_reachable hs context Hreach) as Hf.
  fold s unitFactor in Hf.
  split; [|split; [|split]]; intros v Hv; cbv zeta;
    unfold changes_lengths_only, updateLineWidth, updateDashSize,
      updateGapSize, updateOutlineWidth;
    unfold value in Hv; rewrite Hv, Hf; by repeat split.
Qed.

(** C7.  In every state a handler with a secondary material can be in, the
    secondary-width updater converts the secondary width like a line width
    (value times unit factor times 0.5) and compares it with the line width
    the main material has at that moment: if it is at most that width and
    the main material's opacity is undefined or 1, the secondary material
    gets line width 0, otherwise it gets the converted width; nothing else
    changes. *)
Theorem updateSecondaryWidth_collapses
    (hs : @Handler State * State) (context : TechniqueUpdateContext)
    (secondary : Material) (v : float)
    (Hreach : reachable hs)
    (Hsecondary : secondaryMaterial (snd hs) = Some secondary)
    (Hvalue : getPropertyValue (T.secondaryWidth (technique (snd hs)))
                (env context) = Some v) :
  let s := snd hs in
  let converted := (v * unit_factor_of (technique s) context * 0.5)%float in
  let main := mainMaterial s in
  exists applied,
    updateSecondaryWidth context s =
    (with_secondaryMaterial s (Some (with_lineWidth secondary applied)), Normal) /\
    (PrimFloat.leb converted (lineWidth main) = true ->
     opacity main = None \/
     (exists o, opacity main = Some o /\ PrimFloat.eqb o 1 = true) ->
     applied = 0%float) /\
    (PrimFloat.leb converted (lineWidth main) = false -> applied = converted) /\
    (forall o, opacity main = Some o -> PrimFloat.eqb o 1 = false ->
     applied = converted).
Proof.
  intros s converted main.
  pose proof (getUnitFactor_reachable hs context Hreach) as Hf.
  fold s in Hf, Hsecondary, Hvalue.
  unfold updateSecondaryWidth. rewrite Hsecondary, Hvalue, Hf. simpl.
  fold converted main.
  eexists. split; [reflexivity|].
  split; [|split].
  - intros Hle Hopaque. rewrite Hle.
    destruct Hopaque as [->|(o & -> & Ho)]; simpl; [done|by rewrite Ho].
  - intros Hle. by rewrite Hle.
  - intros o Ho Hne. rewrite Ho. simpl. rewrite Hne.
    by rewrite andb_false_r.
Qed.

(** The constructor registers the line-width updater before the
    secondary-width updater, so within one [update] the secondary width is
    compared with the line width of the same frame. *)
Lemma push_if_extends {A : Type} cond (x : A) l :
  exists more, push_if cond x l = l ++ more.
Proof.
  destruct cond; simpl; [by exists [x]|exists []; by rewrite app_nil_r].
Qed.

Lemma construct_registers_lineWidth_first technique0 tileRef context sc :
  isExpr (T.lineWidth technique0) || is_pixel (T.metricUnit technique0) = true ->
  is_defined (T.secondaryWidth technique0) = true ->
  isExpr (T.secondaryWidth technique0) || isExpr (T.secondaryColor technique0)
    || isExpr (T.opacity technique0) || is_pixel (T.metricUnit technique0) = true ->
  exists before between,
    updaters (fst (construct technique0 tileRef context sc)) =
    before ++ updateLineWidth :: between ++ [updateSecondaryWidth].
Proof.
  intros Hw Hs Hsw.
  destruct (construct technique0 tileRef context sc) as [h s] eqn:Hc.
  cbv beta delta [construct] in Hc.
  repeat name_let Hc. rewrite Hs in Hc. repeat name_let Hc.
  injection Hc as <- _. simpl.
  subst pixel. rewrite Hsw in Eu9. rewrite Hw in Eu2. simpl in Eu9, Eu2.
  destruct (push_if_extends (isExpr (T.outlineWidth technique0)
              || is_pixel (T.metricUnit technique0)) updateOutlineWidth u2)
    as [m3 H3]. rewrite <- Eu3 in H3.
  destruct (push_if_extends (isExpr (T.dashSize technique0)
              || is_pixel (T.metricUnit technique0)) updateDashSize u3)
    as [m4 H4]. rewrite <- Eu4 in H4.
  destruct (push_if_extends (isExpr (T.gapSize technique0)
              || is_pixel (T.metricUnit technique0)) updateGapSize u4)
    as [m5 H5]. rewrite <- Eu5 in H5.
  destruct (push_if_extends fading (updateMainFading fadingParam) u5)
    as [m6 H6]. rewrite <- Eu6 in H6.
  destruct (push_if_extends (isExpr (T.secondaryColor technique0)
              || isExpr (T.opacity technique0)) updateSecondaryColor u6)
    as [m7 H7]. rewrite <- Eu7 in H7.
  destruct (push_if_extends fading (updateSecondaryFading fadingParam) u7)
    as [m8 H8]. rewrite <- Eu8 in H8.
  exists u1, (m3 ++ m4 ++ m5 ++ m6 ++ m7 ++ m8).
  rewrite Eu9, H8, H7, H6, H5, H4, H3, Eu2.
  rewrite <- !app_assoc. reflexivity.
Qed.

(** C9.  In every state a handler can be in: a call of [createObject] on a
    handler with a secondary material makes two meshes, the main one and
    the secondary one, and appends to [secondaryObjects] an entry that
    references the main one; every entry of [secondaryObjects] references a
    mesh drawn with the main material; and the secondary-colour updater
    leaves every mesh drawn with the secondary material exactly as it was,
    any object it changes being a mesh drawn with the main material. *)
Theorem secondaryObjects_reference_main_mesh
    (hs : @Handler State * State) (Hreach : reachable hs) :
  let s := snd hs in
  (forall tileRef srcGeometry group secondary,
     secondaryMaterial s = Some secondary ->
     let mainObject := length (objects (scene s)) in
     let result := createObject tileRef srcGeometry group s in
     fst result = [mainObject; S mainObject] /\
     secondaryObjects (snd result) =
       secondaryObjects s ++ [{| object := mainObject; tile := tileRef |}] /\
     (exists o, objects (scene (snd result)) !! mainObject = Some o /\
                material o = MainMaterial) /\
     (exists o, objects (scene (snd result)) !! S mainObject = Some o /\
                material o = SecondaryMaterial)) /\
  Forall (names_main_mesh (objects (scene s))) (secondaryObjects s) /\
  (forall context r o,
     objects (scene s) !! r = Some o ->
     material o = SecondaryMaterial ->
     objects (scene (fst (updateSecondaryColor context s))) !! r = Some o) /\
  (forall context r,
     objects (scene (fst (updateSecondaryColor context s))) !! r <>
     objects (scene s) !! r ->
     exists o, objects (scene s) !! r = Some o /\ material o = MainMaterial).
Proof.
  intros s. destruct (reachable_inv hs Hreach) as [[I1 I2] _]. fold s in I1, I2.
  assert (Hcases : forall context r,
            objects (scene (fst (updateSecondaryColor context s))) !! r =
            objects (scene s) !! r \/
            exists o, objects (scene s) !! r = Some o /\ material o = MainMaterial).
  { intros context r. unfold updateSecondaryColor.
    destruct (secondaryMaterial s) as [secondary|]; [|by left].
    simpl. destruct (negb _); [|by left].
    rewrite TechniqueHandlerCommon.show_on_visible_tiles_lookup.
    destruct (TechniqueHandlerCommon.on_visible_tile _ _ _ _) eqn:Hon;
      [|by left].
    right. apply existsb_exists in Hon. destruct Hon as (entry & Hin & Hcond).
    apply andb_true_iff in Hcond. destruct Hcond as [Hobj _].
    apply Nat.eqb_eq in Hobj. subst r.
    rewrite Forall_forall in I2. apply I2. by apply list_elem_of_In. }
  split; [|split; [exact I2|split]].
  - intros tileRef srcGeometry group secondary Hsec mainObject result.
    destruct (createObject_effect tileRef srcGeometry group s)
      as (_ & _ & _ & N & Hcase).
    rewrite Hsec in Hcase. destruct Hcase as (Hrefs & Hentries & _ & o & Ho & Hm & _).
    split; [exact Hrefs|]. split; [exact Hentries|]. split; [exact N|].
    by exists o.
  - intros context r o Ho Hm.
    destruct (Hcases context r) as [Heq|(o' & Ho' & Hm')].
    + by rewrite Heq.
    + congruence.
  - intros context r Hdiff.
    destruct (Hcases context r) as [Heq|Hmain]; [done|exact Hmain].
Qed.

End Handler.

(** *** A line with a casing, widths in pixels

    Expressions are names of environment variables.  The material factory
    and the colour helper write the technique's opacity into the material. *)
Definition lookup_expression (e : string) (environment : gmap string float) : float :=
  default nan (environment !! e).

Definition no_interpolation (i : Empty_set) (environment : gmap string float) : float :=
  match i with end.

Definition opacity_of (technique0 : T.t string Empty_set)
    (environment : gmap string float) : option float :=
  match T.opacity technique0 with
  | None => Some 1%float
  | p => getPropertyValue lookup_expression no_interpolation p environment
  end.

Definition line_material (technique0 : T.t string Empty_set)
    (environment : gmap string float) : Material :=
  {| color := 0; opacity := opacity_of technique0 environment;
     lineWidth := 1; outlineWidth := 0; dashSize := 1; gapSize := 1;
     fadeNear := None; fadeFar := None; caps := "Round";
     clipTileSize := None; useVertexColor := false |}.

Definition apply_opacity (m : Material) (technique0 : T.t string Empty_set)
    (_ : option (T.Property string Empty_set))
    (environment : gmap string float) : Material :=
  with_opacity m (opacity_of technique0 environment).

Definition cased_line (line_opacity : T.Property string Empty_set)
    : T.t string Empty_set :=
  {| T.color := Some (T.Constant 255);
     T.opacity := Some line_opacity;
     T.lineWidth := Some (T.Constant 10);
     T.outlineWidth := Some (T.Constant 4);
     T.dashSize := Some (T.Constant 6);
     T.gapSize := Some (T.Constant 2);
     T.fadeNear := None;
     T.fadeFar := None;
     T.secondaryWidth := Some (T.Constant 8);
     T.secondaryColor := Some (T.Constant 0);
     T.secondaryCaps := None;
     T.secondaryRenderOrder := None;
     T.renderOrder := 5;
     T.metricUnit := Some "Pixel";
     T.clipping := Some false |}.

Definition street_scene : Scene :=
  {| objects := [];
     tiles := fun _ => TechniqueHandlerCommon.tile_seen_in 1;
     tileObjects := ∅ |}.

Definition frame (n : Z) (line_opacity : float) : TechniqueUpdateContext :=
  {| env := <["$pixelToWorld" := 0.02%float]> (<["opacity" := line_opacity]> ∅);
     frameNumber := n;
     viewRanges := {| near := 0; far := 0; minimum := 0; maximum := 0 |};
     projection := Planar |}.

Definition construct_line (technique0 : T.t string Empty_set)
    (context : TechniqueUpdateContext) : @Handler State * State :=
  construct lookup_expression no_interpolation line_material apply_opacity
    (fun distance _ => distance) (-1) (-1) technique0 0 context street_scene.

Lemma construct_line_reachable technique0 context :
  reachable lookup_expression no_interpolation line_material apply_opacity
    (fun distance _ => distance) (-1) (-1) (construct_line technique0 context).
Proof. apply reachable_construct. Qed.

Definition some_geometry : Geometry :=
  {| uuid := 1; hasColor := false; groups := [] |}.

Definition some_group : Group.t :=
  {| Group.start := 0; Group.count := 6; Group.technique := 0;
     Group.createdOffsets := []; Group.renderOrderOffset := None |}.

(** lineWidth = 10 pixels at a ratio of 0.02: the material gets 0.1, at
    construction and at every update. *)
Example pixel_line_width_at_construction :
  lineWidth (mainMaterial (snd (construct_line (cased_line (T.Constant 1)) (frame 0 1))))
  = 0.1%float.
Proof. vm_compute. reflexivity. Qed.

Example pixel_line_is_dynamic :
  length (updaters (fst (construct_line (cased_line (T.Constant 1)) (frame 0 1)))) = 5.
Proof. vm_compute. reflexivity. Qed.

Lemma width_updaters_scale_by_unit_factor_witness :
  let s := snd (construct_line (cased_line (T.Constant 1)) (frame 0 1)) in
  lineWidth (mainMaterial
    (fst (updateLineWidth lookup_expression no_interpolation (frame 1 1) s)))
  = 0.1%float /\
  dashSize (mainMaterial
    (fst (updateDashSize lookup_expression no_interpolation (frame 1 1) s)))
  = 0.06%float /\
  gapSize (mainMaterial
    (fst (updateGapSize lookup_expression no_interpolation (frame 1 1) s)))
  = 0.02%float /\
  outlineWidth (mainMaterial
    (fst (updateOutlineWidth lookup_expression no_interpolation (frame 1 1) s)))
  = 0.08%float.
Proof.
  pose proof (width_updaters_scale_by_unit_factor _ _ _ _ _ _ _ _ (frame 1 1)
                (construct_line_reachable (cased_line (T.Constant 1)) (frame 0 1)))
    as H.
  cbv zeta in H. destruct H as (Hline & Hdash & Hgap & Houtline).
  destruct (Hline 10%float ltac:(vm_compute; reflexivity)) as (Hl & _).
  destruct (Hdash 6%float ltac:(vm_compute; reflexivity)) as (Hd & _).
  destruct (Hgap 2%float ltac:(vm_compute; reflexivity)) as (Hg & _).
  destruct (Houtline 4%float ltac:(vm_compute; reflexivity)) as (Ho & _).
  cbv zeta. split; [|split; [|split]].
  - rewrite Hl. vm_compute. reflexivity.
  - rewrite Hd. vm_compute. reflexivity.
  - rewrite Hg. vm_compute. reflexivity.
  - rewrite Ho. vm_compute. reflexivity.
Defined.

(** Main width 0.1, secondary width converted to 0.08: collapsed to 0 at
    full opacity, kept at opacity 0.5. *)
Example secondary_width_at_full_opacity :
  lineWidth <$> secondaryMaterial
    (snd (construct_line (cased_line (T.Constant 1)) (frame 0 1)))
  = Some 0%float.
Proof. vm_compute. reflexivity. Qed.

Example secondary_width_at_half_opacity :
  lineWidth <$> secondaryMaterial
    (snd (construct_line (cased_line (T.Constant 0.5)) (frame 0 1)))
  = Some 0.08%float.
Proof. vm_compute. reflexivity. Qed.

Lemma updateSecondaryWidth_collapses_witness :
  (lineWidth <$> secondaryMaterial
     (fst (updateSecondaryWidth lookup_expression no_interpolation (frame 1 1)
             (snd (construct_line (cased_line (T.Constant 1)) (frame 0 1)))))
   = Some 0%float) /\
  (lineWidth <$> secondaryMaterial
     (fst (updateSecondaryWidth lookup_expression no_interpolation (frame 1 1)
             (snd (construct_line (cased_line (T.Constant 0.5)) (frame 0 1)))))
   = Some 0.08%float).
Proof.
  split.
  - destruct (updateSecondaryWidth_collapses _ _ _ _ _ _ _
                (construct_line (cased_line (T.Constant 1)) (frame 0 1))
                (frame 1 1) _ 8%float
                (construct_line_reachable _ _)
                ltac:(vm_compute; reflexivity) ltac:(vm_compute; reflexivity))
      as (applied & Hrun & Hcollapse & _).
    rewrite Hrun. cbn [fst secondaryMaterial with_secondaryMaterial fmap option_fmap option_map].
    rewrite Hcollapse; [vm_compute; reflexivity|vm_compute; reflexivity|].
    right. exists 1%float. split; vm_compute; reflexivity.
  - destruct (updateSecondaryWidth_collapses _ _ _ _ _ _ _
                (construct_line (cased_line (T.Constant 0.5)) (frame 0 1))
                (frame 1 1) _ 8%float
                (construct_line_reachable _ _)
                ltac:(vm_compute; reflexivity) ltac:(vm_compute; reflexivity))
      as (applied & Hrun & _ & _ & Hkeep).
    rewrite Hrun. cbn [fst secondaryMaterial with_secondaryMaterial fmap option_fmap option_map].
    rewrite (Hkeep 0.5%float ltac:(vm_compute; reflexivity)
               ltac:(vm_compute; reflexivity)).
    vm_compute. reflexivity.
Defined.

(** One tile, one group, opacity driven by the environment: when the
    opacity goes to zero the secondary-colour updater hides the main mesh
    and leaves the casing mesh visible. *)
Definition line_with_objects : @Handler State * State :=
  let hs := construct_line (cased_line (T.Expression "opacity")) (frame 0 1) in
  (fst hs, snd (createObject 0 some_geometry some_group (snd hs))).

Example createObject_registers_main_mesh_twice :
  mainObjects (snd line_with_objects) = [{| object := 0; tile := 0 |}] /\
  secondaryObjects (snd line_with_objects) = [{| object := 0; tile := 0 |}] /\
  material <$> objects (scene (snd line_with_objects)) =
    [MainMaterial; SecondaryMaterial].
Proof. repeat split; vm_compute; reflexivity. Qed.

Example updateSecondaryColor_hides_main_mesh :
  (fun o => (material o, visible o)) <$>
    objects (scene (fst (updateSecondaryColor apply_opacity (frame 1 0)
                           (snd line_with_objects))))
  = [(MainMaterial, false); (SecondaryMaterial, true)].
Proof. vm_compute. reflexivity. Qed.

Lemma secondaryObjects_reference_main_mesh_witness :
  secondaryObjects
    (snd (createObject 0 some_geometry some_group
            (snd (construct_line (cased_line (T.Expression "opacity")) (frame 0 1)))))
  = [{| object := 0; tile := 0 |}] /\
  (forall o, objects (scene (snd line_with_objects)) !! 1 = Some o ->
     material o = SecondaryMaterial ->
     objects (scene (fst (updateSecondaryColor apply_opacity (frame 1 0)
                            (snd line_with_objects)))) !! 1 = Some o).
Proof.
  split.
  - pose proof (secondaryObjects_reference_main_mesh _ _ _ _ _ _ _ _
                  (construct_line_reachable (cased_line (T.Expression "opacity"))
                     (frame 0 1))) as H.
    cbv zeta in H. destruct H as (Hcreate & _).
    destruct (Hcreate 0 some_geometry some_group _
                ltac:(vm_compute; reflexivity)) as (_ & Hentries & _).
    rewrite Hentries. vm_compute. reflexivity.
  - pose proof (secondaryObjects_reference_main_mesh _ _ _ _ _ _ _ line_with_objects
                  (reachable_createObject _ _ _ _ _ _ _ _ _ 0 some_geometry some_group
                     (construct_line_reachable (cased_line (T.Expression "opacity"))
                        (frame 0 1)))) as H.
    cbv zeta in H. destruct H as (_ & _ & Hkept & _).
    intros o Ho Hm. exact (Hkept (frame 1 0) 1 o Ho Hm).
Defined.

(** ** What [createObject] builds, and what the constructor registers *)

Ltac next_let H :=
  lazymatch type of H with
  | (let x := ?v in @?b x) = ?rhs =>
      let y := fresh x in
      let E := fresh "E" y in
      pose (y := v);
      change (b y = rhs) in H; cbv beta in H;
      assert (E : y = v) by reflexivity;
      clearbody y
  end.

(** Computing with the assignments of a handler state. *)
Ltac assign H :=
  cbv beta iota zeta delta
    [with_scene with_objects with_mainObjects with_secondaryObjects
     with_mainMaterial push_tile_object
     technique mainMaterial secondaryMaterial mainObjects secondaryObjects
     metricUnitIsPixel scene objects tiles tileObjects
     installTileSizeUpdaterIfNeeded] in H.

Section Built.
Context {Expr Interpolation : Type}.
Local Abbreviation State := (@State Expr Interpolation).

Lemma alter_last {A} (f : A -> A) (l : list A) x :
  alter f (length l) (l ++ [x]) = l ++ [f x].
Proof.
  replace (length l) with (length l + 0) by lia.
  by rewrite alter_app_r.
Qed.

Lemma alter_last_but_one {A} (f : A -> A) (l : list A) x y :
  alter f (length l) (l ++ [x; y]) = l ++ [f x; y].
Proof.
  replace (length l) with (length l + 0) by lia.
  by rewrite alter_app_r.
Qed.

(** [tile.projection.type === Planar && technique.clipping !== false] *)
Definition clips (s : State) (tileRef : nat) : bool :=
  negb (bool_decide (T.clipping (technique s) = Some false))
  && is_planar (tileProjection (tiles (scene s) tileRef)).

(** X3.  [createObject] appends to the scene a main mesh and, when the
    handler has a secondary material, a secondary mesh after it, both on
    the buffer geometry made for the group, both visible; it returns their
    references and pushes them, in this order, onto the objects of the
    tile.  The main mesh has the render order of the technique, the
    secondary mesh [secondaryRenderOrder] or, without one, the render order
    less 0.0000001.  On a planar tile, unless the technique sets
    [clipping] to [false], the main mesh carries the clip-size callback
    twice (the updater is installed before and after the mesh is
    registered) and the secondary mesh once, each with the size of the
    tile's bounding box; otherwise neither carries a callback.  Objects
    that existed are left as they were. *)
Theorem createObject_builds_meshes
    (tileRef : nat) (srcGeometry : Geometry) (group : Group.t) (s : State) :
  let main := length (objects (scene s)) in
  let buffer := createGenericBufferGeometry srcGeometry group in
  let size := boundingBoxSize (tiles (scene s) tileRef) in
  let mainMesh :=
    {| geometry := buffer; material := MainMaterial; visible := true;
       renderOrder := T.renderOrder (technique s);
       onBeforeRender :=
         if clips s tileRef
         then [(MainMaterial, size); (MainMaterial, size)] else [] |} in
  let secondaryMesh :=
    {| geometry := buffer; material := SecondaryMaterial; visible := true;
       renderOrder :=
         match T.secondaryRenderOrder (technique s) with
         | Some v => v
         | None => (T.renderOrder (technique s) - 0.0000001)%float
         end;
       onBeforeRender :=
         if clips s tileRef then [(SecondaryMaterial, size)] else [] |} in
  let listed := default [] (tileObjects (scene s) !! tileRef) in
  let r := createObject tileRef srcGeometry group s in
  match secondaryMaterial s with
  | Some _ =>
      r.1 = [main; S main] /\
      objects (scene r.2) = objects (scene s) ++ [mainMesh; secondaryMesh] /\
      tileObjects (scene r.2) =
        <[tileRef := listed ++ [main; S main]]> (tileObjects (scene s))
  | None =>
      r.1 = [main] /\
      objects (scene r.2) = objects (scene s) ++ [mainMesh] /\
      tileObjects (scene r.2) =
        <[tileRef := listed ++ [main]]> (tileObjects (scene s))
  end.
Proof.
  destruct s as [t mm sm mo so px [os ts tos]].
  cbv zeta. unfold clips. cbn [technique scene objects tiles tileObjects
                                secondaryMaterial].
  set (clipped := negb (bool_decide (T.clipping t = Some false))
                  && is_planar (tileProjection (ts tileRef))).
  destruct (createObject tileRef srcGeometry group _) as [refs s'] eqn:Hrun.
  cbv beta delta [createObject] in Hrun.
  next_let Hrun. rewrite <- EbufferGeometry. clear EbufferGeometry.
  cbv beta iota delta [new_mesh] in Hrun.
  next_let Hrun. assign Es1. subst s1.
  next_let Hrun. assign Es2. fold clipped in Es2. rewrite alter_last in Es2.
  next_let Hrun. rewrite Es2 in Es3. clear Es2 s2.
  assert (Es3' : s3 =
            {| technique := t; mainMaterial := mm; secondaryMaterial := sm;
               mainObjects := mo; secondaryObjects := so;
               metricUnitIsPixel := px;
               scene :=
                 {| objects :=
                      os ++ [{| geometry := bufferGeometry;
                                material := MainMaterial; visible := true;
                                renderOrder := T.renderOrder t;
                                onBeforeRender :=
                                  if clipped
                                  then [(MainMaterial, boundingBoxSize (ts tileRef))]
                                  else [] |}];
                    tiles := ts; tileObjects := tos |} |}).
  { rewrite Es3. destruct clipped; assign Es3; cbv beta iota zeta delta
      [with_scene with_objects technique scene objects tiles tileObjects];
      by rewrite alter_last. }
  clear Es3. subst s3.
  next_let Hrun. assign Es4. subst s4.
  next_let Hrun. assign Es5. subst s5.
  next_let Hrun. assign Es6. fold clipped in Es6. rewrite alter_last in Es6.
  next_let Hrun. rewrite Es6 in Es7. clear Es6 s6.
  assert (Es7' : secondaryMaterial s7 = sm /\ technique s7 = t /\
            scene s7 =
              {| objects :=
                   os ++ [{| geometry := bufferGeometry;
                             material := MainMaterial; visible := true;
                             renderOrder := T.renderOrder t;
                             onBeforeRender :=
                               if clipped
                               then [(MainMaterial, boundingBoxSize (ts tileRef));
                                     (MainMaterial, boundingBoxSize (ts tileRef))]
                               else [] |}];
                 tiles := ts;
                 tileObjects :=
                   <[tileRef := default [] (tos !! tileRef) ++ [length os]]> tos |}).
  { rewrite Es7. by destruct clipped, (hasColorAttribute bufferGeometry). }
  clear Es7. destruct Es7' as (Hsm & Ht & Hsc).
  rewrite Hsm in Hrun. destruct sm as [secondary|].
  - repeat next_let Hrun. injection Hrun as <- <-.
    cbn [fst snd]. rewrite Hsc in *. cbn [objects] in *.
    rewrite length_app in *. simpl length in *.
    replace (length os + 1) with (S (length os)) in * by lia.
    split; [done|].
    assert (Hs9 : technique s9 = t /\
              objects (scene s9) =
                (os ++ [{| geometry := bufferGeometry;
                           material := MainMaterial; visible := true;
                           renderOrder := T.renderOrder t;
                           onBeforeRender :=
                             if clipped
                             then [(MainMaterial, boundingBoxSize (ts tileRef));
                                   (MainMaterial, boundingBoxSize (ts tileRef))]
                             else [] |}]) ++
                [{| geometry := bufferGeometry;
                    material := SecondaryMaterial; visible := true;
                    renderOrder := 0;
                    onBeforeRender :=
                      if clipped
                      then [(SecondaryMaterial, boundingBoxSize (ts tileRef))]
                      else [] |}] /\
              tileObjects (scene s9) =
                <[tileRef := default [] (tos !! tileRef) ++ [length os]]> tos).
    { rewrite Es9, Es8. unfold installTileSizeUpdaterIfNeeded.
      cbn [with_scene with_objects technique scene tiles objects tileObjects].
      rewrite ?Ht, ?Hsc. cbn [tiles objects tileObjects]. fold clipped.
      destruct clipped; cbn [with_scene with_objects technique scene tiles
                               objects tileObjects]; [|done].
      split; [done|]. split; [|done].
      replace (S (length os)) with
        (length (os ++ [{| geometry := bufferGeometry;
                           material := MainMaterial; visible := true;
                           renderOrder := T.renderOrder t;
                           onBeforeRender :=
                             [(MainMaterial, boundingBoxSize (ts tileRef));
                              (MainMaterial, boundingBoxSize (ts tileRef))] |}]))
        by (rewrite length_app; simpl; lia).
      by rewrite alter_last. }
    destruct Hs9 as (Ht9 & Ho9 & Hto9).
    rewrite Ht9 in Eorder.
    assert (Hs12 : scene s12 =
              {| objects := alter (set_renderOrder order) (S (length os))
                              (objects (scene s9));
                 tiles := tiles (scene s9);
                 tileObjects :=
                   <[tileRef := default [] (tileObjects (scene s9) !! tileRef)
                                ++ [S (length os)]]> (tileObjects (scene s9)) |})
      by (by rewrite Es12, Es11, Es10).
    rewrite Hs12. cbn [objects tileObjects]. rewrite Ho9, Hto9.
    split.
    + replace (S (length os)) with
        (length (os ++ [{| geometry := bufferGeometry;
                           material := MainMaterial; visible := true;
                           renderOrder := T.renderOrder t;
                           onBeforeRender :=
                             if clipped
                             then [(MainMaterial, boundingBoxSize (ts tileRef));
                                   (MainMaterial, boundingBoxSize (ts tileRef))]
                             else [] |}]))
        by (rewrite length_app; simpl; lia).
      rewrite alter_last, <- app_assoc. simpl. by rewrite Eorder.
    + rewrite lookup_insert_eq. simpl. rewrite insert_insert_eq.
      by rewrite <- app_assoc.
  - injection Hrun as <- <-. cbn [fst snd]. rewrite Hsc. done.
Qed.

End Built.

Section Registered.
Context {Expr Interpolation : Type}.

Local Abbreviation Property := (T.Property Expr Interpolation).
Local Abbreviation SolidLineTechnique := (T.t Expr Interpolation).
Local Abbreviation State := (@State Expr Interpolation).

Variable evaluate : Expr -> gmap string float -> float.
Variable interpolate : Interpolation -> gmap string float -> float.
Variable createMaterial : SolidLineTechnique -> gmap string float -> Material.
Variable applyBaseColorToMaterial :
  Material -> SolidLineTechnique -> option Property -> gmap string float ->
  Material.
Variable cameraToWorldDistance : float -> ViewRanges -> float.
Variable DEFAULT_FADE_NEAR : float.
Variable DEFAULT_FADE_FAR : float.

Local Abbreviation construct_ :=
  (construct evaluate interpolate createMaterial applyBaseColorToMaterial
     cameraToWorldDistance DEFAULT_FADE_NEAR DEFAULT_FADE_FAR).
Local Abbreviation getFadingParams_ :=
  (getFadingParams evaluate interpolate DEFAULT_FADE_NEAR DEFAULT_FADE_FAR).
Local Abbreviation isFadingFeatureEnabled_ :=
  (isFadingFeatureEnabled DEFAULT_FADE_NEAR DEFAULT_FADE_FAR).
Local Abbreviation updateFadingParams_ :=
  (updateFadingParams cameraToWorldDistance).

(** All updaters a solid-line handler may register, in the order in which
    the constructor comes to them. *)
Definition all_updaters (fadingParam : FadingParameters.t)
    : list (@TechniqueUpdater State) :=
  [updateMainColor applyBaseColorToMaterial;
   updateLineWidth evaluate interpolate;
   updateOutlineWidth evaluate interpolate;
   updateDashSize evaluate interpolate;
   updateGapSize evaluate interpolate;
   updateMainFading cameraToWorldDistance fadingParam;
   updateSecondaryColor applyBaseColorToMaterial;
   updateSecondaryFading cameraToWorldDistance fadingParam;
   updateSecondaryWidth evaluate interpolate].

(** Does the constructor register any updater for the technique? *)
Definition needs_updates (technique0 : SolidLineTechnique)
    (environment : gmap string float) : bool :=
  let pixel := is_pixel (T.metricUnit technique0) in
  let fading := isFadingFeatureEnabled_ (getFadingParams_ technique0 environment) in
  isExpr (T.color technique0) || isExpr (T.opacity technique0)
  || isExpr (T.lineWidth technique0) || isExpr (T.outlineWidth technique0)
  || isExpr (T.dashSize technique0) || isExpr (T.gapSize technique0)
  || pixel || fading
  || is_defined (T.secondaryWidth technique0)
     && (isExpr (T.secondaryColor technique0)
         || isExpr (T.secondaryWidth technique0)).

Lemma push_if_sublist {A} cond (x : A) l l' :
  l `sublist_of` l' -> push_if cond x l `sublist_of` l' ++ [x].
Proof.
  intros H. unfold push_if. destruct cond.
  - by apply sublist_app.
  - by apply sublist_inserts_r.
Qed.

Lemma isDynamic_push_if cond (u : @TechniqueUpdater State) us :
  isDynamic (create (push_if cond u us)) = cond || isDynamic (create us).
Proof.
  unfold isDynamic, push_if. simpl. destruct cond; simpl; [|done].
  rewrite length_app. simpl. by destruct (length us).
Qed.

(** X4.  The constructor registers its updaters in one fixed order: colour,
    line width, outline width, dash size, gap size, fading of the main
    material, then secondary colour, secondary fading and, last, secondary
    width; whatever is registered is a part of this list, in this order.
    The handler is dynamic exactly when the technique has an expression
    among the properties read, uses the pixel as metric unit, or has
    fading enabled; it starts shareable and with no frame applied. *)
Theorem construct_registers_updaters_in_order
    (technique0 : SolidLineTechnique) (tileRef : nat)
    (context : TechniqueUpdateContext) (sc : Scene) :
  let h := (construct_ technique0 tileRef context sc).1 in
  updaters h `sublist_of` all_updaters (getFadingParams_ technique0 (env context)) /\
  isDynamic h = needs_updates technique0 (env context) /\
  isShareableAcrossTiles h = true /\
  lastUpdateFrameNumber h = (-1)%Z.
Proof.
  intros h. unfold h. clear h.
  destruct (construct_ technique0 tileRef context sc) as [h s] eqn:Hc.
  cbv beta delta [construct] in Hc.
  repeat next_let Hc.
  assert (S1 : u1 `sublist_of` [] ++ [updateMainColor applyBaseColorToMaterial])
    by (rewrite Eu1; by apply push_if_sublist).
  assert (S2 : u2 `sublist_of` _) by (rewrite Eu2; apply push_if_sublist, S1).
  assert (S3 : u3 `sublist_of` _) by (rewrite Eu3; apply push_if_sublist, S2).
  assert (S4 : u4 `sublist_of` _) by (rewrite Eu4; apply push_if_sublist, S3).
  assert (S5 : u5 `sublist_of` _) by (rewrite Eu5; apply push_if_sublist, S4).
  assert (S6 : u6 `sublist_of` _) by (rewrite Eu6; apply push_if_sublist, S5).
  assert (D6 : isDynamic (create u6) =
               fading || (isExpr (T.gapSize technique0) || pixel)
               || (isExpr (T.dashSize technique0) || pixel)
               || (isExpr (T.outlineWidth technique0) || pixel)
               || (isExpr (T.lineWidth technique0) || pixel)
               || (isExpr (T.color technique0) || isExpr (T.opacity technique0))).
  { rewrite Eu6, Eu5, Eu4, Eu3, Eu2, Eu1, !isDynamic_push_if.
    unfold isDynamic. simpl. by rewrite !orb_false_r, !orb_assoc. }
  unfold needs_updates. cbv zeta.
  rewrite <- Eenvironment, <- EfadingParam, <- Efading, <- Epixel.
  destruct (is_defined (T.secondaryWidth technique0)) eqn:Hsecondary.
  - repeat next_let Hc. injection Hc as <- _. cbn [fst].
    assert (S7 : u7 `sublist_of` _) by (rewrite Eu7; apply push_if_sublist, S6).
    assert (S8 : u8 `sublist_of` _) by (rewrite Eu8; apply push_if_sublist, S7).
    assert (S9 : u9 `sublist_of` _) by (rewrite Eu9; apply push_if_sublist, S8).
    split; [exact S9|]. split; [|done].
    rewrite Eu9, Eu8, Eu7, !isDynamic_push_if, D6.
    btauto.
  - injection Hc as <- _. cbn [fst].
    split.
    { exact (sublist_inserts_r
               [updateSecondaryColor applyBaseColorToMaterial;
                updateSecondaryFading cameraToWorldDistance fadingParam;
                updateSecondaryWidth evaluate interpolate] _ _ S6). }
    split; [|done].
    rewrite D6.
    btauto.
Qed.


(** The fade distance the technique asks for, or the default that stands
    for none. *)
Definition requested (p : option Property) (fallback : float)
    (environment : gmap string float) : float :=
  match p with
  | Some (T.Constant v) => v
  | Some (T.Interpolated i) => interpolate i environment
  | Some (T.Expression e) => evaluate e environment
  | None => fallback
  end.

(** X5.  A technique that sets neither [fadeNear] nor [fadeFar] has fading
    disabled, so no fading updater is registered for it.  The fading
    parameters of a technique always hold both distances, a distance the
    technique does not set being the default that stands for none; so the
    fading updater, whenever it runs, writes both distances of the
    material, and it writes the default converted from camera to world
    distance like any other value. *)
Theorem fading_defaults_are_converted
    (technique0 : SolidLineTechnique) (environment : gmap string float)
    (Hnear : PrimFloat.eqb DEFAULT_FADE_NEAR DEFAULT_FADE_NEAR = true)
    (Hfar : PrimFloat.eqb DEFAULT_FADE_FAR DEFAULT_FADE_FAR = true) :
  let p := getFadingParams_ technique0 environment in
  (T.fadeNear technique0 = None -> T.fadeFar technique0 = None ->
   isFadingFeatureEnabled_ p = false) /\
  (forall m context,
     fadeNear (updateFadingParams_ m p context) =
       Some (cameraToWorldDistance
               (requested (T.fadeNear technique0) DEFAULT_FADE_NEAR environment)
               (viewRanges context)) /\
     fadeFar (updateFadingParams_ m p context) =
       Some (cameraToWorldDistance
               (requested (T.fadeFar technique0) DEFAULT_FADE_FAR environment)
               (viewRanges context)) /\
     opacity (updateFadingParams_ m p context) = opacity m /\
     lineWidth (updateFadingParams_ m p context) = lineWidth m /\
     color (updateFadingParams_ m p context) = color m /\
     outlineWidth (updateFadingParams_ m p context) = outlineWidth m /\
     dashSize (updateFadingParams_ m p context) = dashSize m /\
     gapSize (updateFadingParams_ m p context) = gapSize m /\
     caps (updateFadingParams_ m p context) = caps m /\
     clipTileSize (updateFadingParams_ m p context) = clipTileSize m /\
     useVertexColor (updateFadingParams_ m p context) = useVertexColor m).
Proof.
  intros p. split.
  - intros Hn Hf. unfold p, isFadingFeatureEnabled, getFadingParams.
    rewrite Hn, Hf. simpl. by rewrite Hnear, Hfar.
  - intros m context. unfold p, updateFadingParams, getFadingParams, requested.
    simpl.
    destruct (T.fadeNear technique0) as [[v|i|e]|],
      (T.fadeFar technique0) as [[v'|i'|e']|]; by repeat split.
Qed.

End Registered.

Lemma fading_defaults_are_converted_witness :
  isFadingFeatureEnabled (-1) (-1)
    (getFadingParams lookup_expression no_interpolation (-1) (-1)
       (cased_line (T.Constant 1)) ∅) = false.
Proof.
  destruct (fading_defaults_are_converted lookup_expression no_interpolation
              (fun distance _ => distance) (-1) (-1)
              (cased_line (T.Constant 1)) ∅
              ltac:(vm_compute; reflexivity) ltac:(vm_compute; reflexivity))
    as [Hdisabled _].
  apply Hdisabled; reflexivity.
Defined.

(** *** The assertions of the updaters *)

Section Assertions.
Context {Expr Interpolation : Type}.

Local Abbreviation Property := (T.Property Expr Interpolation).
Local Abbreviation SolidLineTechnique := (T.t Expr Interpolation).
Local Abbreviation State := (@State Expr Interpolation).

Variable evaluate : Expr -> gmap string float -> float.
Variable interpolate : Interpolation -> gmap string float -> float.
Variable createMaterial : SolidLineTechnique -> gmap string float -> Material.
Variable applyBaseColorToMaterial :
  Material -> SolidLineTechnique -> option Property -> gmap string float ->
  Material.
Variable cameraToWorldDistance : float -> ViewRanges -> float.
Variable DEFAULT_FADE_NEAR : float.
Variable DEFAULT_FADE_FAR : float.

Local Abbreviation construct_ :=
  (construct evaluate interpolate createMaterial applyBaseColorToMaterial
     cameraToWorldDistance DEFAULT_FADE_NEAR DEFAULT_FADE_FAR).
Local Abbreviation reachable_ :=
  (reachable evaluate interpolate createMaterial applyBaseColorToMaterial
     cameraToWorldDistance DEFAULT_FADE_NEAR DEFAULT_FADE_FAR).

(** An updater that returns normally and leaves a secondary material in
    place, in every state that has a secondary material if [secondary] is
    set, and in every state whatever otherwise. *)
Definition asserts_hold (secondary : bool) (u : @TechniqueUpdater State) : Prop :=
  forall context s,
    (secondary = true -> is_Some (secondaryMaterial s)) ->
    (u context s).2 = Normal /\
    (is_Some (secondaryMaterial s) -> is_Some (secondaryMaterial (u context s).1)).

Definition guarded (hs : @Handler State * State) : Prop :=
  exists secondary,
    (secondary = true -> is_Some (secondaryMaterial hs.2)) /\
    Forall (asserts_hold secondary) (updaters hs.1).

Lemma asserts_hold_materials_only secondary (u : @TechniqueUpdater State) :
  (forall context s, (u context s).2 = Normal /\
                     secondaryMaterial (u context s).1 = secondaryMaterial s) ->
  asserts_hold secondary u.
Proof.
  intros Hu context s _. destruct (Hu context s) as [-> ->]. done.
Qed.

Lemma updateMainColor_asserts secondary :
  asserts_hold secondary (updateMainColor applyBaseColorToMaterial).
Proof.
  apply asserts_hold_materials_only. intros context s.
  unfold updateMainColor.
  by destruct (TechniqueHandlerCommon.updateBaseColor _ _ _ _ _ _).
Qed.

Lemma updateSecondaryFading_asserts secondary p :
  asserts_hold secondary (updateSecondaryFading cameraToWorldDistance p).
Proof.
  intros context s _. split; [done|]. simpl. intros [m ->]. by eexists.
Qed.

Lemma updateSecondaryColor_asserts :
  asserts_hold true (updateSecondaryColor applyBaseColorToMaterial).
Proof.
  intros context s Hs. destruct (Hs eq_refl) as [m Hm].
  unfold updateSecondaryColor. rewrite Hm. simpl. split; [done|by eexists].
Qed.

Lemma updateSecondaryWidth_asserts :
  asserts_hold true (updateSecondaryWidth evaluate interpolate).
Proof.
  intros context s Hs. destruct (Hs eq_refl) as [m Hm].
  unfold updateSecondaryWidth. rewrite Hm. simpl. split; [done|by eexists].
Qed.

Lemma push_if_asserts secondary cond u us :
  asserts_hold secondary u -> Forall (asserts_hold secondary) us ->
  Forall (asserts_hold secondary) (push_if cond u us).
Proof.
  intros Hu Hus. unfold push_if. destruct cond; [|done].
  apply Forall_app. split; [done|]. by constructor.
Qed.

Lemma run_updaters_asserts secondary context us s :
  Forall (asserts_hold secondary) us ->
  (secondary = true -> is_Some (secondaryMaterial s)) ->
  (run_updaters context us s).2 = Normal /\
  (is_Some (secondaryMaterial s) ->
   is_Some (secondaryMaterial (run_updaters context us s).1)).
Proof.
  intros Hus. revert s. induction Hus as [|u us Hu _ IH]; intros s Hs; simpl.
  - done.
  - destruct (Hu context s Hs) as [Hc Hm].
    destruct (u context s) as [s1 c]. simpl in *. subst c.
    destruct (IH s1) as [Hc' Hm']; [by intros H; apply Hm, Hs|].
    split; [done|]. intros H. by apply Hm', Hm.
Qed.

Lemma construct_guarded technique0 tileRef context sc :
  guarded (construct_ technique0 tileRef context sc).
Proof.
  unfold construct.
  set (fadingParam := getFadingParams _ _ _ _ _ _).
  assert (Hsix : forall secondary,
            Forall (asserts_hold secondary)
              (push_if (isFadingFeatureEnabled DEFAULT_FADE_NEAR DEFAULT_FADE_FAR
                          fadingParam)
                 (updateMainFading cameraToWorldDistance fadingParam)
              (push_if (isExpr (T.gapSize technique0)
                        || is_pixel (T.metricUnit technique0))
                 (updateGapSize evaluate interpolate)
              (push_if (isExpr (T.dashSize technique0)
                        || is_pixel (T.metricUnit technique0))
                 (updateDashSize evaluate interpolate)
              (push_if (isExpr (T.outlineWidth technique0)
                        || is_pixel (T.metricUnit technique0))
                 (updateOutlineWidth evaluate interpolate)
              (push_if (isExpr (T.lineWidth technique0)
                        || is_pixel (T.metricUnit technique0))
                 (updateLineWidth evaluate interpolate)
              (push_if (isExpr (T.color technique0)
                        || isExpr (T.opacity technique0))
                 (updateMainColor applyBaseColorToMaterial) []))))))).
  { intros secondary.
    repeat (apply push_if_asserts;
            [first [apply updateMainColor_asserts
                   |by apply asserts_hold_materials_only]|]).
    constructor. }
  cbv zeta.
  destruct (is_defined (T.secondaryWidth technique0)) eqn:Hsecondary.
  - exists true. split.
    + intros _. unfold call_if, updateSecondaryWidth. simpl. by eexists.
    + cbn [fst create updaters].
      apply push_if_asserts; [apply updateSecondaryWidth_asserts|].
      apply push_if_asserts; [apply updateSecondaryFading_asserts|].
      apply push_if_asserts; [apply updateSecondaryColor_asserts|].
      apply Hsix.
  - exists false. split; [done|]. apply Hsix.
Qed.

Lemma reachable_guarded hs : reachable_ hs -> guarded hs.
Proof.
  induction 1 as [technique0 tileRef context sc
                 |h s tileRef srcGeometry group _ (secondary & Hs & Hus)
                 |h s context _ (secondary & Hs & Hus)
                 |h s tiles' _ (secondary & Hs & Hus)].
  - apply construct_guarded.
  - exists secondary. split; [|done]. intros Hsecondary.
    destruct (createObject_effect tileRef srcGeometry group s) as (F & _).
    injection F as _ _ F. cbn [snd] in *. rewrite F. by apply Hs.
  - exists secondary. unfold update.
    destruct (frameNumber context =? lastUpdateFrameNumber h)%Z; [by split|].
    destruct (run_updaters_asserts secondary context (updaters h) s Hus Hs)
      as [_ Hm].
    cbn [record_frame updaters].
    destruct (run_updaters context (updaters h) s) as [s' c]. simpl in *.
    split; [|done]. intros Hsecondary. by apply Hm, Hs.
  - exists secondary. by split.
Qed.

(** X20.  No call of [update] fails an assertion of the handler: the
    updaters that assert that the handler has a secondary material are
    registered by the constructor only together with that material, and
    nothing takes it away again.  This holds for every handler the
    constructor made, after any number of objects created, updates and
    frames.  (The expression engine and the material helpers are taken to
    return.) *)
Theorem update_never_throws
    (hs : @Handler State * State) (context : TechniqueUpdateContext)
    (Hreachable : reachable_ hs) :
  (update context hs.1 hs.2).2 = Normal.
Proof.
  destruct (reachable_guarded hs Hreachable) as (secondary & Hs & Hus).
  unfold update.
  destruct (frameNumber context =? lastUpdateFrameNumber hs.1)%Z; [done|].
  destruct (run_updaters_asserts secondary context (updaters hs.1) hs.2 Hus Hs)
    as [Hc _].
  cbn [record_frame updaters].
  by destruct (run_updaters context (updaters hs.1) hs.2).
Qed.

End Assertions.

(** A cased line that has served a group and has seen a frame. *)
Definition line_in_use : @Handler State * State :=
  let hs := construct_line (cased_line (T.Expression "opacity")) (frame 0 1) in
  (update (frame 1 1) hs.1 (createObject 0 some_geometry some_group hs.2).2).1.

Lemma line_in_use_reachable :
  reachable lookup_expression no_interpolation line_material apply_opacity
    (fun distance _ => distance) (-1) (-1) line_in_use.
Proof.
  unfold line_in_use. cbv zeta.
  apply reachable_update, reachable_createObject.
  rewrite <- surjective_pairing. apply construct_line_reachable.
Qed.

Example line_in_use_has_secondary_updaters :
  length (updaters line_in_use.1) = 7 /\
  is_Some (secondaryMaterial line_in_use.2).
Proof. split; [vm_compute; reflexivity|]. vm_compute. by eexists. Qed.

Lemma update_never_throws_witness :
  (update (frame 2 0.5) line_in_use.1 line_in_use.2).2 = Normal.
Proof.
  exact (update_never_throws lookup_expression no_interpolation line_material
           apply_opacity (fun distance _ => distance) (-1) (-1) line_in_use
           (frame 2 0.5) line_in_use_reachable).
Defined.

End SolidLineTechniqueHandler.

(** ** FillTechniqueHandler *)

(** A [FillTechnique | ExtrudedPolygonTechnique], as far as the fill
    handler and the fading helpers read it.  [name] tells the two apart
    ([isExtrudedPolygonTechnique]); [lineColorMix] is an attribute of the
    extruded polygon only.  Colours are numbers, as for the solid line. *)
Module PolygonTechnique.
Section Technique.
Context {Expr Interpolation : Type}.

Record t := {
  name : string;
  color : option (SolidLineTechnique.Property Expr Interpolation);
  opacity : option (SolidLineTechnique.Property Expr Interpolation);
  lineWidth : option (SolidLineTechnique.Property Expr Interpolation);
  lineColor : option (SolidLineTechnique.Property Expr Interpolation);
  lineColorMix : option float;
  fadeNear : option (SolidLineTechnique.Property Expr Interpolation);
  fadeFar : option (SolidLineTechnique.Property Expr Interpolation);
  lineFadeNear : option (SolidLineTechnique.Property Expr Interpolation);
  lineFadeFar : option (SolidLineTechnique.Property Expr Interpolation)
}.

End Technique.
Arguments t : clear implicits.
End PolygonTechnique.

Module PolygonFadingParameters.
Record t := {
  color : option float;
  colorMix : option float;
  fadeNear : option float;
  fadeFar : option float;
  lineFadeNear : option float;
  lineFadeFar : option float
}.
End PolygonFadingParameters.

Module EdgeMaterialParameters.
Record t := {
  color : option float;
  colorMix : option float;
  fadeNear : option float;
  fadeFar : option float
}.
End EdgeMaterialParameters.

Module FillTechniqueHandler.
Module T := SolidLineTechnique.
Module P := PolygonTechnique.
Module Solid := SolidLineTechniqueHandler.
Import GenericTechniqueHandler.

Section Handler.
Context {Expr Interpolation : Type}.

Local Abbreviation Property := (T.Property Expr Interpolation).
Local Abbreviation FillTechnique := (P.t Expr Interpolation).

(** Collaborators: the expression engine, the material factory and colour
    helper of DecodedTileHelpers, and harp-materials with its constants. *)
Variable evaluate : Expr -> gmap string float -> float.
Variable interpolate : Interpolation -> gmap string float -> float.
Variable createMaterial : FillTechnique -> gmap string float -> Material.
Variable applyBaseColorToMaterial :
  Material -> FillTechnique -> option Property -> gmap string float -> Material.
Variable EdgeMaterial : EdgeMaterialParameters.t -> Material.
Variable cameraToWorldDistance : float -> ViewRanges -> float.
Variable DEFAULT_FADE_NEAR : float.
Variable DEFAULT_FADE_FAR : float.
Variable DEFAULT_COLOR : float.
Variable DEFAULT_COLOR_MIX : float.

Local Abbreviation getPropertyValue := (Solid.getPropertyValue evaluate interpolate).
Local Abbreviation isExpr := (@Solid.isExpr Expr Interpolation).

(** [isExtrudedPolygonTechnique(technique)] *)
Definition isExtrudedPolygonTechnique (technique : FillTechnique) : bool :=
  String.eqb (P.name technique) "extruded-polygon".

(** [TechniqueHandlerCommon.getPolygonFadingParams] *)
Definition getPolygonFadingParams (technique : FillTechnique)
    (environment : gmap string float) : PolygonFadingParameters.t :=
  let '(color, colorMix) :=
    match P.lineColor technique with
    | Some p =>
        (getPropertyValue (Some p) environment,
         if isExtrudedPolygonTechnique technique
         then match P.lineColorMix technique with
              | Some mix => mix
              | None => DEFAULT_COLOR_MIX
              end
         else DEFAULT_COLOR_MIX)
    | None => (None, DEFAULT_COLOR_MIX)
    end in
  let fadeNear :=
    match P.fadeNear technique with
    | Some p => getPropertyValue (Some p) environment
    | None => Some DEFAULT_FADE_NEAR
    end in
  let fadeFar :=
    match P.fadeFar technique with
    | Some p => getPropertyValue (Some p) environment
    | None => Some DEFAULT_FADE_FAR
    end in
  let lineFadeNear :=
    match P.lineFadeNear technique with
    | Some p => getPropertyValue (Some p) environment
    | None => fadeNear
    end in
  let lineFadeFar :=
    match P.lineFadeFar technique with
    | Some p => getPropertyValue (Some p) environment
    | None => fadeFar
    end in
  let color :=
    match color with
    | None => Some DEFAULT_COLOR
    | Some c => Some c
    end in
  {| PolygonFadingParameters.color := color;
     PolygonFadingParameters.colorMix := Some colorMix;
     PolygonFadingParameters.fadeNear := fadeNear;
     PolygonFadingParameters.fadeFar := fadeFar;
     PolygonFadingParameters.lineFadeNear := lineFadeNear;
     PolygonFadingParameters.lineFadeFar := lineFadeFar |}.

(** Polygon fading parameters read as [FadingParameters], which they
    extend. *)
Definition as_fading (p : PolygonFadingParameters.t) : FadingParameters.t :=
  {| FadingParameters.fadeNear := PolygonFadingParameters.fadeNear p;
     FadingParameters.fadeFar := PolygonFadingParameters.fadeFar p |}.

Definition isFadingFeatureEnabled (p : PolygonFadingParameters.t) : bool :=
  Solid.isFadingFeatureEnabled DEFAULT_FADE_NEAR DEFAULT_FADE_FAR (as_fading p).

Definition updateFadingParams (m : Material) (p : PolygonFadingParameters.t)
    (context : TechniqueUpdateContext) : Material :=
  Solid.updateFadingParams cameraToWorldDistance m (as_fading p) context.

(** [TechniqueHandlerCommon.updateEdgeFadingParams] *)
Definition updateEdgeFadingParams (m : Material) (p : PolygonFadingParameters.t)
    (context : TechniqueUpdateContext) : Material :=
  let fadeFar := PolygonFadingParameters.lineFadeFar p in
  let fadeNear := PolygonFadingParameters.lineFadeNear p in
  let m1 :=
    match fadeNear with
    | Some v => with_fadeNear m (Some (cameraToWorldDistance v (viewRanges context)))
    | None => m
    end in
  match fadeFar with
  | Some v => with_fadeFar m1 (Some (cameraToWorldDistance v (viewRanges context)))
  | None => m1
  end.

(** The fields of the handler and the scene its closures reach. *)
Record State := {
  technique : FillTechnique;
  mainMaterial : Material;
  outlineMaterial : option Material;
  mainObjects : list TileObjectEntry;
  outlineObjects : list TileObjectEntry;
  scene : Scene
}.

Definition with_mainMaterial (s : State) (m : Material) : State :=
  {| technique := technique s; mainMaterial := m;
     outlineMaterial := outlineMaterial s; mainObjects := mainObjects s;
     outlineObjects := outlineObjects s; scene := scene s |}.

Definition with_outlineMaterial (s : State) (m : option Material) : State :=
  {| technique := technique s; mainMaterial := mainMaterial s;
     outlineMaterial := m; mainObjects := mainObjects s;
     outlineObjects := outlineObjects s; scene := scene s |}.

Definition with_scene (s : State) (sc : Scene) : State :=
  {| technique := technique s; mainMaterial := mainMaterial s;
     outlineMaterial := outlineMaterial s; mainObjects := mainObjects s;
     outlineObjects := outlineObjects s; scene := sc |}.

(** [TechniqueHandlerCommon.updateBaseColor.bind(undefined,
      this.mainMaterial, this.mainObjects, technique)] *)
Definition updateMainColor (context : TechniqueUpdateContext) (s : State)
    : State * Completion :=
  let '(m', sc') :=
    TechniqueHandlerCommon.updateBaseColor
      (fun m t e => applyBaseColorToMaterial m t (P.color t) e)
      (mainMaterial s) (mainObjects s) (technique s) context (scene s) in
  (with_scene (with_mainMaterial s m') sc', Normal).

(** [TechniqueHandlerCommon.updateFadingParams.bind(undefined,
      this.mainMaterial, fadingParams)] *)
Definition updateMainFading (p : PolygonFadingParameters.t)
    (context : TechniqueUpdateContext) (s : State) : State * Completion :=
  (with_mainMaterial s (updateFadingParams (mainMaterial s) p context), Normal).

(** [TechniqueHandlerCommon.updateEdgeFadingParams.bind(undefined,
      this.outlineMaterial, fadingParams)]; the closure is bound to the
    outline material object, which exists when it is registered. *)
Definition updateOutlineFading (p : PolygonFadingParameters.t)
    (context : TechniqueUpdateContext) (s : State) : State * Completion :=
  (with_outlineMaterial s
     (option_map (fun m => updateEdgeFadingParams m p context)
        (outlineMaterial s)),
   Normal).

Definition updateLineColor (context : TechniqueUpdateContext) (s : State)
    : State * Completion :=
  match outlineMaterial s with
  | None => (s, Thrown)
  | Some outline =>
      let lastOpacity := opacity outline in
      let outline' :=
        applyBaseColorToMaterial outline (technique s)
          (P.lineColor (technique s)) (env context) in
      let sc' :=
        if negb (strict_equal lastOpacity (opacity outline'))
        then TechniqueHandlerCommon.show_on_visible_tiles
               (frameNumber context)
               (greater_than_zero (opacity outline'))
               (outlineObjects s) (scene s)
        else scene s in
      (with_scene (with_outlineMaterial s (Some outline')) sc', Normal)
  end.

(** [Expr.isExpr(technique.lineWidth) ||
     (typeof technique.lineWidth === "number" && technique.lineWidth > 0)] *)
Definition has_outline (technique : FillTechnique) : bool :=
  isExpr (P.lineWidth technique)
  || match P.lineWidth technique with
     | Some (T.Constant width) => PrimFloat.ltb 0 width
     | _ => false
     end.

(** The constructor.  The assertion on the class of the created material
    is a check of the material factory and is not modelled. *)
Definition construct (technique : FillTechnique) (tileRef : nat)
    (context : TechniqueUpdateContext) (sc : Scene)
    : @Handler State * State :=
  let s0 :=
    {| technique := technique;
       mainMaterial := createMaterial technique (env context);
       outlineMaterial := None;
       mainObjects := []; outlineObjects := [];
       scene := sc |} in
  let u1 :=
    Solid.push_if (isExpr (P.color technique) || isExpr (P.opacity technique))
      updateMainColor [] in
  let fadingParams := getPolygonFadingParams technique (env context) in
  let u2 :=
    Solid.push_if (isFadingFeatureEnabled fadingParams)
      (updateMainFading fadingParams) u1 in
  if has_outline technique then
    let materialParams :=
      {| EdgeMaterialParameters.color := PolygonFadingParameters.color fadingParams;
         EdgeMaterialParameters.colorMix :=
           PolygonFadingParameters.colorMix fadingParams;
         EdgeMaterialParameters.fadeNear :=
           PolygonFadingParameters.lineFadeNear fadingParams;
         EdgeMaterialParameters.fadeFar :=
           PolygonFadingParameters.lineFadeFar fadingParams |} in
    let s1 := with_outlineMaterial s0 (Some (EdgeMaterial materialParams)) in
    let u3 :=
      Solid.push_if (isFadingFeatureEnabled fadingParams)
        (updateOutlineFading fadingParams) u2 in
    let u4 :=
      Solid.push_if (isExpr (P.lineColor technique) || isExpr (P.opacity technique))
        updateLineColor u3 in
    (create u4, s1)
  else (create u2, s0).

(** *** What happens to a handler during its life

    [createObject] pushes entries to [mainObjects] and [outlineObjects] and
    adds the new objects to the scene; the tiles' visibility bookkeeping
    moves on between frames.  Neither assigns a material or the technique
    of the handler. *)
Definition with_registered (s : State)
    (mainObjects' outlineObjects' : list TileObjectEntry) (sc : Scene) : State :=
  {| technique := technique s; mainMaterial := mainMaterial s;
     outlineMaterial := outlineMaterial s; mainObjects := mainObjects';
     outlineObjects := outlineObjects'; scene := sc |}.

Inductive reachable : @Handler State * State -> Prop :=
| reachable_construct technique tileRef context sc :
    reachable (construct technique tileRef context sc)
| reachable_update h s context :
    reachable (h, s) ->
    reachable (fst (update context h s))
| reachable_objects h s mainObjects' outlineObjects' sc :
    reachable (h, s) ->
    reachable (h, with_registered s mainObjects' outlineObjects' sc).

(** All updaters a fill handler may register, in the order in which the
    constructor comes to them. *)
Definition all_updaters (fadingParams : PolygonFadingParameters.t)
    : list (@TechniqueUpdater State) :=
  [updateMainColor; updateMainFading fadingParams;
   updateOutlineFading fadingParams; updateLineColor].

(** The value a property asks for, or [fallback] when the technique
    does not set it. *)
Local Abbreviation requested := (Solid.requested evaluate interpolate).

Lemma getPropertyValue_requested (p : Property) fallback environment :
  getPropertyValue (Some p) environment
  = Some (requested (Some p) fallback environment).
Proof. by destruct p. Qed.

Lemma fill_isDynamic_push_if cond (u : @TechniqueUpdater State) us :
  isDynamic (create (Solid.push_if cond u us)) = cond || isDynamic (create us).
Proof.
  unfold isDynamic, Solid.push_if. simpl. destruct cond; simpl; [|done].
  rewrite length_app. simpl. by destruct (length us).
Qed.

(** X21.  The fill handler gets an outline material exactly when the line
    width of the technique is an expression or a number greater than zero
    (an interpolated width, like no width, gives none); the material is
    made from the line colour, colour mix and line fade distances of the
    polygon fading parameters.  The updaters registered are a part of the
    list colour, fading, outline fading, line colour, in this order, and
    the two for the outline only together with the outline material.  The
    handler is dynamic exactly when colour or opacity is an expression,
    fading is enabled, or there is an outline and the line colour is an
    expression. *)
Theorem construct_makes_outline_for_positive_width
    (technique0 : FillTechnique) (tileRef : nat)
    (context : TechniqueUpdateContext) (sc : Scene) :
  let hs := construct technique0 tileRef context sc in
  let fadingParams := getPolygonFadingParams technique0 (env context) in
  (outlineMaterial hs.2 =
     match P.lineWidth technique0 with
     | Some (T.Expression _) => Some (EdgeMaterial
         {| EdgeMaterialParameters.color := PolygonFadingParameters.color fadingParams;
            EdgeMaterialParameters.colorMix :=
              PolygonFadingParameters.colorMix fadingParams;
            EdgeMaterialParameters.fadeNear :=
              PolygonFadingParameters.lineFadeNear fadingParams;
            EdgeMaterialParameters.fadeFar :=
              PolygonFadingParameters.lineFadeFar fadingParams |})
     | Some (T.Constant width) =>
         if PrimFloat.ltb 0 width
         then Some (EdgeMaterial
           {| EdgeMaterialParameters.color := PolygonFadingParameters.color fadingParams;
              EdgeMaterialParameters.colorMix :=
                PolygonFadingParameters.colorMix fadingParams;
              EdgeMaterialParameters.fadeNear :=
                PolygonFadingParameters.lineFadeNear fadingParams;
              EdgeMaterialParameters.fadeFar :=
                PolygonFadingParameters.lineFadeFar fadingParams |})
         else None
     | Some (T.Interpolated _) | None => None
     end) /\
  updaters hs.1 `sublist_of` all_updaters fadingParams /\
  (outlineMaterial hs.2 = None ->
   updaters hs.1 `sublist_of` [updateMainColor; updateMainFading fadingParams]) /\
  isDynamic hs.1 =
    (isExpr (P.color technique0) || isExpr (P.opacity technique0)
     || isFadingFeatureEnabled fadingParams
     || has_outline technique0 && isExpr (P.lineColor technique0)) /\
  mainMaterial hs.2 = createMaterial technique0 (env context) /\
  isShareableAcrossTiles hs.1 = true.
Proof.
  intros hs fadingParams. subst hs. unfold construct. fold fadingParams.
  cbv zeta.
  assert (Htwo : Solid.push_if (isFadingFeatureEnabled fadingParams)
                   (updateMainFading fadingParams)
                   (Solid.push_if (isExpr (P.color technique0)
                                   || isExpr (P.opacity technique0))
                      updateMainColor [])
                 `sublist_of` [updateMainColor; updateMainFading fadingParams]).
  { apply (Solid.push_if_sublist _ _ _ [updateMainColor]).
    apply (Solid.push_if_sublist _ _ _ []). constructor. }
  destruct (has_outline technique0) eqn:Houtline; cbn [fst snd].
  - split.
    { unfold has_outline in Houtline. cbn [outlineMaterial with_outlineMaterial].
      destruct (P.lineWidth technique0) as [[width| |]|]; simpl in Houtline;
        try done. by rewrite Houtline. }
    split.
    { apply (Solid.push_if_sublist _ _ _
               [updateMainColor; updateMainFading fadingParams;
                updateOutlineFading fadingParams]).
      by apply (Solid.push_if_sublist _ _ _
                  [updateMainColor; updateMainFading fadingParams]). }
    split; [done|]. split; [|done].
    rewrite !fill_isDynamic_push_if. unfold isDynamic. simpl.
    generalize (isExpr (P.color technique0)) (isExpr (P.opacity technique0))
      (isFadingFeatureEnabled fadingParams) (isExpr (P.lineColor technique0)).
    intros a b c d. btauto.
  - split.
    { unfold has_outline in Houtline. cbn [outlineMaterial].
      destruct (P.lineWidth technique0) as [[width| |]|]; simpl in Houtline;
        try done. by rewrite Houtline. }
    split.
    { etrans; [exact Htwo|]. by apply (sublist_inserts_r [_; _] [_; _] [_; _]). }
    split; [done|]. split; [|done].
    rewrite !fill_isDynamic_push_if. unfold isDynamic. simpl.
    generalize (isExpr (P.color technique0)) (isExpr (P.opacity technique0))
      (isFadingFeatureEnabled fadingParams) (isExpr (P.lineColor technique0)).
    intros a b c d. btauto.
Qed.

(** *** The assertion of [updateLineColor] *)

(** An updater that returns normally and leaves an outline material in
    place, in every state that has an outline material if [outline] is
    set, and in every state whatever otherwise. *)
Definition asserts_hold (outline : bool) (u : @TechniqueUpdater State) : Prop :=
  forall context s,
    (outline = true -> is_Some (outlineMaterial s)) ->
    (u context s).2 = Normal /\
    (is_Some (outlineMaterial s) -> is_Some (outlineMaterial (u context s).1)).

Definition guarded (hs : @Handler State * State) : Prop :=
  exists outline,
    (outline = true -> is_Some (outlineMaterial hs.2)) /\
    Forall (asserts_hold outline) (updaters hs.1).

Lemma fill_updateMainColor_asserts outline : asserts_hold outline updateMainColor.
Proof.
  intros context s _. unfold updateMainColor.
  by destruct (TechniqueHandlerCommon.updateBaseColor _ _ _ _ _ _).
Qed.

Lemma fill_updateMainFading_asserts outline p :
  asserts_hold outline (updateMainFading p).
Proof. by intros context s _. Qed.

Lemma updateOutlineFading_asserts outline p :
  asserts_hold outline (updateOutlineFading p).
Proof.
  intros context s _. split; [done|]. simpl. intros [m ->]. by eexists.
Qed.

Lemma updateLineColor_asserts : asserts_hold true updateLineColor.
Proof.
  intros context s Hs. destruct (Hs eq_refl) as [m Hm].
  unfold updateLineColor. rewrite Hm. simpl. split; [done|by eexists].
Qed.

Lemma fill_push_if_asserts outline cond u us :
  asserts_hold outline u -> Forall (asserts_hold outline) us ->
  Forall (asserts_hold outline) (Solid.push_if cond u us).
Proof.
  intros Hu Hus. unfold Solid.push_if. destruct cond; [|done].
  apply Forall_app. split; [done|]. by constructor.
Qed.

Lemma fill_run_updaters_asserts outline context us s :
  Forall (asserts_hold outline) us ->
  (outline = true -> is_Some (outlineMaterial s)) ->
  (run_updaters context us s).2 = Normal /\
  (is_Some (outlineMaterial s) ->
   is_Some (outlineMaterial (run_updaters context us s).1)).
Proof.
  intros Hus. revert s. induction Hus as [|u us Hu _ IH]; intros s Hs; simpl.
  - done.
  - destruct (Hu context s Hs) as [Hc Hm].
    destruct (u context s) as [s1 c]. simpl in *. subst c.
    destruct (IH s1) as [Hc' Hm']; [by intros H; apply Hm, Hs|].
    split; [done|]. intros H. by apply Hm', Hm.
Qed.

Lemma fill_construct_guarded technique0 tileRef context sc :
  guarded (construct technique0 tileRef context sc).
Proof.
  unfold construct. cbv zeta.
  destruct (has_outline technique0).
  - exists true. split; [by eexists|]. cbn [fst create updaters].
    apply fill_push_if_asserts; [apply updateLineColor_asserts|].
    apply fill_push_if_asserts; [apply updateOutlineFading_asserts|].
    apply fill_push_if_asserts; [apply fill_updateMainFading_asserts|].
    apply fill_push_if_asserts; [apply fill_updateMainColor_asserts|constructor].
  - exists false. split; [done|]. cbn [fst create updaters].
    apply fill_push_if_asserts; [apply fill_updateMainFading_asserts|].
    apply fill_push_if_asserts; [apply fill_updateMainColor_asserts|constructor].
Qed.

Lemma fill_reachable_guarded hs : reachable hs -> guarded hs.
Proof.
  induction 1 as [technique0 tileRef context sc
                 |h s context _ (outline & Hs & Hus)
                 |h s mainObjects' outlineObjects' sc _ (outline & Hs & Hus)].
  - apply fill_construct_guarded.
  - exists outline. unfold update.
    destruct (frameNumber context =? lastUpdateFrameNumber h)%Z; [by split|].
    destruct (fill_run_updaters_asserts outline context (updaters h) s Hus Hs)
      as [_ Hm].
    cbn [record_frame updaters].
    destruct (run_updaters context (updaters h) s) as [s' c]. simpl in *.
    split; [|done]. intros Houtline. by apply Hm, Hs.
  - exists outline. by split.
Qed.

(** X22.  No call of [update] fails the assertion of [updateLineColor]: the
    constructor registers that updater only together with the outline
    material, and neither an update nor the creation of objects takes the
    material away.  (The expression engine and the material helpers are
    taken to return.) *)
Theorem update_finds_outline_material
    (hs : @Handler State * State) (context : TechniqueUpdateContext)
    (Hreachable : reachable hs) :
  (update context hs.1 hs.2).2 = Normal.
Proof.
  destruct (fill_reachable_guarded hs Hreachable) as (outline & Hs & Hus).
  unfold update.
  destruct (frameNumber context =? lastUpdateFrameNumber hs.1)%Z; [done|].
  destruct (fill_run_updaters_asserts outline context (updaters hs.1) hs.2 Hus Hs)
    as [Hc _].
  cbn [record_frame updaters].
  by destruct (run_updaters context (updaters hs.1) hs.2).
Qed.

(** *** Fading of polygons *)

(** X23.  Whether a polygon fades is decided by [fadeNear] and [fadeFar]
    alone: a technique that sets neither has fading disabled even when it
    sets [lineFadeNear] or [lineFadeFar], so no fading updater is
    registered and the line distances given to the outline material are
    never converted.  When the edge updater runs it writes both distances
    of the material, each converted from camera to world distance: the
    line distance if the technique sets it, else the polygon's distance,
    else the default; nothing else of the material changes. *)
Theorem edge_fading_follows_polygon_fading
    (technique0 : FillTechnique) (environment : gmap string float)
    (Hnear : PrimFloat.eqb DEFAULT_FADE_NEAR DEFAULT_FADE_NEAR = true)
    (Hfar : PrimFloat.eqb DEFAULT_FADE_FAR DEFAULT_FADE_FAR = true) :
  let p := getPolygonFadingParams technique0 environment in
  let near :=
    requested (P.lineFadeNear technique0)
      (requested (P.fadeNear technique0) DEFAULT_FADE_NEAR environment)
      environment in
  let far :=
    requested (P.lineFadeFar technique0)
      (requested (P.fadeFar technique0) DEFAULT_FADE_FAR environment)
      environment in
  (P.fadeNear technique0 = None -> P.fadeFar technique0 = None ->
   isFadingFeatureEnabled p = false) /\
  PolygonFadingParameters.lineFadeNear p = Some near /\
  PolygonFadingParameters.lineFadeFar p = Some far /\
  forall m context,
    let m' := updateEdgeFadingParams m p context in
    m' =
    with_fadeFar
      (with_fadeNear m (Some (cameraToWorldDistance near (viewRanges context))))
      (Some (cameraToWorldDistance far (viewRanges context))) /\
    fadeNear m' = Some (cameraToWorldDistance near (viewRanges context)) /\
    fadeFar m' = Some (cameraToWorldDistance far (viewRanges context)) /\
    color m' = color m /\ opacity m' = opacity m /\
    Solid.lengths m' = Solid.lengths m /\ caps m' = caps m /\
    clipTileSize m' = clipTileSize m /\ useVertexColor m' = useVertexColor m.
Proof.
  intros p near far.
  assert (Hn : PolygonFadingParameters.lineFadeNear p = Some near).
  { subst p near. unfold getPolygonFadingParams.
    destruct (P.lineColor technique0); cbn [PolygonFadingParameters.lineFadeNear];
      (destruct (P.lineFadeNear technique0) as [line|];
       [apply getPropertyValue_requested|];
       destruct (P.fadeNear technique0) as [polygon|];
       [apply getPropertyValue_requested|reflexivity]). }
  assert (Hf : PolygonFadingParameters.lineFadeFar p = Some far).
  { subst p far. unfold getPolygonFadingParams.
    destruct (P.lineColor technique0); cbn [PolygonFadingParameters.lineFadeFar];
      (destruct (P.lineFadeFar technique0) as [line|];
       [apply getPropertyValue_requested|];
       destruct (P.fadeFar technique0) as [polygon|];
       [apply getPropertyValue_requested|reflexivity]). }
  split; [|split; [exact Hn|split; [exact Hf|]]].
  - intros Hnone_near Hnone_far. subst p.
    unfold isFadingFeatureEnabled, Solid.isFadingFeatureEnabled, as_fading,
      getPolygonFadingParams.
    rewrite Hnone_near, Hnone_far.
    destruct (P.lineColor technique0); simpl; by rewrite Hnear, Hfar.
  - intros m context. unfold updateEdgeFadingParams. rewrite Hn, Hf.
    by repeat split.
Qed.

(** X24.  The outline of an extruded polygon is mixed with [lineColorMix]
    only if the technique also sets a line colour; without a line colour
    the outline has the default colour and the default mix, whatever
    [lineColorMix] says.  A fill technique always gets the default mix. *)
Theorem lineColorMix_needs_lineColor
    (technique0 : FillTechnique) (environment : gmap string float) :
  let p := getPolygonFadingParams technique0 environment in
  (P.lineColor technique0 = None ->
   PolygonFadingParameters.color p = Some DEFAULT_COLOR /\
   PolygonFadingParameters.colorMix p = Some DEFAULT_COLOR_MIX) /\
  (P.name technique0 <> "extruded-polygon" ->
   PolygonFadingParameters.colorMix p = Some DEFAULT_COLOR_MIX) /\
  (forall lineColor mix,
     P.lineColor technique0 = Some lineColor ->
     P.name technique0 = "extruded-polygon" ->
     P.lineColorMix technique0 = Some mix ->
     PolygonFadingParameters.colorMix p = Some mix /\
     PolygonFadingParameters.color p
       = Some (requested (Some lineColor) DEFAULT_COLOR environment)).
Proof.
  intros p. subst p. unfold getPolygonFadingParams, isExtrudedPolygonTechnique.
  split; [|split].
  - intros ->. by split.
  - intros Hname. apply String.eqb_neq in Hname. rewrite Hname.
    by destruct (P.lineColor technique0).
  - intros lineColor mix -> -> ->. simpl. split; [done|].
    by destruct lineColor.
Qed.

(** *** Visibility of the outline *)

(** X25.  [updateLineColor] applies the line colour to the outline material
    and, if that changed the opacity of the outline material, sets the
    visible flag of the objects registered as outline objects on tiles
    last visible in the update frame to [opacity > 0], using the opacity of
    the outline material and not that of the main material; all other
    objects, the main material and the registrations stay as they are. *)
Theorem updateLineColor_shows_outline_objects
    (context : TechniqueUpdateContext) (s : State) (outline : Material)
    (Houtline : outlineMaterial s = Some outline) :
  let outline' :=
    applyBaseColorToMaterial outline (technique s) (P.lineColor (technique s))
      (env context) in
  let s' := (updateLineColor context s).1 in
  (updateLineColor context s).2 = Normal /\
  outlineMaterial s' = Some outline' /\
  mainMaterial s' = mainMaterial s /\
  mainObjects s' = mainObjects s /\
  outlineObjects s' = outlineObjects s /\
  technique s' = technique s /\
  (forall r,
    objects (scene s') !! r =
    if negb (strict_equal (opacity outline) (opacity outline'))
       && TechniqueHandlerCommon.on_visible_tile (frameNumber context)
            (tiles (scene s)) (outlineObjects s) r
    then set_visible (greater_than_zero (opacity outline')) <$> objects (scene s) !! r
    else objects (scene s) !! r) /\
  (forall r o,
     objects (scene s) !! r = Some o ->
     strict_equal (opacity outline) (opacity outline') = false ->
     TechniqueHandlerCommon.on_visible_tile (frameNumber context)
       (tiles (scene s)) (outlineObjects s) r = true ->
     exists o',
       objects (scene s') !! r = Some o' /\
       visible o' = greater_than_zero (opacity outline') /\
       geometry o' = geometry o /\
       material o' = material o /\
       renderOrder o' = renderOrder o /\
       onBeforeRender o' = onBeforeRender o).
Proof.
  intros outline' s'. subst s'. unfold updateLineColor. rewrite Houtline.
  fold outline'. cbn [fst snd].
  do 6 (split; [reflexivity|]). cbn [scene with_scene with_outlineMaterial].
  split.
  - intros r.
    destruct (negb (strict_equal (opacity outline) (opacity outline'))); [|done].
    by rewrite TechniqueHandlerCommon.show_on_visible_tiles_lookup.
  - intros r o Ho Hchanged Hvisible. rewrite Hchanged. cbn [negb].
    rewrite TechniqueHandlerCommon.show_on_visible_tiles_lookup, Hvisible, Ho.
    eexists. split; [reflexivity|]. by repeat split.
Qed.

End Handler.

(** *** A lake with an outline *)

Definition lake (lake_opacity : T.Property string Empty_set)
    : P.t string Empty_set :=
  {| P.name := "fill";
     P.color := Some (T.Constant 255);
     P.opacity := Some lake_opacity;
     P.lineWidth := Some (T.Constant 1);
     P.lineColor := Some (T.Constant 0);
     P.lineColorMix := Some 0.25%float;
     P.fadeNear := None;
     P.fadeFar := None;
     P.lineFadeNear := Some (T.Constant 0.5);
     P.lineFadeFar := None |}.

Definition opacity_of (technique0 : P.t string Empty_set)
    (environment : gmap string float) : option float :=
  match P.opacity technique0 with
  | None => Some 1%float
  | p => Solid.getPropertyValue Solid.lookup_expression Solid.no_interpolation
           p environment
  end.

Definition fill_material (technique0 : P.t string Empty_set)
    (environment : gmap string float) : Material :=
  {| color := 0; opacity := opacity_of technique0 environment;
     lineWidth := 1; outlineWidth := 0; dashSize := 1; gapSize := 1;
     fadeNear := None; fadeFar := None; caps := "Round";
     clipTileSize := None; useVertexColor := false |}.

Definition apply_opacity (m : Material) (technique0 : P.t string Empty_set)
    (_ : option (T.Property string Empty_set))
    (environment : gmap string float) : Material :=
  with_opacity m (opacity_of technique0 environment).

Definition edge_material (parameters : EdgeMaterialParameters.t) : Material :=
  {| color := 0; opacity := Some 1%float;
     lineWidth := 1; outlineWidth := 0; dashSize := 1; gapSize := 1;
     fadeNear := EdgeMaterialParameters.fadeNear parameters;
     fadeFar := EdgeMaterialParameters.fadeFar parameters;
     caps := "Round"; clipTileSize := None; useVertexColor := false |}.

Definition construct_lake (technique0 : P.t string Empty_set)
    (context : TechniqueUpdateContext) : @Handler State * State :=
  construct Solid.lookup_expression Solid.no_interpolation fill_material
    apply_opacity edge_material (fun distance _ => distance) (-1) (-1) 0 0.5
    technique0 0 context TechniqueHandlerCommon.two_tiles.

(** The lake after its outlines were registered on two tiles, one of them
    visible in frame 7. *)
Definition lake_in_use : @Handler State * State :=
  let hs := construct_lake (lake (T.Expression "opacity")) (Solid.frame 0 1) in
  (hs.1, with_registered hs.2 [] TechniqueHandlerCommon.two_entries
           TechniqueHandlerCommon.two_tiles).

Lemma lake_in_use_reachable :
  reachable Solid.lookup_expression Solid.no_interpolation fill_material
    apply_opacity edge_material (fun distance _ => distance) (-1) (-1) 0 0.5
    lake_in_use.
Proof.
  unfold lake_in_use. cbv zeta. apply reachable_objects.
  rewrite <- surjective_pairing. apply reachable_construct.
Qed.

(** The outline keeps the line fade distance it was made with: fading is
    off, so nothing converts it. *)
Example lake_outline_is_hidden_on_visible_tile :
  let hs := (update TechniqueHandlerCommon.fading_context
               lake_in_use.1 lake_in_use.2).1 in
  visible <$> objects (scene hs.2) = [false; true] /\
  (fadeNear <$> outlineMaterial hs.2) = Some (Some 0.5%float) /\
  length (updaters hs.1) = 2.
Proof. vm_compute. repeat split; reflexivity. Qed.

Lemma update_finds_outline_material_witness :
  (update TechniqueHandlerCommon.fading_context
     lake_in_use.1 lake_in_use.2).2 = Normal.
Proof.
  exact (update_finds_outline_material Solid.lookup_expression
           Solid.no_interpolation fill_material apply_opacity edge_material
           (fun distance _ => distance) (-1) (-1) 0 0.5 lake_in_use
           TechniqueHandlerCommon.fading_context lake_in_use_reachable).
Defined.

Lemma edge_fading_follows_polygon_fading_witness :
  isFadingFeatureEnabled (-1) (-1)
    (getPolygonFadingParams Solid.lookup_expression Solid.no_interpolation
       (-1) (-1) 0 0.5 (lake (T.Constant 1)) ∅) = false.
Proof.
  destruct (edge_fading_follows_polygon_fading Solid.lookup_expression
              Solid.no_interpolation (fun distance _ => distance)
              (-1) (-1) 0 0.5 (lake (T.Constant 1)) ∅
              ltac:(vm_compute; reflexivity) ltac:(vm_compute; reflexivity))
    as [Hdisabled _].
  apply Hdisabled; reflexivity.
Defined.

Lemma updateLineColor_shows_outline_objects_witness :
  objects (scene (updateLineColor apply_opacity
                    TechniqueHandlerCommon.fading_context lake_in_use.2).1) !! 0
  = Some (set_visible false TechniqueHandlerCommon.plain_object) /\
  (visible <$>
   objects (scene (updateLineColor apply_opacity
                     TechniqueHandlerCommon.fading_context lake_in_use.2).1) !! 0)
  = Some false.
Proof.
  destruct (updateLineColor_shows_outline_objects apply_opacity
              TechniqueHandlerCommon.fading_context lake_in_use.2
              (edge_material
                 {| EdgeMaterialParameters.color := Some 0%float;
                    EdgeMaterialParameters.colorMix := Some 0.5%float;
                    EdgeMaterialParameters.fadeNear := Some 0.5%float;
                    EdgeMaterialParameters.fadeFar := Some (-1)%float |})
              ltac:(vm_compute; reflexivity))
    as (_ & _ & _ & _ & _ & _ & Hobjects & Hshown).
  split; [rewrite Hobjects; vm_compute; reflexivity|].
  destruct (Hshown 0 TechniqueHandlerCommon.plain_object)
    as (hidden & Hhidden & Hvisible & _);
    [reflexivity|vm_compute; reflexivity|vm_compute; reflexivity|].
  cbv zeta in Hhidden. rewrite Hhidden. simpl. rewrite Hvisible.
  vm_compute. reflexivity.
Defined.

End FillTechniqueHandler.


(** ** TileGeometryCreator.createObjects *)

Record DecodedTile := {
  techniques : list Technique;
  geometries : list Geometry
}.

Module TileGeometryCreator.
Module Pool := TechniqueHandlerPool.

(** What a call of [createObjects] does that can be seen from outside, in
    order.  [Merged] records the group the merging loop arrived at: the
    geometry (its position in the decoded tile), the position of the first
    source group, the number of source groups covered, and the merged
    group itself. *)
Inductive Event :=
| Merged (geometryIndex firstGroup covered : nat) (mergedGroup : Group.t)
| PoolQueried (techniqueIndex : nat)
| CreateObjectCalled (handler : nat) (geometryIndex : nat) (mergedGroup : Group.t)
| LegacyObjectCreated (techniqueIndex : nat) (geometryIndex : nat)
    (mergedGroup : Group.t).

Section Orchestrator.

Context {Handler Drawable LegacyMaterial : Type}.

(** The handlers' side of the interface, and the registry behind
    [tile.techniqueHandlerPool]. *)
Variable isShareableAcrossTiles : Handler -> bool.
Variable isDynamic : Handler -> bool.
Variable registry : gmap string (@Pool.TechniqueHandlerConstructor Handler).

(** What a call [handler.createObject(tile, srcGeometry, group)] does, as
    far as the orchestrator sees it: the objects the handler pushes onto
    [tile.objects] itself while it runs (the solid-line handler does), and
    the objects it returns.  The handlers, like the helpers of the legacy
    path, are collaborators that return; a handler that throws is not
    modelled. *)
Record Creation := {
  pushed : list Drawable;
  returned : list Drawable
}.

Variable createObject : Handler -> Tile -> Geometry -> Group.t -> Creation.

(** The path for techniques without a handler: [getObjectConstructor] and
    [createMaterial] of DecodedTileHelpers may both answer [undefined];
    [legacyObject] stands for building the buffer geometry and the object,
    with the render order offset of the first source group. *)
Variable hasObjectConstructor : Technique -> bool.
Variable createMaterial : Technique -> option LegacyMaterial.
Variable legacyObject :
  Technique -> Geometry -> Group.t -> option float -> LegacyMaterial -> Drawable.

(** The locals of one call ([materials], [techniqueHandlers]) and what the
    call changes outside: the pool, [tile.objects],
    [tile.dynamicTechniqueHandlers]. *)
Record Pass := {
  pool : @Pool.State Handler;
  materials : gmap nat LegacyMaterial;
  techniqueHandlers : gmap nat nat;
  tile_objects : list Drawable;
  dynamicTechniqueHandlers : list nat;
  events : list Event
}.

Definition start_pass (poolState : @Pool.State Handler)
    (objects0 : list Drawable) (dynamic0 : list nat) : Pass :=
  {| pool := poolState; materials := ∅; techniqueHandlers := ∅;
     tile_objects := objects0; dynamicTechniqueHandlers := dynamic0;
     events := [] |}.

Definition record_event (e : Event) (p : Pass) : Pass :=
  {| pool := pool p; materials := materials p;
     techniqueHandlers := techniqueHandlers p;
     tile_objects := tile_objects p;
     dynamicTechniqueHandlers := dynamicTechniqueHandlers p;
     events := events p ++ [e] |}.

(** [group.createdOffsets.indexOf(tile.offset) !== -1] *)
Definition created_for (tileOffset : Z) (group : Group.t) : bool :=
  existsb (Z.eqb tileOffset) (Group.createdOffsets group).

(** [group.createdOffsets.push(tile.offset)] *)
Definition mark (tileOffset : Z) (group : Group.t) : Group.t :=
  {| Group.start := Group.start group;
     Group.count := Group.count group;
     Group.technique := Group.technique group;
     Group.createdOffsets := Group.createdOffsets group ++ [tileOffset];
     Group.renderOrderOffset := Group.renderOrderOffset group |}.

(** [technique.enabled === false ||
     (techniqueFilter !== undefined && !techniqueFilter(technique))] *)
Definition rejected (techniqueFilter : option (Technique -> bool))
    (technique : Technique) : bool :=
  match enabled technique with
  | Some false => true
  | _ =>
      match techniqueFilter with
      | Some accepts => negb (accepts technique)
      | None => false
      end
  end.

(** The loop that compresses consecutive groups: starting with [count]
    elements from [start], it takes the next group while that group has
    the same technique index and starts where the merged span ends, and
    marks it.  It returns the final count, the groups it took (marked) and
    the groups it left. *)
Fixpoint compress (tileOffset start : Z) (techniqueIndex : nat) (count : Z)
    (following : list Group.t) : Z * list Group.t * list Group.t :=
  match following with
  | next :: later =>
      if Nat.eqb (Group.technique next) techniqueIndex
      then
        if (start + count =? Group.start next)%Z
        then
          let '(total, taken, untaken) :=
            compress tileOffset start techniqueIndex
              (count + Group.count next) later in
          (total, mark tileOffset next :: taken, untaken)
        else (count, [], following)
      else (count, [], following)
  | [] => (count, [], [])
  end.

(** The handler branch and the legacy branch of the loop body, for the
    merged group arrived at. *)
Definition dispatch (tile : Tile) (context : TechniqueUpdateContext)
    (geometryIndex : nat) (srcGeometry : Geometry) (group : Group.t)
    (technique : Technique) (mergedGroup : Group.t) (p : Pass)
    : Pass * Completion :=
  let techniqueIndex := Group.technique mergedGroup in
  let hasTechniqueHandler :=
    match techniqueHandlers p !! techniqueIndex with
    | Some _ => true
    | None => Pool.canHandle registry technique
    end in
  if hasTechniqueHandler then
    let '(found, p1) :=
      match techniqueHandlers p !! techniqueIndex with
      | Some techniqueHandler => (Pool.Returned techniqueHandler, p)
      | None =>
          let '(outcome, pool') :=
            Pool.getTechniqueHandler isShareableAcrossTiles registry
              technique tile context (pool p) in
          (outcome,
           record_event (PoolQueried techniqueIndex)
             {| pool := pool'; materials := materials p;
                techniqueHandlers := techniqueHandlers p;
                tile_objects := tile_objects p;
                dynamicTechniqueHandlers := dynamicTechniqueHandlers p;
                events := events p |})
      end in
    match found with
    | Pool.UnknownTechnique _ | Pool.NotAHandler _ => (p1, Thrown)
    | Pool.Returned techniqueHandler =>
        match Pool.handlers (pool p1) !! techniqueHandler with
        | None => (p1, Thrown)
        | Some handler =>
            let creation := createObject handler tile srcGeometry mergedGroup in
            let newObjects := returned creation in
            (record_event
               (CreateObjectCalled techniqueHandler geometryIndex mergedGroup)
               {| pool := pool p1; materials := materials p1;
                  techniqueHandlers := techniqueHandlers p1;
                  tile_objects :=
                    tile_objects p1 ++ pushed creation ++ newObjects;
                  dynamicTechniqueHandlers :=
                    if isDynamic handler
                    then dynamicTechniqueHandlers p1 ++ [techniqueHandler]
                    else dynamicTechniqueHandlers p1;
                  events := events p1 |},
             Normal)
        end
    end
  else
    if hasObjectConstructor technique then
      let chosen :=
        match materials p !! techniqueIndex with
        | Some material => Some (material, materials p)
        | None =>
            match createMaterial technique with
            | Some material =>
                Some (material, <[techniqueIndex := material]> (materials p))
            | None => None
            end
        end in
      match chosen with
      | None => (p, Normal)
      | Some (material, materials') =>
          let object :=
            legacyObject technique srcGeometry mergedGroup
              (Group.renderOrderOffset group) material in
          (record_event
             (LegacyObjectCreated techniqueIndex geometryIndex mergedGroup)
             {| pool := pool p; materials := materials';
                techniqueHandlers := techniqueHandlers p;
                tile_objects := tile_objects p ++ [object];
                dynamicTechniqueHandlers := dynamicTechniqueHandlers p;
                events := events p |},
           Normal)
      end
    else (p, Normal).

(** The loop over the groups of one geometry.  [visited] are the groups
    before [groupIndex], as the loop left them, and [ahead] the groups from
    [groupIndex] on; every iteration moves at least one group from [ahead]
    to [visited], so [fuel] = number of groups ahead is enough. *)
Fixpoint visit_groups (fuel : nat) (tile : Tile)
    (context : TechniqueUpdateContext) (decoded_techniques : list Technique)
    (techniqueFilter : option (Technique -> bool))
    (geometryIndex : nat) (srcGeometry : Geometry)
    (visited ahead : list Group.t) (p : Pass)
    : list Group.t * Pass * Completion :=
  match fuel with
  | 0 => (visited ++ ahead, p, Normal)
  | S fuel' =>
      match ahead with
      | [] => (visited, p, Normal)
      | group :: following =>
          let start := Group.start group in
          let techniqueIndex := Group.technique group in
          if created_for (offset tile) group
          then visit_groups fuel' tile context decoded_techniques
                 techniqueFilter geometryIndex srcGeometry
                 (visited ++ [group]) following p
          else
            match decoded_techniques !! techniqueIndex with
            | None => (visited ++ ahead, p, Thrown)
            | Some technique =>
                if rejected techniqueFilter technique
                then visit_groups fuel' tile context decoded_techniques
                       techniqueFilter geometryIndex srcGeometry
                       (visited ++ [group]) following p
                else
                  let '(count, taken, untaken) :=
                    compress (offset tile) start techniqueIndex
                      (Group.count group) following in
                  let mergedGroup :=
                    {| Group.start := start; Group.count := count;
                       Group.technique := techniqueIndex;
                       Group.createdOffsets := [];
                       Group.renderOrderOffset := None |} in
                  let visited' :=
                    visited ++ mark (offset tile) group :: taken in
                  let p1 :=
                    record_event
                      (Merged geometryIndex (length visited)
                         (S (length taken)) mergedGroup) p in
                  match dispatch tile context geometryIndex srcGeometry group
                          technique mergedGroup p1 with
                  | (p2, Thrown) => (visited' ++ untaken, p2, Thrown)
                  | (p2, Normal) =>
                      visit_groups fuel' tile context decoded_techniques
                        techniqueFilter geometryIndex srcGeometry
                        visited' untaken p2
                  end
            end
      end
  end.

Definition with_groups (g : Geometry) (gs : list Group.t) : Geometry :=
  {| uuid := uuid g; hasColor := hasColor g; groups := gs |}.

(** The loop over the geometries of the decoded tile. *)
Fixpoint visit_geometries (tile : Tile) (context : TechniqueUpdateContext)
    (decoded_techniques : list Technique)
    (techniqueFilter : option (Technique -> bool))
    (geometryIndex : nat) (remaining : list Geometry) (p : Pass)
    : list Geometry * Pass * Completion :=
  match remaining with
  | [] => ([], p, Normal)
  | srcGeometry :: more =>
      match visit_groups (length (groups srcGeometry)) tile context
              decoded_techniques techniqueFilter geometryIndex srcGeometry
              [] (groups srcGeometry) p with
      | (groups', p1, Thrown) =>
          (with_groups srcGeometry groups' :: more, p1, Thrown)
      | (groups', p1, Normal) =>
          let '(more', p2, c) :=
            visit_geometries tile context decoded_techniques techniqueFilter
              (S geometryIndex) more p1 in
          (with_groups srcGeometry groups' :: more', p2, c)
      end
  end.

(** [createObjects(tile, decodedTile, techniqueFilter)], with
    [mapView.techniqueUpdateContext] as [context].  The result is the
    decoded tile with the marks the call left on its groups, the state of
    pool and tile, and how the call ended. *)
Definition createObjects (tile : Tile) (context : TechniqueUpdateContext)
    (decodedTile : DecodedTile) (techniqueFilter : option (Technique -> bool))
    (p : Pass) : DecodedTile * Pass * Completion :=
  let '(geometries', p', c) :=
    visit_geometries tile context (techniques decodedTile) techniqueFilter
      0 (geometries decodedTile) p in
  ({| techniques := techniques decodedTile; geometries := geometries' |},
   p', c).

(** *** The group loop as a relation

    One rule per way through the loop body.  The loop function follows
    these rules, whatever fuel it is given beyond the number of groups
    ahead; all properties of the loop below are read off the rules. *)
Section Loop.

Variable tile : Tile.
Variable context : TechniqueUpdateContext.
Variable decoded_techniques : list Technique.
Variable techniqueFilter : option (Technique -> bool).
Variable geometryIndex : nat.
Variable srcGeometry : Geometry.

Definition merged_group (group : Group.t) (count : Z) : Group.t :=
  {| Group.start := Group.start group; Group.count := count;
     Group.technique := Group.technique group;
     Group.createdOffsets := [];
     Group.renderOrderOffset := None |}.

Inductive loop : list Group.t -> list Group.t -> Pass ->
                 list Group.t * Pass * Completion -> Prop :=
| loop_end visited p :
    loop visited [] p (visited, p, Normal)
| loop_skip_created visited group following p r :
    created_for (offset tile) group = true ->
    loop (visited ++ [group]) following p r ->
    loop visited (group :: following) p r
| loop_no_technique visited group following p :
    created_for (offset tile) group = false ->
    decoded_techniques !! Group.technique group = None ->
    loop visited (group :: following) p
      (visited ++ group :: following, p, Thrown)
| loop_skip_rejected visited group following p r technique :
    created_for (offset tile) group = false ->
    decoded_techniques !! Group.technique group = Some technique ->
    rejected techniqueFilter technique = true ->
    loop (visited ++ [group]) following p r ->
    loop visited (group :: following) p r
| loop_merge_thrown visited group following p technique count taken untaken p2 :
    created_for (offset tile) group = false ->
    decoded_techniques !! Group.technique group = Some technique ->
    rejected techniqueFilter technique = false ->
    compress (offset tile) (Group.start group) (Group.technique group)
      (Group.count group) following = (count, taken, untaken) ->
    dispatch tile context geometryIndex srcGeometry group technique
      (merged_group group count)
      (record_event (Merged geometryIndex (length visited) (S (length taken))
                       (merged_group group count)) p) = (p2, Thrown) ->
    loop visited (group :: following) p
      ((visited ++ mark (offset tile) group :: taken) ++ untaken, p2, Thrown)
| loop_merge visited group following p technique count taken untaken p2 r :
    created_for (offset tile) group = false ->
    decoded_techniques !! Group.technique group = Some technique ->
    rejected techniqueFilter technique = false ->
    compress (offset tile) (Group.start group) (Group.technique group)
      (Group.count group) following = (count, taken, untaken) ->
    dispatch tile context geometryIndex srcGeometry group technique
      (merged_group group count)
      (record_event (Merged geometryIndex (length visited) (S (length taken))
                       (merged_group group count)) p) = (p2, Normal) ->
    loop (visited ++ mark (offset tile) group :: taken) untaken p2 r ->
    loop visited (group :: following) p r.

(** What [compress] takes and leaves is a split of the groups it was given. *)
Lemma compress_split tileOffset start techniqueIndex count following
    total taken untaken :
  compress tileOffset start techniqueIndex count following
    = (total, taken, untaken) ->
  exists run, following = run ++ untaken /\ taken = mark tileOffset <$> run.
Proof.
  revert count total taken untaken.
  induction following as [|next later IH]; intros count total taken untaken;
    simpl.
  - intros [= <- <- <-]. by exists [].
  - destruct (Nat.eqb _ _); [|intros [= <- <- <-]; by exists []].
    destruct (_ =? _)%Z; [|intros [= <- <- <-]; by exists []].
    destruct (compress _ _ _ _ later) as [[total' taken'] untaken'] eqn:Hc.
    intros [= <- <- <-].
    destruct (IH _ _ _ _ Hc) as (run & -> & ->).
    by exists (next :: run).
Qed.

Lemma compress_length tileOffset start techniqueIndex count following
    total taken untaken :
  compress tileOffset start techniqueIndex count following
    = (total, taken, untaken) ->
  length taken + length untaken = length following.
Proof.
  intros H. destruct (compress_split _ _ _ _ _ _ _ _ H) as (run & -> & ->).
  rewrite length_app, length_fmap. lia.
Qed.

(** The loop function follows the rules: it ends, and with the result the
    rules give. *)
Lemma visit_groups_loop fuel visited ahead p :
  length ahead <= fuel ->
  loop visited ahead p
    (visit_groups fuel tile context decoded_techniques techniqueFilter
       geometryIndex srcGeometry visited ahead p).
Proof.
  revert visited ahead p.
  induction fuel as [|fuel IH]; intros visited ahead p Hfuel.
  - destruct ahead; simpl in *; [|lia]. rewrite app_nil_r. constructor.
  - destruct ahead as [|group following]; simpl in *; [constructor|].
    destruct (created_for (offset tile) group) eqn:Hcreated.
    { apply loop_skip_created; [done|]. apply IH. lia. }
    destruct (decoded_techniques !! Group.technique group)
      as [technique|] eqn:Htechnique; [|by constructor].
    destruct (rejected techniqueFilter technique) eqn:Hrejected.
    { eapply loop_skip_rejected; [done..|]. apply IH. lia. }
    destruct (compress _ _ _ _ following) as [[count taken] untaken] eqn:Hc.
    change {| Group.start := Group.start group; Group.count := count;
              Group.technique := Group.technique group;
              Group.createdOffsets := []; Group.renderOrderOffset := None |}
      with (merged_group group count).
    destruct (dispatch _ _ _ _ _ _ _ _) as [p2 [|]] eqn:Hd.
    + eapply loop_merge; [done..|]. apply IH.
      pose proof (compress_length _ _ _ _ _ _ _ _ Hc). lia.
    + eapply loop_merge_thrown; done.
Qed.

(** *** Merging, in the words of the specification

    [merges_with t e run e']: starting from a span that ends at [e], each
    group of [run] in turn has technique index [t] and starts where the
    span ends, and extends the span by its count; the span then ends at
    [e'].  [stops_at t e untaken]: the group after the run, if any, does
    not continue the span. *)
Inductive merges_with (techniqueIndex : nat) : Z -> list Group.t -> Z -> Prop :=
| merges_none e : merges_with techniqueIndex e [] e
| merges_next e next run e' :
    Group.technique next = techniqueIndex ->
    Group.start next = e ->
    merges_with techniqueIndex (e + Group.count next) run e' ->
    merges_with techniqueIndex e (next :: run) e'.

Definition stops_at (techniqueIndex : nat) (e : Z) (untaken : list Group.t) : Prop :=
  match untaken with
  | [] => True
  | next :: _ => Group.technique next <> techniqueIndex \/ Group.start next <> e
  end.

Definition sum_counts (run : list Group.t) : Z :=
  fold_right (fun g acc => Group.count g + acc)%Z 0%Z run.

Lemma merges_with_total techniqueIndex e run e' :
  merges_with techniqueIndex e run e' -> e' = (e + sum_counts run)%Z.
Proof.
  induction 1 as [e|e next run e' _ _ _ IH]; simpl; lia.
Qed.

Lemma compress_run tileOffset start techniqueIndex count following
    total taken untaken :
  compress tileOffset start techniqueIndex count following
    = (total, taken, untaken) ->
  exists run,
    following = run ++ untaken /\
    taken = mark tileOffset <$> run /\
    merges_with techniqueIndex (start + count) run (start + total) /\
    stops_at techniqueIndex (start + total) untaken.
Proof.
  revert count total taken untaken.
  induction following as [|next later IH]; intros count total taken untaken;
    simpl.
  - intros [= <- <- <-]. exists []. repeat split; constructor.
  - destruct (Nat.eqb_spec (Group.technique next) techniqueIndex) as [Ht|Ht].
    2:{ intros [= <- <- <-]. exists []. repeat split; [constructor|by left]. }
    destruct (Z.eqb_spec (start + count) (Group.start next)) as [Hs|Hs].
    2:{ intros [= <- <- <-]. exists []. repeat split; [constructor|].
        right. congruence. }
    destruct (compress _ _ _ _ later) as [[total' taken'] untaken'] eqn:Hc.
    intros [= <- <- <-].
    destruct (IH _ _ _ _ Hc) as (run & -> & -> & Hm & Hstop).
    exists (next :: run). repeat split; [|done].
    constructor; [done|done|]. by rewrite Z.add_assoc in Hm.
Qed.

(** *** Consistent marks

    Two neighbouring groups that the merging loop would join (same
    technique index, the second starting where the first ends) are either
    both created for an offset or the second is not: a group is never
    created for an offset while the neighbour it would have been merged
    into is not. *)
Definition mergeable (g g' : Group.t) : Prop :=
  Group.technique g' = Group.technique g /\
  (Group.start g + Group.count g)%Z = Group.start g'.

Definition ok_pair (tileOffset : Z) (g g' : Group.t) : Prop :=
  mergeable g g' ->
  created_for tileOffset g' = true -> created_for tileOffset g = true.

Fixpoint adjacent {A : Type} (R : A -> A -> Prop) (l : list A) : Prop :=
  match l with
  | [] => True
  | a :: rest =>
      match rest with
      | [] => True
      | b :: _ => R a b
      end /\ adjacent R rest
  end.

Definition meets {A : Type} (R : A -> A -> Prop) (l1 l2 : list A) : Prop :=
  match last l1, head l2 with
  | Some a, Some b => R a b
  | _, _ => True
  end.

Lemma adjacent_app {A : Type} (R : A -> A -> Prop) (l1 l2 : list A) :
  adjacent R (l1 ++ l2) <-> adjacent R l1 /\ adjacent R l2 /\ meets R l1 l2.
Proof.
  induction l1 as [|a l1 IH]; simpl.
  - unfold meets. simpl. tauto.
  - destruct l1 as [|b l1]; simpl in *.
    + unfold meets. simpl. destruct l2; simpl; tauto.
    + unfold meets in *. simpl in *. tauto.
Qed.

Definition consistent (tileOffset : Z) (gs : list Group.t) : Prop :=
  adjacent (ok_pair tileOffset) gs.

Lemma created_for_mark tileOffset g : created_for tileOffset (mark tileOffset g) = true.
Proof.
  unfold created_for, mark. simpl. rewrite existsb_app. simpl.
  rewrite Z.eqb_refl. by rewrite orb_true_r.
Qed.

Lemma created_for_mark_other tileOffset other g :
  other <> tileOffset ->
  created_for other (mark tileOffset g) = created_for other g.
Proof.
  intros Hne. unfold created_for, mark. simpl. rewrite existsb_app. simpl.
  apply Z.eqb_neq in Hne. rewrite Hne. simpl. by rewrite orb_false_r.
Qed.

Lemma created_for_mark_mono tileOffset other g :
  created_for other g = true -> created_for other (mark tileOffset g) = true.
Proof.
  intros H. unfold created_for, mark in *. simpl. rewrite existsb_app, H.
  reflexivity.
Qed.

(** In a run that merges with an uncreated first group, no group is
    created, when the marks are consistent. *)
Lemma merges_with_uncreated tileOffset first run rest e' :
  consistent tileOffset (first :: run ++ rest) ->
  created_for tileOffset first = false ->
  merges_with (Group.technique first)
    (Group.start first + Group.count first) run e' ->
  Forall (fun g => created_for tileOffset g = false) run.
Proof.
  revert first. induction run as [|next run IH]; intros first Hc Hfirst Hm.
  - constructor.
  - inversion Hm as [|e next' run' e'' Ht Hs Hrest]; subst.
    simpl in Hc. destruct Hc as [Hpair Hc].
    assert (Hnext : created_for tileOffset next = false).
    { destruct (created_for tileOffset next) eqn:Hn; [|done].
      rewrite Hpair in Hfirst; [done| |done]. split; [done|]. by symmetry. }
    constructor; [done|].
    apply (IH next); [exact Hc|exact Hnext|].
    rewrite Ht, Hs. exact Hrest.
Qed.

(** Where a merged run ends: at the end of its last group. *)
Lemma merges_with_last first run e' :
  merges_with (Group.technique first)
    (Group.start first + Group.count first) run e' ->
  exists z, last (first :: run) = Some z /\
            Group.technique z = Group.technique first /\
            (Group.start z + Group.count z)%Z = e'.
Proof.
  revert first. induction run as [|next run IH]; intros first Hm.
  - inversion Hm; subst. by exists first.
  - inversion Hm as [|e next' run' e'' Ht Hs Hrest]; subst.
    destruct (IH next) as (z & Hz & Htz & Hez).
    { rewrite Ht, Hs. exact Hrest. }
    exists z. split; [|split; [congruence|done]].
    rewrite last_cons. simpl in Hz. by rewrite Hz.
Qed.

(** *** What the loop logs *)

(** Events of the handler or legacy branch for a merged group. *)
Definition from_dispatch (mergedGroup : Group.t) (e : Event) : Prop :=
  match e with
  | Merged _ _ _ _ => False
  | PoolQueried techniqueIndex => techniqueIndex = Group.technique mergedGroup
  | CreateObjectCalled _ gi mg => gi = geometryIndex /\ mg = mergedGroup
  | LegacyObjectCreated _ gi mg => gi = geometryIndex /\ mg = mergedGroup
  end.

(** The merged groups a log announces, and the merged groups it creates
    objects for, in order. *)
Definition span_of (e : Event) : option (nat * Group.t) :=
  match e with
  | Merged gi _ _ mg => Some (gi, mg)
  | _ => None
  end.

Definition creation_of (e : Event) : option (nat * Group.t) :=
  match e with
  | CreateObjectCalled _ gi mg | LegacyObjectCreated _ gi mg => Some (gi, mg)
  | _ => None
  end.

Definition spans (log : list Event) : list (nat * Group.t) := omap span_of log.
Definition creations (log : list Event) : list (nat * Group.t) := omap creation_of log.

Lemma dispatch_events group technique mergedGroup p p2 c :
  dispatch tile context geometryIndex srcGeometry group technique mergedGroup p
    = (p2, c) ->
  exists evs,
    events p2 = events p ++ evs /\
    Forall (from_dispatch mergedGroup) evs /\
    (creations evs = [] \/ creations evs = [(geometryIndex, mergedGroup)]).
Proof.
  unfold dispatch.
  destruct (techniqueHandlers p !! Group.technique mergedGroup) as [h|] eqn:Hcache.
  - destruct (Pool.handlers (pool p) !! h) as [handler|].
    + intros [= <- <-]. simpl. eexists. split; [reflexivity|].
      split; [repeat constructor|by right].
    + intros [= <- <-]. exists []. split; [by rewrite app_nil_r|].
      split; [constructor|by left].
  - destruct (Pool.canHandle registry technique).
    + destruct (Pool.getTechniqueHandler _ _ _ _ _ _)
        as [[h|unknown|member] pool'].
      * simpl. destruct (Pool.handlers pool' !! h) as [handler|].
        -- intros [= <- <-]. simpl. exists [PoolQueried (Group.technique mergedGroup);
             CreateObjectCalled h geometryIndex mergedGroup].
           split; [by rewrite <- app_assoc|].
           split; [repeat constructor|by right].
        -- intros [= <- <-]. simpl. eexists. split; [reflexivity|].
           split; [repeat constructor|by left].
      * intros [= <- <-]. simpl. eexists. split; [reflexivity|].
        split; [repeat constructor|by left].
      * intros [= <- <-]. simpl. eexists. split; [reflexivity|].
        split; [repeat constructor|by left].
    + destruct (hasObjectConstructor technique).
      2:{ intros [= <- <-]. exists []. split; [by rewrite app_nil_r|].
          split; [constructor|by left]. }
      destruct (materials p !! Group.technique mergedGroup) as [material|].
      * intros [= <- <-]. simpl. eexists. split; [reflexivity|].
        split; [repeat constructor|by right].
      * destruct (createMaterial technique) as [material|].
        -- intros [= <- <-]. simpl. eexists. split; [reflexivity|].
           split; [repeat constructor|by right].
        -- intros [= <- <-]. exists []. split; [by rewrite app_nil_r|].
           split; [constructor|by left].
Qed.

Lemma from_dispatch_no_span mergedGroup evs :
  Forall (from_dispatch mergedGroup) evs -> spans evs = [].
Proof.
  induction 1 as [|e evs He _ IH]; [done|].
  unfold spans in *. destruct e; simpl in *; done.
Qed.

(** The [Merged] events of a log come in the order of the groups: each
    covers groups after the ones the previous covered, in the same
    geometry or a later one. *)
Definition not_before (gi0 base gi firstGroup : nat) : Prop :=
  gi0 < gi \/ (gi0 = gi /\ base <= firstGroup).

Fixpoint ordered (gi0 base : nat) (log : list Event) : Prop :=
  match log with
  | [] => True
  | Merged gi firstGroup covered _ :: rest =>
      not_before gi0 base gi firstGroup /\ ordered gi (firstGroup + covered) rest
  | _ :: rest => ordered gi0 base rest
  end.

Lemma ordered_from gi0 base gi1 base1 log :
  not_before gi0 base gi1 base1 -> ordered gi1 base1 log -> ordered gi0 base log.
Proof.
  intros Hnb. induction log as [|e log IH]; simpl; [done|].
  destruct e; try done. intros [Hnb' Ho]. split; [|done].
  unfold not_before in *. lia.
Qed.

Lemma ordered_after_dispatch mergedGroup gi0 base evs log :
  Forall (from_dispatch mergedGroup) evs ->
  ordered gi0 base log -> ordered gi0 base (evs ++ log).
Proof.
  induction 1 as [|e evs He _ IH]; simpl; [done|].
  intros Ho. destruct e; try done; by apply IH.
Qed.


(** A [Merged] event tells the truth about the groups.  With the loop
    [base] groups into the list, [ahead] still to visit and [final] the
    list the loop ends with: the groups the event covers are a first group
    that was not created for the tile's offset and whose technique was not
    rejected, followed by a run that merges with it and ends where merging
    must stop; the merged group is the first group's start and technique
    with the sum of the counts; and in the end all covered groups carry the
    mark of the tile's offset. *)
Definition describes (base : nat) (ahead final : list Group.t) (e : Event) : Prop :=
  match e with
  | Merged gi firstGroup covered mergedGroup =>
      gi = geometryIndex /\ base <= firstGroup /\
      exists first run,
        take covered (drop (firstGroup - base) ahead) = first :: run /\
        covered = S (length run) /\
        created_for (offset tile) first = false /\
        (exists technique,
           decoded_techniques !! Group.technique first = Some technique /\
           rejected techniqueFilter technique = false) /\
        mergedGroup =
          merged_group first (Group.count first + sum_counts run)%Z /\
        merges_with (Group.technique first)
          (Group.start first + Group.count first) run
          (Group.start first + (Group.count first + sum_counts run)) /\
        stops_at (Group.technique first)
          (Group.start first + (Group.count first + sum_counts run))
          (drop (firstGroup - base + covered) ahead) /\
        take covered (drop firstGroup final) = mark (offset tile) <$> (first :: run)
  | _ => True
  end.

(** Every object creation is for a merged group of the same call. *)
Definition backed (log : list Event) (e : Event) : Prop :=
  match e with
  | CreateObjectCalled _ gi mg | LegacyObjectCreated _ gi mg =>
      exists firstGroup covered, Merged gi firstGroup covered mg ∈ log
  | _ => True
  end.

Lemma describes_later prefix base ahead final e :
  describes (base + length prefix) ahead final e ->
  describes base (prefix ++ ahead) final e.
Proof.
  destruct e as [gi firstGroup covered mg| | |]; simpl; try done.
  intros (Hgi & Hbase & first & run & Htake & Hcov & Hrest).
  split; [done|]. split; [lia|]. exists first, run.
  rewrite !drop_app_ge by lia.
  replace (firstGroup - base - length prefix)
    with (firstGroup - (base + length prefix)) by lia.
  replace (firstGroup - base + covered - length prefix)
    with (firstGroup - (base + length prefix) + covered) by lia.
  done.
Qed.

Lemma backed_more log1 log2 e : backed log2 e -> backed (log1 ++ log2) e.
Proof.
  destruct e; simpl; try done;
    intros (firstGroup & covered & Hin); exists firstGroup, covered;
    apply elem_of_app; by right.
Qed.

(** The group before the loop position is created or has a rejected
    technique, if it could be merged with the group at the position. *)
Definition settled_before (d r0 : Group.t) : Prop :=
  mergeable d r0 ->
  created_for (offset tile) d = true \/
  exists technique,
    decoded_techniques !! Group.technique d = Some technique /\
    rejected techniqueFilter technique = true.

Lemma adjacent_all_created gs :
  Forall (fun g => created_for (offset tile) g = true) gs ->
  consistent (offset tile) gs.
Proof.
  induction 1 as [|g gs Hg Hgs IH]; simpl; [done|].
  split; [|exact IH]. destruct gs; [done|]. by intros _ _.
Qed.

Lemma mergeable_mark_l tileOffset g g' :
  mergeable (mark tileOffset g) g' <-> mergeable g g'.
Proof. reflexivity. Qed.

Lemma mergeable_mark_r tileOffset g g' :
  mergeable g (mark tileOffset g') <-> mergeable g g'.
Proof. reflexivity. Qed.

(** Marking a first group and the run merged with it keeps the marks
    consistent and leaves the loop at a position where nothing merges. *)
Lemma merge_keeps_consistent visited group run untaken technique e' :
  consistent (offset tile) (visited ++ group :: run ++ untaken) ->
  meets settled_before visited (group :: run ++ untaken) ->
  decoded_techniques !! Group.technique group = Some technique ->
  rejected techniqueFilter technique = false ->
  merges_with (Group.technique group)
    (Group.start group + Group.count group) run e' ->
  stops_at (Group.technique group) e' untaken ->
  let marked := mark (offset tile) group :: (mark (offset tile) <$> run) in
  consistent (offset tile) ((visited ++ marked) ++ untaken) /\
  meets settled_before (visited ++ marked) untaken.
Proof.
  intros Hc Hb Ht Hr Hm Hstop marked.
  apply adjacent_app in Hc. destruct Hc as (Hv & Hrest & Hmeet).
  change (group :: run ++ untaken) with ((group :: run) ++ untaken) in Hrest.
  apply adjacent_app in Hrest. destruct Hrest as (_ & Hu & _).
  destruct (merges_with_last group run e' Hm) as (z & Hz & Htz & Hez).
  assert (Hlast : last (visited ++ marked) = Some (mark (offset tile) z)).
  { rewrite last_app. unfold marked.
    change (mark (offset tile) group :: (mark (offset tile) <$> run))
      with (mark (offset tile) <$> (group :: run)).
    by rewrite fmap_last, Hz. }
  assert (Hnomerge : forall r0, head untaken = Some r0 ->
                                ~ mergeable (mark (offset tile) z) r0).
  { intros r0 Hr0 [Hmt Hms]. destruct untaken as [|r0' untaken']; [done|].
    simpl in Hr0. injection Hr0 as ->. simpl in Hstop, Hmt, Hms.
    destruct Hstop as [Hstop|Hstop]; [apply Hstop; congruence|].
    apply Hstop. lia. }
  split.
  - apply adjacent_app. split; [|split; [exact Hu|]].
    + apply adjacent_app. split; [exact Hv|]. split.
      * apply adjacent_all_created. unfold marked. constructor.
        -- apply created_for_mark.
        -- apply Forall_fmap. apply Forall_forall. intros g _. simpl.
           apply created_for_mark.
      * unfold meets in *. simpl in *.
        destruct (last visited) as [d|]; [|done].
        intros Hmg _. destruct (Hb Hmg) as [Hd|(t' & Ht' & Hr')]; [done|].
        destruct Hmg as [Hsame _]. simpl in Hsame.
        rewrite <- Hsame, Ht in Ht'. injection Ht' as <-. congruence.
    + unfold meets. rewrite Hlast.
      destruct (head untaken) as [r0|] eqn:Hr0; [|done].
      intros Hmg. by destruct (Hnomerge r0 eq_refl).
  - unfold meets. rewrite Hlast.
    destruct (head untaken) as [r0|] eqn:Hr0; [|done].
    intros Hmg. by destruct (Hnomerge r0 eq_refl).
Qed.

Lemma skip_keeps_settled visited group following :
  created_for (offset tile) group = true \/
  (exists technique,
     decoded_techniques !! Group.technique group = Some technique /\
     rejected techniqueFilter technique = true) ->
  meets settled_before (visited ++ [group]) following.
Proof.
  intros H. unfold meets. rewrite last_snoc.
  destruct (head following); [|done]. by intros _.
Qed.

(** The loop leaves the groups it has visited as they are, and each group
    ahead either as it is or with the mark of the tile's offset added. *)
Definition marked_or_same (g g' : Group.t) : Prop :=
  g' = g \/ g' = mark (offset tile) g.

Lemma marked_or_same_refl gs : Forall2 marked_or_same gs gs.
Proof. apply Forall2_same_length_lookup. split; [done|].
  intros i x y Hx Hy. left. congruence. Qed.

Lemma marked_or_same_marked gs :
  Forall2 marked_or_same gs (mark (offset tile) <$> gs).
Proof.
  induction gs as [|g gs IH]; simpl; constructor; [by right|exact IH].
Qed.

Lemma loop_keeps_visited visited ahead p r :
  loop visited ahead p r ->
  exists ahead', r.1.1 = visited ++ ahead' /\ Forall2 marked_or_same ahead ahead'.
Proof.
  induction 1 as
    [visited p
    |visited group following p r Hcreated _ IH
    |visited group following p Hcreated Htechnique
    |visited group following p r technique Hcreated Htechnique Hrejected _ IH
    |visited group following p technique count taken untaken p2
       Hcreated Htechnique Hrejected Hcompress Hdispatch
    |visited group following p technique count taken untaken p2 r
       Hcreated Htechnique Hrejected Hcompress Hdispatch _ IH]; simpl.
  - exists []. by rewrite app_nil_r.
  - destruct IH as (ahead' & -> & Hsame). exists (group :: ahead').
    split; [by rewrite <- app_assoc|]. constructor; [by left|done].
  - eexists. split; [reflexivity|apply marked_or_same_refl].
  - destruct IH as (ahead' & -> & Hsame). exists (group :: ahead').
    split; [by rewrite <- app_assoc|]. constructor; [by left|done].
  - destruct (compress_split _ _ _ _ _ _ _ _ Hcompress) as (run & -> & ->).
    exists (mark (offset tile) group :: (mark (offset tile) <$> run) ++ untaken).
    split; [by rewrite <- app_assoc|].
    constructor; [by right|]. apply Forall2_app;
      [apply marked_or_same_marked|apply marked_or_same_refl].
  - destruct (compress_split _ _ _ _ _ _ _ _ Hcompress) as (run & -> & ->).
    destruct IH as (ahead' & -> & Hsame).
    exists (mark (offset tile) group :: (mark (offset tile) <$> run) ++ ahead').
    split; [by rewrite <- !app_assoc|].
    constructor; [by right|]. apply Forall2_app;
      [apply marked_or_same_marked|exact Hsame].
Qed.

Lemma merged_event_describes visited group run untaken technique count rest :
  created_for (offset tile) group = false ->
  decoded_techniques !! Group.technique group = Some technique ->
  rejected techniqueFilter technique = false ->
  merges_with (Group.technique group)
    (Group.start group + Group.count group) run (Group.start group + count) ->
  stops_at (Group.technique group) (Group.start group + count) untaken ->
  describes (length visited) (group :: run ++ untaken)
    ((visited ++ mark (offset tile) group :: (mark (offset tile) <$> run)) ++ rest)
    (Merged geometryIndex (length visited)
       (S (length (mark (offset tile) <$> run))) (merged_group group count)).
Proof.
  intros Hcreated Htechnique Hrejected Hm Hstop.
  pose proof (merges_with_total _ _ _ _ Hm) as Htotal.
  assert (Hcount : count = (Group.count group + sum_counts run)%Z) by lia.
  simpl. split; [done|]. split; [done|].
  exists group, run. rewrite Nat.sub_diag, length_fmap. simpl.
  rewrite take_app_length, drop_app_length.
  split; [done|]. split; [done|]. split; [done|].
  split; [by exists technique|].
  rewrite <- Hcount. split; [done|]. split; [done|]. split; [done|].
  rewrite <- app_assoc, drop_app_length. simpl.
  rewrite <- (length_fmap (mark (offset tile)) run).
  by rewrite take_app_length.
Qed.

Lemma from_dispatch_describes mergedGroup base ahead final e :
  from_dispatch mergedGroup e -> describes base ahead final e.
Proof. by destruct e. Qed.

Lemma from_dispatch_backed mergedGroup firstGroup covered log e :
  from_dispatch mergedGroup e ->
  backed (Merged geometryIndex firstGroup covered mergedGroup :: log) e.
Proof.
  destruct e as [| |h gi mg|i gi mg]; simpl; try done;
    intros [-> ->]; exists firstGroup, covered; apply list_elem_of_here.
Qed.

(** The log of a merge step followed by the log of the rest of the loop. *)
Lemma merge_step_log visited group run untaken technique count evs new rest :
  created_for (offset tile) group = false ->
  decoded_techniques !! Group.technique group = Some technique ->
  rejected techniqueFilter technique = false ->
  merges_with (Group.technique group)
    (Group.start group + Group.count group) run (Group.start group + count) ->
  stops_at (Group.technique group) (Group.start group + count) untaken ->
  Forall (from_dispatch (merged_group group count)) evs ->
  let visited' :=
    visited ++ mark (offset tile) group :: (mark (offset tile) <$> run) in
  Forall (describes (length visited') untaken (visited' ++ rest)) new ->
  Forall (backed new) new ->
  let log :=
    Merged geometryIndex (length visited)
      (S (length (mark (offset tile) <$> run))) (merged_group group count)
    :: evs ++ new in
  Forall (describes (length visited) (group :: run ++ untaken) (visited' ++ rest))
    log /\
  Forall (backed log) log.
Proof.
  intros Hcreated Htechnique Hrejected Hm Hstop Hevs visited' Hdesc Hback log.
  split.
  - constructor; [by eapply merged_event_describes|].
    apply Forall_app. split.
    + eapply Forall_impl; [exact Hevs|]. intros e.
      apply from_dispatch_describes.
    + eapply Forall_impl; [exact Hdesc|]. intros e He.
      apply (describes_later (group :: run)).
      unfold visited' in He.
      rewrite length_app in He. simpl in *. rewrite length_fmap in He.
      exact He.
  - constructor; [done|]. apply Forall_app. split.
    + eapply Forall_impl; [exact Hevs|]. intros e.
      apply from_dispatch_backed.
    + eapply Forall_impl; [exact Hback|]. intros e He.
      apply (backed_more (_ :: evs)). exact He.
Qed.

Lemma merge_step_order visited group run count evs new :
  Forall (from_dispatch (merged_group group count)) evs ->
  creations evs = [] \/
  creations evs = [(geometryIndex, merged_group group count)] ->
  ordered geometryIndex
    (length (visited ++ mark (offset tile) group :: (mark (offset tile) <$> run)))
    new ->
  creations new `sublist_of` spans new ->
  let log :=
    Merged geometryIndex (length visited)
      (S (length (mark (offset tile) <$> run))) (merged_group group count)
    :: evs ++ new in
  ordered geometryIndex (length visited) log /\
  creations log `sublist_of` spans log.
Proof.
  intros Hevs Hcr Ho Hsub log. split.
  - simpl. split; [right; done|].
    eapply ordered_after_dispatch; [exact Hevs|].
    rewrite length_app in Ho. simpl in Ho. exact Ho.
  - unfold log, creations, spans in *. simpl.
    rewrite !omap_app.
    change (omap span_of evs) with (spans evs).
    rewrite (from_dispatch_no_span _ _ Hevs). simpl.
    destruct Hcr as [-> | ->]; simpl.
    + by apply sublist_cons.
    + by apply sublist_skip.
Qed.

(** The log of the loop: it extends the log it started with, every
    [Merged] event describes the groups, the [Merged] events come in the
    order of the groups, every object creation is for a merged group, and
    the merged groups for which objects are created are, in order, among
    the announced ones (so no merged group gets objects twice). *)
Lemma loop_log visited ahead p r :
  loop visited ahead p r ->
  exists new,
    events r.1.2 = events p ++ new /\
    Forall (describes (length visited) ahead r.1.1) new /\
    Forall (backed new) new /\
    ordered geometryIndex (length visited) new /\
    creations new `sublist_of` spans new.
Proof.
  induction 1 as
    [visited p
    |visited group following p r Hcreated _ IH
    |visited group following p Hcreated Htechnique
    |visited group following p r technique Hcreated Htechnique Hrejected _ IH
    |visited group following p technique count taken untaken p2
       Hcreated Htechnique Hrejected Hcompress Hdispatch
    |visited group following p technique count taken untaken p2 r
       Hcreated Htechnique Hrejected Hcompress Hdispatch Hloop IH]; simpl.
  - exists []. rewrite app_nil_r. repeat split; constructor.
  - destruct IH as (new & Hev & Hdesc & Hback & Hord & Hsub).
    exists new. split; [done|]. split; [|split; [done|split; [|done]]].
    + eapply Forall_impl; [exact Hdesc|]. intros e He.
      apply (describes_later [group]). rewrite length_app in He. exact He.
    + eapply ordered_from; [|exact Hord]. right.
      rewrite length_app. simpl. lia.
  - exists []. rewrite app_nil_r. repeat split; constructor.
  - destruct IH as (new & Hev & Hdesc & Hback & Hord & Hsub).
    exists new. split; [done|]. split; [|split; [done|split; [|done]]].
    + eapply Forall_impl; [exact Hdesc|]. intros e He.
      apply (describes_later [group]). rewrite length_app in He. exact He.
    + eapply ordered_from; [|exact Hord]. right.
      rewrite length_app. simpl. lia.
  - destruct (compress_run _ _ _ _ _ _ _ _ Hcompress)
      as (run & -> & -> & Hm & Hstop).
    destruct (dispatch_events _ _ _ _ _ _ Hdispatch) as (evs & Hev & Hevs & Hcr).
    simpl in Hev.
    destruct (merge_step_log visited group run untaken technique count evs []
                untaken Hcreated Htechnique Hrejected Hm Hstop Hevs
                ltac:(constructor) ltac:(constructor)) as [Hdesc Hback].
    destruct (merge_step_order visited group run count evs [] Hevs Hcr
                I ltac:(constructor)) as [Hord Hsub].
    rewrite app_nil_r in Hdesc, Hback, Hord, Hsub.
    eexists. split; [|split; [exact Hdesc|split; [exact Hback|by split]]].
    by rewrite Hev, <- app_assoc.
  - destruct (compress_run _ _ _ _ _ _ _ _ Hcompress)
      as (run & -> & -> & Hm & Hstop).
    destruct IH as (new & Hev' & Hdesc' & Hback' & Hord' & Hsub').
    destruct (loop_keeps_visited _ _ _ _ Hloop) as (rest & Hfinal & _).
    destruct (dispatch_events _ _ _ _ _ _ Hdispatch) as (evs & Hev & Hevs & Hcr).
    simpl in Hev. rewrite Hfinal in Hdesc' |- *.
    destruct (merge_step_log visited group run untaken technique count evs new
                rest Hcreated Htechnique Hrejected Hm Hstop Hevs Hdesc' Hback')
      as [Hdesc Hback].
    destruct (merge_step_order visited group run count evs new Hevs Hcr
                Hord' Hsub') as [Hord Hsub].
    eexists. split; [|split; [exact Hdesc|split; [exact Hback|by split]]].
    rewrite Hev', Hev, <- !app_assoc. reflexivity.
Qed.

(** The loop keeps the marks consistent. *)
Lemma loop_consistent visited ahead p r :
  loop visited ahead p r ->
  consistent (offset tile) (visited ++ ahead) ->
  meets settled_before visited ahead ->
  consistent (offset tile) r.1.1.
Proof.
  induction 1 as
    [visited p
    |visited group following p r Hcreated _ IH
    |visited group following p Hcreated Htechnique
    |visited group following p r technique Hcreated Htechnique Hrejected _ IH
    |visited group following p technique count taken untaken p2
       Hcreated Htechnique Hrejected Hcompress Hdispatch
    |visited group following p technique count taken untaken p2 r
       Hcreated Htechnique Hrejected Hcompress Hdispatch _ IH];
    intros Hc Hb; simpl.
  - by rewrite app_nil_r in Hc.
  - apply IH; [by rewrite <- app_assoc|]. apply skip_keeps_settled. by left.
  - done.
  - apply IH; [by rewrite <- app_assoc|]. apply skip_keeps_settled.
    right. by exists technique.
  - destruct (compress_run _ _ _ _ _ _ _ _ Hcompress)
      as (run & -> & -> & Hm & Hstop).
    by destruct (merge_keeps_consistent visited group run untaken technique _
                   Hc Hb Htechnique Hrejected Hm Hstop).
  - destruct (compress_run _ _ _ _ _ _ _ _ Hcompress)
      as (run & -> & -> & Hm & Hstop).
    destruct (merge_keeps_consistent visited group run untaken technique _
                Hc Hb Htechnique Hrejected Hm Hstop) as [Hc' Hb'].
    by apply IH.
Qed.

(** A group that the loop will pass over: created for the offset already,
    or of a rejected technique. *)
Definition settled (g : Group.t) : Prop :=
  created_for (offset tile) g = true \/
  exists technique,
    decoded_techniques !! Group.technique g = Some technique /\
    rejected techniqueFilter technique = true.

Lemma settled_mark g : settled (mark (offset tile) g).
Proof. left. apply created_for_mark. Qed.

(** After a loop that ended normally, every group is settled ... *)
Lemma loop_settles visited ahead p r :
  loop visited ahead p r ->
  r.2 = Normal ->
  Forall settled visited ->
  Forall settled r.1.1.
Proof.
  induction 1 as
    [visited p
    |visited group following p r Hcreated _ IH
    |visited group following p Hcreated Htechnique
    |visited group following p r technique Hcreated Htechnique Hrejected _ IH
    |visited group following p technique count taken untaken p2
       Hcreated Htechnique Hrejected Hcompress Hdispatch
    |visited group following p technique count taken untaken p2 r
       Hcreated Htechnique Hrejected Hcompress Hdispatch _ IH];
    simpl; intros Hn Hv; try done.
  - apply IH; [done|]. apply Forall_app. split; [done|].
    constructor; [by left|constructor].
  - apply IH; [done|]. apply Forall_app. split; [done|].
    constructor; [|constructor]. right. by exists technique.
  - destruct (compress_split _ _ _ _ _ _ _ _ Hcompress) as (run & -> & ->).
    apply IH; [done|]. apply Forall_app. split; [done|].
    constructor; [apply settled_mark|].
    apply Forall_fmap, Forall_forall. intros g _. apply settled_mark.
Qed.

(** ... and a loop over settled groups does nothing at all. *)
Lemma loop_over_settled visited ahead p r :
  loop visited ahead p r ->
  Forall settled ahead ->
  r = (visited ++ ahead, p, Normal).
Proof.
  induction 1 as
    [visited p
    |visited group following p r Hcreated _ IH
    |visited group following p Hcreated Htechnique
    |visited group following p r technique Hcreated Htechnique Hrejected _ IH
    |visited group following p technique count taken untaken p2
       Hcreated Htechnique Hrejected Hcompress Hdispatch
    |visited group following p technique count taken untaken p2 r
       Hcreated Htechnique Hrejected Hcompress Hdispatch _ IH];
    intros Hs.
  - by rewrite app_nil_r.
  - inversion Hs; subst. rewrite IH by done. by rewrite <- app_assoc.
  - inversion Hs as [|g gs [Hg|(t & Ht & _)] _]; subst; congruence.
  - inversion Hs; subst. rewrite IH by done. by rewrite <- app_assoc.
  - inversion Hs as [|g gs [Hg|(t & Ht & Hr)] _]; subst; congruence.
  - inversion Hs as [|g gs [Hg|(t & Ht & Hr)] _]; subst; congruence.
Qed.

End Loop.

(** *** From one geometry to the decoded tile *)

(** What a [Merged] event says, read against the geometries before and
    after the call; [base] is the position of the first of them in the
    decoded tile. *)
Definition tells (tile : Tile) (decoded_techniques : list Technique)
    (techniqueFilter : option (Technique -> bool)) (base : nat)
    (before after : list Geometry) (e : Event) : Prop :=
  match e with
  | Merged gi _ _ _ =>
      base <= gi /\
      exists srcGeometry srcGeometry',
        before !! (gi - base) = Some srcGeometry /\
        after !! (gi - base) = Some srcGeometry' /\
        describes tile decoded_techniques techniqueFilter gi 0
          (groups srcGeometry) (groups srcGeometry') e
  | _ => True
  end.

Lemma backed_less log1 log2 e : backed log1 e -> backed (log1 ++ log2) e.
Proof.
  destruct e; simpl; try done;
    intros (firstGroup & covered & Hin); exists firstGroup, covered;
    apply elem_of_app; by left.
Qed.

Lemma ordered_next_geometry tile decoded_techniques techniqueFilter gi base
    ahead final log1 log2 :
  Forall (describes tile decoded_techniques techniqueFilter gi 0 ahead final) log1 ->
  ordered gi base log1 ->
  ordered (S gi) 0 log2 ->
  ordered gi base (log1 ++ log2).
Proof.
  intros Hdesc. revert base.
  induction Hdesc as [|e log1 He _ IH]; intros base Ho1 Ho2; simpl.
  - eapply ordered_from; [|exact Ho2]. left. lia.
  - destruct e as [gi' firstGroup covered mg| | |]; simpl in *;
      try (by apply IH).
    destruct He as (-> & _). destruct Ho1 as [Hnb Ho1].
    split; [done|]. by apply IH.
Qed.

Lemma visit_geometries_log tile context decoded_techniques techniqueFilter
    gi remaining p remaining' p' c :
  visit_geometries tile context decoded_techniques techniqueFilter gi
    remaining p = (remaining', p', c) ->
  exists new,
    events p' = events p ++ new /\
    Forall (tells tile decoded_techniques techniqueFilter gi remaining remaining') new /\
    Forall (backed new) new /\
    ordered gi 0 new /\
    creations new `sublist_of` spans new.
Proof.
  revert gi p remaining' p' c.
  induction remaining as [|srcGeometry more IH]; intros gi p remaining' p' c;
    simpl.
  - intros [= <- <- <-]. exists []. rewrite app_nil_r.
    repeat split; constructor.
  - pose proof (visit_groups_loop tile context decoded_techniques
                  techniqueFilter gi srcGeometry (length (groups srcGeometry))
                  [] (groups srcGeometry) p (le_n _)) as Hloop.
    destruct (visit_groups _ _ _ _ _ _ _ _ _ _) as [[groups' p1] c1].
    destruct (loop_log _ _ _ _ _ _ _ _ _ _ Hloop)
      as (new1 & Hev1 & Hdesc1 & Hback1 & Hord1 & Hsub1).
    simpl in Hev1, Hdesc1, Hord1.
    assert (Htells1 : forall more',
              Forall (tells tile decoded_techniques techniqueFilter gi
                        (srcGeometry :: more)
                        (with_groups srcGeometry groups' :: more')) new1).
    { intros more'. eapply Forall_impl; [exact Hdesc1|]. intros e He.
      destruct e as [gi' firstGroup covered mg| | |]; simpl; try done.
      pose proof He as (-> & _). split; [done|].
      rewrite Nat.sub_diag. simpl. eauto. }
    destruct c1.
    + destruct (visit_geometries _ _ _ _ _ more p1) as [[more' p2] c2] eqn:Hrest.
      intros [= <- <- <-].
      destruct (IH _ _ _ _ _ Hrest) as (new2 & Hev2 & Htells2 & Hback2 & Hord2 & Hsub2).
      exists (new1 ++ new2).
      split; [by rewrite Hev2, Hev1, <- app_assoc|].
      split; [|split; [|split]].
      * apply Forall_app. split; [apply Htells1|].
        eapply Forall_impl; [exact Htells2|]. intros e He.
        destruct e as [gi' firstGroup covered mg| | |]; simpl in *; try done.
        destruct He as (Hle & g1 & g2 & Hg1 & Hg2 & Hd).
        split; [lia|]. exists g1, g2.
        replace (gi' - gi) with (S (gi' - S gi)) by lia. done.
      * apply Forall_app. split.
        -- eapply Forall_impl; [exact Hback1|]. intros e. apply backed_less.
        -- eapply Forall_impl; [exact Hback2|]. intros e. apply backed_more.
      * eapply ordered_next_geometry; done.
      * unfold creations, spans in *. rewrite !omap_app.
        by apply sublist_app.
    + intros [= <- <- <-]. exists new1.
      split; [done|]. split; [apply Htells1|]. done.
Qed.

(** *** Consistent marks, for the decoded tile *)

Definition consistent_geometries (tileOffset : Z) (gs : list Geometry) : Prop :=
  Forall (fun g => consistent tileOffset (groups g)) gs.

Lemma visit_geometries_consistent tile context decoded_techniques
    techniqueFilter gi remaining p remaining' p' c :
  visit_geometries tile context decoded_techniques techniqueFilter gi
    remaining p = (remaining', p', c) ->
  consistent_geometries (offset tile) remaining ->
  consistent_geometries (offset tile) remaining'.
Proof.
  revert gi p remaining' p' c.
  induction remaining as [|srcGeometry more IH]; intros gi p remaining' p' c;
    simpl.
  - by intros [= <- <- <-].
  - intros Hrun Hc. inversion Hc as [|g gs Hg Hmore]; subst.
    pose proof (visit_groups_loop tile context decoded_techniques
                  techniqueFilter gi srcGeometry (length (groups srcGeometry))
                  [] (groups srcGeometry) p (le_n _)) as Hloop.
    destruct (visit_groups _ _ _ _ _ _ _ _ _ _) as [[groups' p1] c1].
    pose proof (loop_consistent _ _ _ _ _ _ _ _ _ _ Hloop Hg I) as Hg'.
    simpl in Hg'.
    destruct c1.
    + destruct (visit_geometries _ _ _ _ _ more p1) as [[more' p2] c2] eqn:Hrest.
      injection Hrun as <- <- <-. constructor; [done|]. by eapply IH.
    + injection Hrun as <- <- <-. by constructor.
Qed.

Definition same_but_marks (tile : Tile) (g g' : Geometry) : Prop :=
  Forall2 (marked_or_same tile) (groups g) (groups g').

Lemma visit_geometries_shape tile context decoded_techniques
    techniqueFilter gi remaining p remaining' p' c :
  visit_geometries tile context decoded_techniques techniqueFilter gi
    remaining p = (remaining', p', c) ->
  Forall2 (same_but_marks tile) remaining remaining'.
Proof.
  revert gi p remaining' p' c.
  induction remaining as [|srcGeometry more IH]; intros gi p remaining' p' c;
    simpl.
  - intros [= <- <- <-]. constructor.
  - intros Hrun.
    pose proof (visit_groups_loop tile context decoded_techniques
                  techniqueFilter gi srcGeometry (length (groups srcGeometry))
                  [] (groups srcGeometry) p (le_n _)) as Hloop.
    destruct (visit_groups _ _ _ _ _ _ _ _ _ _) as [[groups' p1] c1].
    destruct (loop_keeps_visited _ _ _ _ _ _ _ _ _ _ Hloop)
      as (ahead' & Hfinal & Hsame).
    simpl in Hfinal. subst groups'.
    destruct c1.
    + destruct (visit_geometries _ _ _ _ _ more p1) as [[more' p2] c2] eqn:Hrest.
      injection Hrun as <- <- <-. constructor; [done|]. by eapply IH.
    + injection Hrun as <- <- <-. constructor; [done|].
      apply Forall2_same_length_lookup. split; [done|].
      intros i x y Hx Hy. assert (x = y) as -> by congruence.
      apply marked_or_same_refl.
Qed.

Lemma adjacent_related {A : Type} (R R' : A -> A -> Prop) (S : A -> A -> Prop)
    (l l' : list A) :
  (forall a b a' b', S a a' -> S b b' -> R a b -> R' a' b') ->
  Forall2 S l l' -> adjacent R l -> adjacent R' l'.
Proof.
  intros HS H. induction H as [|a a' l l' Ha Hl IH]; simpl; [done|].
  intros [Hab Hrest]. split; [|by apply IH].
  destruct Hl as [|b b' l l' Hb _]; [done|]. by eapply HS.
Qed.

Lemma consistent_other_offset tile other gs gs' :
  other <> offset tile ->
  Forall2 (marked_or_same tile) gs gs' ->
  consistent other gs -> consistent other gs'.
Proof.
  intros Hne. apply adjacent_related.
  intros a b a' b' Ha Hb Hok Hm Hcreated.
  assert (Ha' : created_for other a' = created_for other a)
    by (destruct Ha as [->| ->]; [done|by apply created_for_mark_other]).
  assert (Hb' : created_for other b' = created_for other b)
    by (destruct Hb as [->| ->]; [done|by apply created_for_mark_other]).
  rewrite Ha'. apply Hok; [|by rewrite <- Hb'].
  destruct Ha as [->| ->], Hb as [->| ->]; exact Hm.
Qed.

Lemma consistent_uncreated tileOffset gs :
  Forall (fun g => created_for tileOffset g = false) gs ->
  consistent tileOffset gs.
Proof.
  induction 1 as [|g gs Hg Hgs IH]; simpl; [done|].
  split; [|exact IH]. destruct Hgs as [|g' gs' Hg' _]; [done|].
  intros _ Hcreated. congruence.
Qed.

Lemma adjacent_drop {A : Type} (R : A -> A -> Prop) n (l : list A) :
  adjacent R l -> adjacent R (drop n l).
Proof.
  revert l. induction n as [|n IH]; intros l; [by rewrite drop_0|].
  destruct l as [|a l]; [done|]. simpl. intros [_ H]. by apply IH.
Qed.

(** A decoded tile as [createObjects] can find it: the groups start
    without marks ([initDecodedTile] sets [createdOffsets] to an empty
    array), and all later marks are left by calls of [createObjects]; the
    techniques may be restyled in between. *)
Inductive prepared : DecodedTile -> Prop :=
| prepared_init ts gs :
    Forall (fun g => Forall (fun group => Group.createdOffsets group = [])
                       (groups g)) gs ->
    prepared {| techniques := ts; geometries := gs |}
| prepared_restyled decodedTile ts :
    prepared decodedTile ->
    prepared {| techniques := ts; geometries := geometries decodedTile |}
| prepared_pass decodedTile tile context techniqueFilter p :
    prepared decodedTile ->
    prepared (createObjects tile context decodedTile techniqueFilter p).1.1.

Lemma prepared_consistent decodedTile :
  prepared decodedTile ->
  forall tileOffset, consistent_geometries tileOffset (geometries decodedTile).
Proof.
  induction 1 as [ts gs Hinit|decodedTile ts _ IH
                 |decodedTile tile context techniqueFilter p _ IH];
    intros tileOffset; simpl.
  - eapply Forall_impl; [exact Hinit|]. intros g Hg.
    apply consistent_uncreated. eapply Forall_impl; [exact Hg|].
    intros group Hgroup. unfold created_for. by rewrite Hgroup.
  - apply IH.
  - unfold createObjects.
    destruct (visit_geometries _ _ _ _ _ _ _) as [[geometries' p'] c] eqn:Hrun.
    simpl. destruct (decide (tileOffset = offset tile)) as [->|Hne].
    + eapply visit_geometries_consistent; [exact Hrun|apply IH].
    + pose proof (visit_geometries_shape _ _ _ _ _ _ _ _ _ _ Hrun) as Hshape.
      specialize (IH tileOffset). unfold consistent_geometries in *.
      revert IH. clear Hrun. induction Hshape as [|g g' gs gs' Hg _ IHs];
        intros IH; [done|].
      inversion IH; subst. constructor; [|by apply IHs].
      by eapply consistent_other_offset.
Qed.

(** *** A second call for the same offset *)

Definition settled_geometries (tile : Tile) (decoded_techniques : list Technique)
    (techniqueFilter : option (Technique -> bool)) (gs : list Geometry) : Prop :=
  Forall (fun g => Forall (settled tile decoded_techniques techniqueFilter)
                     (groups g)) gs.

Lemma visit_geometries_settles tile context decoded_techniques
    techniqueFilter gi remaining p remaining' p' :
  visit_geometries tile context decoded_techniques techniqueFilter gi
    remaining p = (remaining', p', Normal) ->
  settled_geometries tile decoded_techniques techniqueFilter remaining'.
Proof.
  revert gi p remaining' p'.
  induction remaining as [|srcGeometry more IH]; intros gi p remaining' p';
    simpl.
  - intros [= <- <-]. constructor.
  - intros Hrun.
    pose proof (visit_groups_loop tile context decoded_techniques
                  techniqueFilter gi srcGeometry (length (groups srcGeometry))
                  [] (groups srcGeometry) p (le_n _)) as Hloop.
    destruct (visit_groups _ _ _ _ _ _ _ _ _ _) as [[groups' p1] c1].
    destruct c1; [|done].
    pose proof (loop_settles _ _ _ _ _ _ _ _ _ _ Hloop eq_refl
                  ltac:(constructor)) as Hs.
    destruct (visit_geometries _ _ _ _ _ more p1) as [[more' p2] c2] eqn:Hrest.
    injection Hrun as <- <- ->. constructor; [exact Hs|]. by eapply IH.
Qed.

Lemma with_groups_same g : with_groups g (groups g) = g.
Proof. by destruct g. Qed.

Lemma visit_geometries_over_settled tile context decoded_techniques
    techniqueFilter gi remaining p :
  settled_geometries tile decoded_techniques techniqueFilter remaining ->
  visit_geometries tile context decoded_techniques techniqueFilter gi
    remaining p = (remaining, p, Normal).
Proof.
  intros Hs. revert gi.
  induction Hs as [|srcGeometry more Hg _ IH]; intros gi; simpl; [done|].
  pose proof (visit_groups_loop tile context decoded_techniques
                techniqueFilter gi srcGeometry (length (groups srcGeometry))
                [] (groups srcGeometry) p (le_n _)) as Hloop.
  rewrite (loop_over_settled _ _ _ _ _ _ _ _ _ _ Hloop Hg). simpl.
  rewrite IH. by rewrite with_groups_same.
Qed.

Lemma settled_same_offset tile tile2 decoded_techniques techniqueFilter gs :
  offset tile2 = offset tile ->
  settled_geometries tile decoded_techniques techniqueFilter gs ->
  settled_geometries tile2 decoded_techniques techniqueFilter gs.
Proof.
  intros Ho Hs. eapply Forall_impl; [exact Hs|]. intros g Hg.
  eapply Forall_impl; [exact Hg|]. intros group.
  unfold settled. by rewrite Ho.
Qed.

Lemma ordered_bound gi0 base log i gi firstGroup covered mg :
  ordered gi0 base log ->
  log !! i = Some (Merged gi firstGroup covered mg) ->
  not_before gi0 base gi firstGroup.
Proof.
  revert gi0 base i. induction log as [|e log IH]; intros gi0 base i Ho Hi;
    [done|].
  destruct i as [|i]; simpl in Hi.
  - injection Hi as ->. simpl in Ho. by destruct Ho.
  - destruct e as [gi' f' c' mg'| | |]; simpl in Ho; try (by eapply IH).
    destruct Ho as [Hnb Ho]. specialize (IH _ _ _ Ho Hi).
    unfold not_before in *. lia.
Qed.

Lemma ordered_pairwise gi0 base log i1 i2 gi1 f1 c1 m1 gi2 f2 c2 m2 :
  ordered gi0 base log ->
  i1 < i2 ->
  log !! i1 = Some (Merged gi1 f1 c1 m1) ->
  log !! i2 = Some (Merged gi2 f2 c2 m2) ->
  not_before gi1 (f1 + c1) gi2 f2.
Proof.
  revert gi0 base i1 i2.
  induction log as [|e log IH]; intros gi0 base i1 i2 Ho Hlt H1 H2; [done|].
  destruct i2 as [|i2]; [lia|]. simpl in H2.
  destruct i1 as [|i1]; simpl in H1.
  - injection H1 as ->. simpl in Ho. destruct Ho as [_ Ho].
    by eapply ordered_bound.
  - assert (Hrest : exists g b, ordered g b log).
    { destruct e; simpl in Ho; eauto. destruct Ho as [_ Ho]. eauto. }
    destruct Hrest as (g & b & Hrest).
    eapply (IH g b i1 i2); [done|lia|done|done].
Qed.

(** The cache of handlers by technique index is read by the loop body and
    written nowhere: it is at the end of the call what it was at the
    start. *)
Lemma dispatch_keeps_cache tile context geometryIndex srcGeometry group
    technique mergedGroup p p2 c :
  dispatch tile context geometryIndex srcGeometry group technique mergedGroup p
    = (p2, c) ->
  techniqueHandlers p2 = techniqueHandlers p.
Proof.
  unfold dispatch. intros Hd.
  repeat (case_match; simplify_eq; simpl in *; try done).
Qed.

Lemma loop_keeps_cache tile context decoded_techniques techniqueFilter
    geometryIndex srcGeometry visited ahead p r :
  loop tile context decoded_techniques techniqueFilter geometryIndex
    srcGeometry visited ahead p r ->
  techniqueHandlers r.1.2 = techniqueHandlers p.
Proof.
  induction 1 as
    [visited p
    |visited group following p r Hcreated _ IH
    |visited group following p Hcreated Htechnique
    |visited group following p r technique Hcreated Htechnique Hrejected _ IH
    |visited group following p technique count taken untaken p2
       Hcreated Htechnique Hrejected Hcompress Hdispatch
    |visited group following p technique count taken untaken p2 r
       Hcreated Htechnique Hrejected Hcompress Hdispatch _ IH];
    simpl; try done.
  - by rewrite (dispatch_keeps_cache _ _ _ _ _ _ _ _ _ _ Hdispatch).
  - by rewrite IH, (dispatch_keeps_cache _ _ _ _ _ _ _ _ _ _ Hdispatch).
Qed.

Lemma createObjects_never_fills_cache tile context decodedTile techniqueFilter p :
  techniqueHandlers (createObjects tile context decodedTile techniqueFilter p).1.2
  = techniqueHandlers p.
Proof.
  unfold createObjects.
  generalize 0 as gi. generalize (geometries decodedTile) as remaining.
  intros remaining. revert p.
  induction remaining as [|srcGeometry more IH]; intros p gi; simpl; [done|].
  pose proof (visit_groups_loop tile context (techniques decodedTile)
                techniqueFilter gi srcGeometry (length (groups srcGeometry))
                [] (groups srcGeometry) p (le_n _)) as Hloop.
  apply loop_keeps_cache in Hloop.
  destruct (visit_groups _ _ _ _ _ _ _ _ _ _) as [[groups' p1] c1].
  simpl in Hloop. destruct c1; [|done].
  specialize (IH p1 (S gi)).
  destruct (visit_geometries _ _ _ _ _ more p1) as [[more' p2] c2].
  simpl in *. congruence.
Qed.

(** *** The spans of the specification

    The merging rule in the specification's words, as a function of the
    groups of one geometry, in their order.  A group that is already
    created for the tile's offset, or whose technique is rejected, opens
    no span; any other group opens one, with its start, count and
    technique index.  The span that is open is extended by the next group
    if that group has the span's technique index and starts where the span
    ends ([next.start == current.start + current.count]); otherwise the
    span is complete. *)
Definition continues (span next : Group.t) : bool :=
  Nat.eqb (Group.technique next) (Group.technique span) &&
  (Group.start next =? Group.start span + Group.count span)%Z.

Definition passed_over (tileOffset : Z) (decoded_techniques : list Technique)
    (techniqueFilter : option (Technique -> bool)) (group : Group.t) : bool :=
  created_for tileOffset group ||
  match decoded_techniques !! Group.technique group with
  | Some technique => rejected techniqueFilter technique
  | None => false
  end.

Fixpoint spans_by_spec (tileOffset : Z) (decoded_techniques : list Technique)
    (techniqueFilter : option (Technique -> bool))
    (current : option Group.t) (ahead : list Group.t) : list Group.t :=
  match ahead with
  | [] =>
      match current with
      | Some span => [span]
      | None => []
      end
  | group :: following =>
      let from_group :=
        if passed_over tileOffset decoded_techniques techniqueFilter group
        then spans_by_spec tileOffset decoded_techniques techniqueFilter
               None following
        else spans_by_spec tileOffset decoded_techniques techniqueFilter
               (Some (merged_group group (Group.count group))) following in
      match current with
      | Some span =>
          if continues span group
          then spans_by_spec tileOffset decoded_techniques techniqueFilter
                 (Some (merged_group span
                          (Group.count span + Group.count group)%Z))
                 following
          else span :: from_group
      | None => from_group
      end
  end.

(** The spans of a decoded tile, each with the position of its geometry. *)
Fixpoint tile_spans_by_spec (tileOffset : Z) (decoded_techniques : list Technique)
    (techniqueFilter : option (Technique -> bool))
    (geometryIndex : nat) (remaining : list Geometry) : list (nat * Group.t) :=
  match remaining with
  | [] => []
  | srcGeometry :: more =>
      (pair geometryIndex <$>
         spans_by_spec tileOffset decoded_techniques techniqueFilter None
           (groups srcGeometry)) ++
      tile_spans_by_spec tileOffset decoded_techniques techniqueFilter
        (S geometryIndex) more
  end.

(** Whether the loop body, when it returns, has created an object for a
    merged group with this technique: there is a handler for the
    technique, or an object constructor and a material (cached, or made by
    [createMaterial]). *)
Definition creates (p : Pass) (technique : Technique) (techniqueIndex : nat)
    : bool :=
  match techniqueHandlers p !! techniqueIndex with
  | Some _ => true
  | None => Pool.canHandle registry technique
  end ||
  (hasObjectConstructor technique &&
   match materials p !! techniqueIndex with
   | Some _ => true
   | None =>
       match createMaterial technique with
       | Some _ => true
       | None => false
       end
   end).

Definition gets_object (decoded_techniques : list Technique) (p : Pass)
    (span : nat * Group.t) : bool :=
  match decoded_techniques !! Group.technique span.2 with
  | Some technique => creates p technique (Group.technique span.2)
  | None => false
  end.

Lemma compress_spans tileOffset decoded_techniques techniqueFilter start
    techniqueIndex count following total taken untaken :
  compress tileOffset start techniqueIndex count following
    = (total, taken, untaken) ->
  spans_by_spec tileOffset decoded_techniques techniqueFilter
    (Some {| Group.start := start; Group.count := count;
             Group.technique := techniqueIndex;
             Group.createdOffsets := []; Group.renderOrderOffset := None |})
    following
  = {| Group.start := start; Group.count := total;
       Group.technique := techniqueIndex;
       Group.createdOffsets := []; Group.renderOrderOffset := None |}
    :: spans_by_spec tileOffset decoded_techniques techniqueFilter None untaken.
Proof.
  revert count total taken untaken.
  induction following as [|next later IH]; intros count total taken untaken.
  - simpl. by intros [= <- <- <-].
  - cbn [compress spans_by_spec]. unfold continues. cbn [Group.technique
      Group.start Group.count]. rewrite (Z.eqb_sym (Group.start next)).
    destruct (Nat.eqb _ _); cbn [andb]; [|by intros [= <- <- <-]].
    destruct (_ =? _)%Z; [|by intros [= <- <- <-]].
    destruct (compress _ _ _ _ later) as [[total' taken'] untaken'] eqn:Hc.
    intros [= <- <- <-]. exact (IH _ _ _ _ Hc).
Qed.

Lemma dispatch_creations tile context geometryIndex srcGeometry group
    technique mergedGroup p p2 :
  dispatch tile context geometryIndex srcGeometry group technique mergedGroup p
    = (p2, Normal) ->
  creations (events p2) =
  creations (events p) ++
  (if creates p technique (Group.technique mergedGroup)
   then [(geometryIndex, mergedGroup)] else []).
Proof.
  unfold dispatch, creates, creations. intros Hd.
  repeat (case_match; simplify_eq; simpl in *; try done);
    rewrite ?omap_app; simpl; by rewrite ?app_nil_r.
Qed.

Lemma dispatch_same_choice decoded_techniques tile context geometryIndex
    srcGeometry group technique mergedGroup p p2 c :
  decoded_techniques !! Group.technique mergedGroup = Some technique ->
  dispatch tile context geometryIndex srcGeometry group technique mergedGroup p
    = (p2, c) ->
  forall span, gets_object decoded_techniques p2 span
               = gets_object decoded_techniques p span.
Proof.
  intros Htechnique Hd span. unfold gets_object.
  destruct (decoded_techniques !! Group.technique span.2) as [t|] eqn:Ht;
    [|done].
  unfold creates.
  rewrite (dispatch_keeps_cache _ _ _ _ _ _ _ _ _ _ Hd).
  destruct (match techniqueHandlers p !! _ with Some _ => _ | None => _ end);
    [done|]. simpl.
  destruct (hasObjectConstructor t); [|done]. simpl.
  unfold dispatch in Hd.
  repeat (case_match; simplify_eq; simpl in *; try done);
    repeat match goal with
           | H : <[_:=_]> _ !! _ = _ |- _ =>
               rewrite lookup_insert in H; case_decide; simplify_eq
           end; try done; congruence.
Qed.

Lemma loop_spans tile context decoded_techniques techniqueFilter geometryIndex
    srcGeometry visited ahead p r :
  loop tile context decoded_techniques techniqueFilter geometryIndex
    srcGeometry visited ahead p r ->
  r.2 = Normal ->
  spans (events r.1.2) =
    spans (events p) ++
    (pair geometryIndex <$>
       spans_by_spec (offset tile) decoded_techniques techniqueFilter None ahead) /\
  creations (events r.1.2) =
    creations (events p) ++
    List.filter (gets_object decoded_techniques p)
      (pair geometryIndex <$>
         spans_by_spec (offset tile) decoded_techniques techniqueFilter None ahead) /\
  (forall span, gets_object decoded_techniques r.1.2 span
                = gets_object decoded_techniques p span).
Proof.
  induction 1 as
    [visited p
    |visited group following p r Hcreated _ IH
    |visited group following p Hcreated Htechnique
    |visited group following p r technique Hcreated Htechnique Hrejected _ IH
    |visited group following p technique count taken untaken p2
       Hcreated Htechnique Hrejected Hcompress Hdispatch
    |visited group following p technique count taken untaken p2 r
       Hcreated Htechnique Hrejected Hcompress Hdispatch _ IH];
    intros Hnormal; try done.
  - simpl. by rewrite !app_nil_r.
  - cbn [spans_by_spec]. unfold passed_over. rewrite Hcreated. by apply IH.
  - cbn [spans_by_spec]. unfold passed_over.
    rewrite Hcreated, Htechnique, Hrejected. by apply IH.
  - assert (Hwalk :
      spans_by_spec (offset tile) decoded_techniques techniqueFilter None
        (group :: following)
      = merged_group group count
        :: spans_by_spec (offset tile) decoded_techniques techniqueFilter
             None untaken).
    { cbn [spans_by_spec]. unfold passed_over.
      rewrite Hcreated, Htechnique, Hrejected. cbn [orb].
      exact (compress_spans _ decoded_techniques techniqueFilter
               _ _ _ _ _ _ _ Hcompress). }
    rewrite Hwalk. clear Hwalk.
    destruct (IH Hnormal) as (Hspans & Hcreations & Hchoice).
    destruct (dispatch_events _ _ _ _ _ _ _ _ _ _ Hdispatch)
      as (evs & Hev & Hfrom & _).
    pose proof (dispatch_creations _ _ _ _ _ _ _ _ _ Hdispatch) as Hcreated'.
    pose proof (dispatch_same_choice decoded_techniques _ _ _ _ _ _
                  (merged_group group count) _ _ _
                  Htechnique Hdispatch) as Hchoice'.
    simpl in Hev, Hcreated', Hchoice'.
    assert (Hsame : forall span,
              gets_object decoded_techniques p2 span
              = gets_object decoded_techniques p span).
    { intros span. by rewrite Hchoice'. }
    split; [|split].
    + rewrite Hspans, Hev. unfold spans. rewrite !omap_app.
      fold (spans evs). rewrite (from_dispatch_no_span _ _ _ Hfrom).
      simpl. by rewrite app_nil_r, <- app_assoc.
    + rewrite Hcreations, Hcreated'. unfold creations at 1.
      rewrite omap_app. simpl. rewrite app_nil_r. fold (creations (events p)).
      rewrite <- app_assoc. f_equal.
      assert (Hget : gets_object decoded_techniques p
                       (geometryIndex, merged_group group count)
                     = creates p technique (Group.technique group)).
      { unfold gets_object. simpl. by rewrite Htechnique. }
      rewrite Hget.
      replace (creates (record_event
                          (Merged geometryIndex (length visited)
                             (S (length taken)) (merged_group group count)) p)
                 technique (Group.technique group))
        with (creates p technique (Group.technique group)) by done.
      rewrite (List.filter_ext _ _ Hsame).
      by destruct (creates p technique (Group.technique group)).
    + intros span. by rewrite Hchoice, Hsame.
Qed.

Lemma visit_geometries_spans tile context decoded_techniques techniqueFilter
    gi remaining p remaining' p' :
  visit_geometries tile context decoded_techniques techniqueFilter gi
    remaining p = (remaining', p', Normal) ->
  spans (events p') =
    spans (events p) ++
    tile_spans_by_spec (offset tile) decoded_techniques techniqueFilter
      gi remaining /\
  creations (events p') =
    creations (events p) ++
    List.filter (gets_object decoded_techniques p)
      (tile_spans_by_spec (offset tile) decoded_techniques techniqueFilter
         gi remaining) /\
  (forall span, gets_object decoded_techniques p' span
                = gets_object decoded_techniques p span).
Proof.
  revert gi p remaining' p'.
  induction remaining as [|srcGeometry more IH]; intros gi p remaining' p';
    simpl.
  - intros [= <- <-]. by rewrite !app_nil_r.
  - pose proof (visit_groups_loop tile context decoded_techniques
                  techniqueFilter gi srcGeometry (length (groups srcGeometry))
                  [] (groups srcGeometry) p (le_n _)) as Hloop.
    destruct (visit_groups _ _ _ _ _ _ _ _ _ _) as [[groups' p1] c1].
    destruct c1; [|done].
    destruct (loop_spans _ _ _ _ _ _ _ _ _ _ Hloop eq_refl)
      as (Hspans1 & Hcreations1 & Hchoice1).
    simpl in Hspans1, Hcreations1, Hchoice1.
    destruct (visit_geometries _ _ _ _ _ more p1) as [[more' p2] c2] eqn:Hrest.
    intros [= <- <- ->].
    destruct (IH _ _ _ _ Hrest) as (Hspans2 & Hcreations2 & Hchoice2).
    split; [|split].
    + by rewrite Hspans2, Hspans1, <- app_assoc.
    + rewrite Hcreations2, Hcreations1, <- app_assoc. f_equal.
      rewrite List.filter_app. f_equal.
      apply List.filter_ext. exact Hchoice1.
    + intros span. by rewrite Hchoice2, Hchoice1.
Qed.

(** After a loop that ended normally, every group that was not created for
    the tile's offset and whose technique is not rejected is covered by a
    merged group of the log. *)
Lemma loop_covers tile context decoded_techniques techniqueFilter geometryIndex
    srcGeometry visited ahead p r :
  loop tile context decoded_techniques techniqueFilter geometryIndex
    srcGeometry visited ahead p r ->
  r.2 = Normal ->
  forall new, events r.1.2 = events p ++ new ->
  forall j group technique,
    ahead !! j = Some group ->
    created_for (offset tile) group = false ->
    decoded_techniques !! Group.technique group = Some technique ->
    rejected techniqueFilter technique = false ->
    exists firstGroup covered mergedGroup,
      Merged geometryIndex firstGroup covered mergedGroup ∈ new /\
      firstGroup <= length visited + j < firstGroup + covered.
Proof.
  induction 1 as
    [visited p
    |visited group following p r Hcreated _ IH
    |visited group following p Hcreated Htechnique
    |visited group following p r technique Hcreated Htechnique Hrejected _ IH
    |visited group following p technique count taken untaken p2
       Hcreated Htechnique Hrejected Hcompress Hdispatch
    |visited group following p technique count taken untaken p2 r
       Hcreated Htechnique Hrejected Hcompress Hdispatch Hloop IH];
    intros Hnormal new Hev j g t Hj Hg Ht Hr; try done.
  - destruct j as [|j]; simpl in Hj; [congruence|].
    destruct (IH Hnormal new Hev j g t Hj Hg Ht Hr) as (f & cov & mg & Hin & Hrange).
    rewrite length_app in Hrange. simpl in Hrange.
    exists f, cov, mg. split; [done|lia].
  - destruct j as [|j]; simpl in Hj; [congruence|].
    destruct (IH Hnormal new Hev j g t Hj Hg Ht Hr) as (f & cov & mg & Hin & Hrange).
    rewrite length_app in Hrange. simpl in Hrange.
    exists f, cov, mg. split; [done|lia].
  - destruct (dispatch_events _ _ _ _ _ _ _ _ _ _ Hdispatch)
      as (evs & Hev2 & _).
    destruct (loop_log _ _ _ _ _ _ _ _ _ _ Hloop) as (new2 & Hev3 & _).
    simpl in Hev2. rewrite Hev3, Hev2, <- !app_assoc in Hev.
    apply app_inv_head in Hev. subst new.
    destruct (compress_split _ _ _ _ _ _ _ _ Hcompress) as (run & -> & ->).
    rewrite length_fmap in *.
    destruct (decide (j < S (length run))) as [Hlt|Hge].
    + exists (length visited), (S (length run)), (merged_group group count).
      split; [apply list_elem_of_here|lia].
    + destruct j as [|j]; [lia|]. simpl in Hj.
      rewrite lookup_app_r in Hj by lia.
      destruct (IH Hnormal new2 Hev3 _ g t Hj Hg Ht Hr)
        as (f & cov & mg & Hin & Hrange).
      rewrite length_app in Hrange. simpl in Hrange.
      rewrite length_fmap in Hrange.
      exists f, cov, mg. split.
      * apply list_elem_of_further, elem_of_app. by right.
      * lia.
Qed.

Lemma visit_geometries_covers tile context decoded_techniques techniqueFilter
    gi remaining p remaining' p' :
  visit_geometries tile context decoded_techniques techniqueFilter gi
    remaining p = (remaining', p', Normal) ->
  forall new, events p' = events p ++ new ->
  forall i srcGeometry j group technique,
    remaining !! i = Some srcGeometry ->
    groups srcGeometry !! j = Some group ->
    created_for (offset tile) group = false ->
    decoded_techniques !! Group.technique group = Some technique ->
    rejected techniqueFilter technique = false ->
    exists firstGroup covered mergedGroup,
      Merged (gi + i) firstGroup covered mergedGroup ∈ new /\
      firstGroup <= j < firstGroup + covered.
Proof.
  revert gi p remaining' p'.
  induction remaining as [|g more IH]; intros gi p remaining' p'; simpl;
    intros Hvisit new Hev i srcGeometry j group technique Hi Hj Hg Ht Hr;
    [done|].
  pose proof (visit_groups_loop tile context decoded_techniques
                techniqueFilter gi g (length (groups g))
                [] (groups g) p (le_n _)) as Hloop.
  destruct (visit_groups _ _ _ _ _ _ _ _ _ _) as [[groups' p1] c1].
  destruct c1; [|done].
  destruct (loop_log _ _ _ _ _ _ _ _ _ _ Hloop) as (new1 & Hev1 & _).
  simpl in Hev1.
  destruct (visit_geometries _ _ _ _ _ more p1) as [[more' p2] c2] eqn:Hrest.
  injection Hvisit as <- <- ->.
  destruct (visit_geometries_log _ _ _ _ _ _ _ _ _ _ Hrest) as (new2 & Hev2 & _).
  rewrite Hev2, Hev1, <- app_assoc in Hev. apply app_inv_head in Hev.
  subst new.
  destruct i as [|i]; simpl in Hi.
  - injection Hi as ->.
    destruct (loop_covers _ _ _ _ _ _ _ _ _ _ Hloop eq_refl new1 Hev1
                j group technique Hj Hg Ht Hr) as (f & cov & mg & Hin & Hrange).
    simpl in Hrange. rewrite Nat.add_0_r.
    exists f, cov, mg. split; [|lia]. apply elem_of_app. by left.
  - destruct (IH _ _ _ _ Hrest new2 Hev2 i srcGeometry j group technique
                Hi Hj Hg Ht Hr) as (f & cov & mg & Hin & Hrange).
    replace (gi + S i) with (S gi + i) by lia.
    exists f, cov, mg. split; [|lia]. apply elem_of_app. by right.
Qed.

(** C4.  In a call that ends normally, the merged groups logged are
    exactly the spans of the specification ([tile_spans_by_spec]), in
    order; every group that is neither created for the tile's offset nor
    of a rejected technique is covered by a merged group of the log and
    carries the tile's offset afterwards; and exactly the merged groups
    for whose technique there is a handler, or an object constructor and a
    material, get an object.  In every call,
    whatever is logged as a merged group is the merge of a first group,
    not yet created for the tile's offset, with the run of groups that
    immediately follow it in the geometry, have its technique index and
    each start where the span built so far ends; the run is complete, in
    that the next group, if any, has another technique index or starts
    elsewhere; the merged group has the start and technique index of the
    first group and the counts added up; and after the call every group
    covered carries the tile's offset in its created offsets.  Objects are
    created for merged groups of the log only; and after a call that
    ended normally, every group of the tile is created for the offset or
    has a rejected technique. *)
Theorem createObjects_merges_contiguous_groups
    (tile : Tile) (context : TechniqueUpdateContext)
    (decodedTile decodedTile' : DecodedTile)
    (techniqueFilter : option (Technique -> bool))
    (p p' : Pass) (c : Completion)
    (Hrun : createObjects tile context decodedTile techniqueFilter p
            = (decodedTile', p', c)) :
  exists new,
    events p' = events p ++ new /\
    (forall gi firstGroup covered mergedGroup,
       Merged gi firstGroup covered mergedGroup ∈ new ->
       exists srcGeometry srcGeometry' first run,
         geometries decodedTile !! gi = Some srcGeometry /\
         geometries decodedTile' !! gi = Some srcGeometry' /\
         take covered (drop firstGroup (groups srcGeometry)) = first :: run /\
         created_for (offset tile) first = false /\
         mergedGroup =
           merged_group first (Group.count first + sum_counts run)%Z /\
         merges_with (Group.technique first)
           (Group.start first + Group.count first) run
           (Group.start mergedGroup + Group.count mergedGroup) /\
         stops_at (Group.technique first)
           (Group.start mergedGroup + Group.count mergedGroup)
           (drop (firstGroup + covered) (groups srcGeometry)) /\
         take covered (drop firstGroup (groups srcGeometry')) =
           mark (offset tile) <$> (first :: run)) /\
    (forall gi mergedGroup,
       (gi, mergedGroup) ∈ creations new ->
       exists firstGroup covered, Merged gi firstGroup covered mergedGroup ∈ new) /\
    (c = Normal ->
     settled_geometries tile (techniques decodedTile) techniqueFilter
       (geometries decodedTile')) /\
    (c = Normal ->
     spans new =
       tile_spans_by_spec (offset tile) (techniques decodedTile)
         techniqueFilter 0 (geometries decodedTile) /\
     creations new =
       List.filter (gets_object (techniques decodedTile) p) (spans new)) /\
    (c = Normal ->
     forall gi srcGeometry j group technique,
       geometries decodedTile !! gi = Some srcGeometry ->
       groups srcGeometry !! j = Some group ->
       created_for (offset tile) group = false ->
       techniques decodedTile !! Group.technique group = Some technique ->
       rejected techniqueFilter technique = false ->
       exists firstGroup covered mergedGroup srcGeometry' group',
         Merged gi firstGroup covered mergedGroup ∈ new /\
         firstGroup <= j < firstGroup + covered /\
         geometries decodedTile' !! gi = Some srcGeometry' /\
         groups srcGeometry' !! j = Some group' /\
         Group.createdOffsets group' =
           Group.createdOffsets group ++ [offset tile] /\
         Group.start group' = Group.start group /\
         Group.count group' = Group.count group /\
         Group.technique group' = Group.technique group /\
         Group.renderOrderOffset group' = Group.renderOrderOffset group).
Proof.
  unfold createObjects in Hrun.
  destruct (visit_geometries _ _ _ _ _ _ _) as [[geometries' p1] c1] eqn:Hvisit.
  injection Hrun as <- <- <-.
  destruct (visit_geometries_log _ _ _ _ _ _ _ _ _ _ Hvisit)
    as (new & Hev & Htells & Hback & _ & _).
  assert (Hmerged : forall gi firstGroup covered mergedGroup,
    Merged gi firstGroup covered mergedGroup ∈ new ->
    exists srcGeometry srcGeometry' first run,
      geometries decodedTile !! gi = Some srcGeometry /\
      geometries' !! gi = Some srcGeometry' /\
      take covered (drop firstGroup (groups srcGeometry)) = first :: run /\
      created_for (offset tile) first = false /\
      mergedGroup =
        merged_group first (Group.count first + sum_counts run)%Z /\
      merges_with (Group.technique first)
        (Group.start first + Group.count first) run
        (Group.start mergedGroup + Group.count mergedGroup) /\
      stops_at (Group.technique first)
        (Group.start mergedGroup + Group.count mergedGroup)
        (drop (firstGroup + covered) (groups srcGeometry)) /\
      take covered (drop firstGroup (groups srcGeometry')) =
        mark (offset tile) <$> (first :: run)).
  { intros gi firstGroup covered mergedGroup Hin.
    rewrite Forall_forall in Htells.
    specialize (Htells _ Hin). simpl in Htells.
    destruct Htells as (_ & srcGeometry & srcGeometry' & Hg & Hg' & Hd).
    rewrite Nat.sub_0_r in Hg, Hg'. simpl in Hd.
    destruct Hd as (_ & _ & first & run & Htake & Hcov & Hcreated & _
                    & Hmg & Hm & Hstop & Hmarks).
    rewrite Nat.sub_0_r in Htake, Hstop.
    exists srcGeometry, srcGeometry', first, run.
    repeat split; try done; by rewrite Hmg. }
  exists new. split; [exact Hev|]. split; [exact Hmerged|].
  split; [|split; [|split]].
  - intros gi mergedGroup Hin. unfold creations in Hin.
    apply list_elem_of_omap in Hin. destruct Hin as (e & He & Hc).
    rewrite Forall_forall in Hback.
    specialize (Hback _ He).
    destruct e; simpl in Hc; try done; injection Hc as <- <-; exact Hback.
  - intros ->. simpl. by eapply visit_geometries_settles.
  - intros ->.
    destruct (visit_geometries_spans _ _ _ _ _ _ _ _ _ Hvisit)
      as (Hspans & Hcreations & _).
    simpl in Hev. rewrite Hev in Hspans, Hcreations.
    unfold spans, creations in Hspans, Hcreations.
    rewrite omap_app in Hspans, Hcreations.
    apply app_inv_head in Hspans. apply app_inv_head in Hcreations.
    fold (spans new) in Hspans. fold (creations new) in Hcreations.
    by rewrite Hcreations, Hspans.
  - intros -> gi srcGeometry j group technique Hg Hj Hcreated Ht Hr.
    destruct (visit_geometries_covers _ _ _ _ _ _ _ _ _ Hvisit new Hev
                gi srcGeometry j group technique Hg Hj Hcreated Ht Hr)
      as (f & cov & mg & Hin & Hrange).
    simpl in Hin.
    destruct (Hmerged _ _ _ _ Hin)
      as (g0 & g' & first & run & Hg0 & Hg' & Htake & _ & _ & _ & _ & Hmarks).
    assert (g0 = srcGeometry) as -> by congruence.
    exists f, cov, mg, g', (mark (offset tile) group).
    split; [done|]. split; [done|]. split; [done|]. split; [|done].
    assert (Hlook : take cov (drop f (groups g')) !! (j - f)
                    = Some (mark (offset tile) group)).
    { rewrite Hmarks, <- Htake, list_lookup_fmap.
      rewrite lookup_take_lt by lia. rewrite lookup_drop.
      replace (f + (j - f)) with j by lia. by rewrite Hj. }
    rewrite lookup_take_lt in Hlook by lia. rewrite lookup_drop in Hlook.
    by replace (f + (j - f)) with j in Hlook by lia.
Qed.

(** C5.  On a decoded tile as calls of [createObjects] leave it, a call
    creates objects only for merged groups of its log, for each at most
    once and in order; the merged groups of the log cover groups in the
    order of the tile, none of them twice; and no group they cover was
    created for the tile's offset before the call: a group already created
    for the offset gets no object.  After a call that ended normally, a
    further call for the same offset logs nothing and changes nothing. *)
Theorem createObjects_skips_created_groups
    (tile : Tile) (context : TechniqueUpdateContext)
    (decodedTile decodedTile' : DecodedTile)
    (techniqueFilter : option (Technique -> bool))
    (p p' : Pass) (c : Completion)
    (Hprepared : prepared decodedTile)
    (Hrun : createObjects tile context decodedTile techniqueFilter p
            = (decodedTile', p', c)) :
  exists new,
    events p' = events p ++ new /\
    creations new `sublist_of` spans new /\
    (forall i1 i2 gi f1 c1 m1 f2 c2 m2,
       i1 < i2 ->
       new !! i1 = Some (Merged gi f1 c1 m1) ->
       new !! i2 = Some (Merged gi f2 c2 m2) ->
       f1 + c1 <= f2) /\
    (forall gi firstGroup covered mergedGroup srcGeometry j group,
       Merged gi firstGroup covered mergedGroup ∈ new ->
       geometries decodedTile !! gi = Some srcGeometry ->
       groups srcGeometry !! j = Some group ->
       firstGroup <= j < firstGroup + covered ->
       created_for (offset tile) group = false) /\
    (c = Normal ->
     forall tile2 context2 p2,
       offset tile2 = offset tile ->
       createObjects tile2 context2 decodedTile' techniqueFilter p2
       = (decodedTile', p2, Normal)).
Proof.
  pose proof (prepared_consistent _ Hprepared (offset tile)) as Hcons.
  unfold createObjects in Hrun.
  destruct (visit_geometries _ _ _ _ _ _ _) as [[geometries' p1] c1] eqn:Hvisit.
  injection Hrun as <- <- <-.
  destruct (visit_geometries_log _ _ _ _ _ _ _ _ _ _ Hvisit)
    as (new & Hev & Htells & _ & Hord & Hsub).
  exists new. split; [exact Hev|]. split; [exact Hsub|]. split; [|split].
  - intros i1 i2 gi f1 c1' m1 f2 c2 m2 Hlt H1 H2.
    pose proof (ordered_pairwise _ _ _ _ _ _ _ _ _ _ _ _ _ Hord Hlt H1 H2) as Hnb.
    unfold not_before in Hnb. lia.
  - intros gi firstGroup covered mergedGroup srcGeometry j group Hin Hg Hj Hrange.
    rewrite Forall_forall in Htells.
    specialize (Htells _ Hin). simpl in Htells.
    destruct Htells as (_ & srcGeometry0 & srcGeometry' & Hg0 & _ & Hd).
    rewrite Nat.sub_0_r in Hg0. assert (srcGeometry0 = srcGeometry) as ->
      by congruence.
    destruct Hd as (_ & _ & first & run & Htake & Hcov & Hcreated & _
                    & _ & Hm & _ & _).
    rewrite Nat.sub_0_r in Htake.
    unfold consistent_geometries in Hcons. rewrite Forall_lookup in Hcons.
    specialize (Hcons _ _ Hg).
    apply (adjacent_drop _ firstGroup) in Hcons.
    rewrite <- (take_drop covered (drop firstGroup (groups srcGeometry))) in Hcons.
    rewrite Htake in Hcons.
    pose proof (merges_with_uncreated _ _ _ _ _ Hcons Hcreated Hm) as Hrun.
    assert (Hall : Forall (fun g => created_for (offset tile) g = false)
                     (first :: run)) by (by constructor).
    rewrite Forall_lookup in Hall. apply (Hall (j - firstGroup)).
    rewrite <- Htake. rewrite lookup_take_lt by lia. rewrite lookup_drop.
    replace (firstGroup + (j - firstGroup)) with j by lia. exact Hj.
  - intros -> tile2 context2 p2 Ho. unfold createObjects. simpl.
    rewrite visit_geometries_over_settled; [done|].
    eapply settled_same_offset; [exact Ho|].
    by eapply visit_geometries_settles.
Qed.
End Orchestrator.

(** *** A tile with fill and terrain handlers

    The handlers are the two of the pool's sample registry; a handler's
    [createObject] returns one object, written as the span it draws, and
    pushes nothing onto the tile itself.  Techniques named "line" have no
    handler and take the legacy path. *)
Definition span_object (h : Pool.SampleHandler) (tile : Tile)
    (srcGeometry : Geometry) (mergedGroup : Group.t) : @Creation (Z * Z) :=
  {| pushed := [];
     returned := [(Group.start mergedGroup, Group.count mergedGroup)] |}.

Definition line_object (technique : Technique) (srcGeometry : Geometry)
    (mergedGroup : Group.t) (renderOrderOffset : option float)
    (material : string) : Z * Z :=
  (Group.start mergedGroup, Group.count mergedGroup).

Definition never_dynamic (h : Pool.SampleHandler) : bool := false.

Definition is_line (technique : Technique) : bool :=
  String.eqb (name technique) "line".

Definition line_material_of (technique : Technique) : option string :=
  Some (name technique).

Definition run_createObjects (tile : Tile) (decodedTile : DecodedTile)
    (p : @Pass Pool.SampleHandler (Z * Z) string)
    : DecodedTile * Pass * Completion :=
  createObjects Pool.shareable never_dynamic Pool.sample_registry
    span_object is_line line_material_of line_object
    tile Pool.sample_context decodedTile None p.

Definition first_pass : @Pass Pool.SampleHandler (Z * Z) string :=
  start_pass Pool.initial [] [].

Definition fresh_group (start count : Z) (technique : nat) : Group.t :=
  {| Group.start := start; Group.count := count; Group.technique := technique;
     Group.createdOffsets := []; Group.renderOrderOffset := None |}.

Definition span (start count : Z) (technique : nat) : Group.t :=
  fresh_group start count technique.

Definition technique_A : Technique :=
  {| name := "fill"; _key := "fill:A"; enabled := Some true |}.

Definition technique_B : Technique :=
  {| name := "fill"; _key := "fill:B"; enabled := Some true |}.

(** The groups [{0,5,A}, {5,3,A}, {8,2,B}]. *)
Definition three_groups : DecodedTile :=
  {| techniques := [technique_A; technique_B];
     geometries :=
       [{| uuid := 7; hasColor := false;
           groups := [fresh_group 0 5 0; fresh_group 5 3 0; fresh_group 8 2 1] |}] |}.

Example three_groups_give_two_spans :
  let '(decodedTile', p', c) :=
    run_createObjects (Pool.sample_tile 1) three_groups first_pass in
  c = Normal /\
  events p' =
    [Merged 0 0 2 (span 0 8 0); PoolQueried 0; CreateObjectCalled 0 0 (span 0 8 0);
     Merged 0 2 1 (span 8 2 1); PoolQueried 1; CreateObjectCalled 1 0 (span 8 2 1)] /\
  creations (events p') = [(0, span 0 8 0); (0, span 8 2 1)] /\
  tile_objects p' = [(0, 8); (8, 2)]%Z /\
  ((fun g => Group.createdOffsets <$> groups g) <$> geometries decodedTile')
    = [[[0]; [0]; [0]]]%Z.
Proof. vm_compute. repeat split; reflexivity. Qed.

Lemma three_groups_run :
  run_createObjects (Pool.sample_tile 1) three_groups first_pass =
  ((run_createObjects (Pool.sample_tile 1) three_groups first_pass).1.1,
   (run_createObjects (Pool.sample_tile 1) three_groups first_pass).1.2,
   (run_createObjects (Pool.sample_tile 1) three_groups first_pass).2).
Proof. by destruct (run_createObjects _ _ _) as [[? ?] ?]. Qed.

(** The groups [{0,5,A}, {5,3,A}, {8,2,B}] give exactly the spans
    [{0,8,A}] and [{8,2,B}]; an object is created for each, and the
    second group, merged into the first span, carries the tile's offset
    afterwards. *)
Lemma createObjects_merges_contiguous_groups_witness :
  let r := run_createObjects (Pool.sample_tile 1) three_groups first_pass in
  r.2 = Normal /\
  spans (events r.1.2) = [(0, span 0 8 0); (0, span 8 2 1)] /\
  creations (events r.1.2) = [(0, span 0 8 0); (0, span 8 2 1)] /\
  (exists srcGeometry',
     geometries r.1.1 !! 0 = Some srcGeometry' /\
     (Group.createdOffsets <$> groups srcGeometry' !! 1) = Some [0%Z]).
Proof.
  cbv zeta.
  destruct (createObjects_merges_contiguous_groups _ _ _ _ _ _ _
              (Pool.sample_tile 1) Pool.sample_context three_groups _ None
              first_pass _ _ three_groups_run)
    as (new & Hev & _ & _ & _ & Hexact & Hcovers).
  assert (Hnormal :
    (run_createObjects (Pool.sample_tile 1) three_groups first_pass).2
    = Normal) by (vm_compute; reflexivity).
  destruct (Hexact Hnormal) as (Hspans & Hcreations).
  destruct (Hcovers Hnormal 0
              {| uuid := 7; hasColor := false;
                 groups := [fresh_group 0 5 0; fresh_group 5 3 0;
                            fresh_group 8 2 1] |}
              1 (fresh_group 5 3 0) technique_A
              eq_refl eq_refl eq_refl eq_refl eq_refl)
    as (_ & _ & _ & srcGeometry' & group' & _ & _ & Hg' & Hgroup' & Hmarked & _).
  simpl in Hev. rewrite Hev, Hcreations, Hspans.
  split; [exact Hnormal|]. split; [vm_compute; reflexivity|].
  split; [vm_compute; reflexivity|].
  exists srcGeometry'. split; [exact Hg'|].
  rewrite Hgroup'. simpl. by rewrite Hmarked.
Defined.

(** The same tile visited a second time for the same offset: nothing is
    created. *)
Example second_call_creates_nothing :
  let '(decodedTile', p', _) :=
    run_createObjects (Pool.sample_tile 1) three_groups first_pass in
  let '(decodedTile'', p'', c) :=
    run_createObjects (Pool.sample_tile 1) decodedTile'
      (start_pass (pool p') (tile_objects p') (dynamicTechniqueHandlers p')) in
  c = Normal /\ events p'' = [] /\ tile_objects p'' = tile_objects p' /\
  decodedTile'' = decodedTile'.
Proof. vm_compute. repeat split; reflexivity. Qed.

Lemma three_groups_prepared :
  prepared Pool.shareable never_dynamic Pool.sample_registry
    span_object is_line line_material_of line_object three_groups.
Proof.
  apply (prepared_init _ _ _ _ _ _ _
           (techniques three_groups) (geometries three_groups)).
  repeat constructor.
Qed.

Lemma createObjects_skips_created_groups_witness :
  run_createObjects (Pool.sample_tile 1)
    (run_createObjects (Pool.sample_tile 1) three_groups first_pass).1.1
    first_pass
  = ((run_createObjects (Pool.sample_tile 1) three_groups first_pass).1.1,
     first_pass, Normal).
Proof.
  destruct (createObjects_skips_created_groups _ _ _ _ _ _ _
              (Pool.sample_tile 1) Pool.sample_context three_groups _ None
              first_pass _ _ three_groups_prepared three_groups_run)
    as (new & _ & _ & _ & _ & Hagain).
  apply (Hagain ltac:(vm_compute; reflexivity) (Pool.sample_tile 1)
           Pool.sample_context first_pass eq_refl).
Defined.

(** Two groups with the same technique index that do not touch. *)
Definition two_separate_groups (technique : Technique) : DecodedTile :=
  {| techniques := [technique];
     geometries :=
       [{| uuid := 7; hasColor := false;
           groups := [fresh_group 0 5 0; fresh_group 10 5 0] |}] |}.

(** C8.  The loop body looks into its cache of handlers by technique
    index before asking the pool, but never stores what the pool returned:
    for two groups with the same technique index in one call, the cache is
    empty both times and the pool is asked both times. *)
Example same_technique_queries_pool_twice :
  let '(_, p', c) :=
    run_createObjects (Pool.sample_tile 1) (two_separate_groups technique_A)
      first_pass in
  c = Normal /\
  events p' =
    [Merged 0 0 1 (span 0 5 0); PoolQueried 0; CreateObjectCalled 0 0 (span 0 5 0);
     Merged 0 1 1 (span 10 5 0); PoolQueried 0; CreateObjectCalled 0 0 (span 10 5 0)] /\
  techniqueHandlers p' = ∅.
Proof. vm_compute. repeat split; reflexivity. Qed.

(** With a handler that is not shared (terrain), the second query even
    constructs a second handler for the same technique index of the same
    tile. *)
Example same_technique_gets_two_private_handlers :
  let '(_, p', c) :=
    run_createObjects (Pool.sample_tile 1) (two_separate_groups Pool.relief)
      first_pass in
  c = Normal /\
  events p' =
    [Merged 0 0 1 (span 0 5 0); PoolQueried 0; CreateObjectCalled 0 0 (span 0 5 0);
     Merged 0 1 1 (span 10 5 0); PoolQueried 0; CreateObjectCalled 1 0 (span 10 5 0)] /\
  length (Pool.handlers (pool p')) = 2.
Proof. vm_compute. repeat split; reflexivity. Qed.

(** ** More about a call of [createObjects] *)

Section PassFacts.

Context {Handler Drawable LegacyMaterial : Type}.
Variable isShareableAcrossTiles : Handler -> bool.
Variable isDynamic : Handler -> bool.
Variable registry : gmap string (@Pool.TechniqueHandlerConstructor Handler).
Variable createObject :
  Handler -> Tile -> Geometry -> Group.t -> @Creation Drawable.
Variable hasObjectConstructor : Technique -> bool.
Variable createMaterial : Technique -> option LegacyMaterial.
Variable legacyObject :
  Technique -> Geometry -> Group.t -> option float -> LegacyMaterial -> Drawable.

Local Abbreviation Pass := (@Pass Handler Drawable LegacyMaterial).
Local Abbreviation dispatch_ :=
  (dispatch isShareableAcrossTiles isDynamic registry createObject
     hasObjectConstructor createMaterial legacyObject).
Local Abbreviation loop_ :=
  (loop isShareableAcrossTiles isDynamic registry createObject
     hasObjectConstructor createMaterial legacyObject).
Local Abbreviation visit_geometries_ :=
  (visit_geometries isShareableAcrossTiles isDynamic registry createObject
     hasObjectConstructor createMaterial legacyObject).
Local Abbreviation createObjects_ :=
  (createObjects isShareableAcrossTiles isDynamic registry createObject
     hasObjectConstructor createMaterial legacyObject).

(** A relation between the pass before and after a step that holds for
    every step of the loop body holds for the whole call. *)
Lemma loop_steps (R : Pass -> Pass -> Prop) tile context decoded_techniques
    techniqueFilter geometryIndex srcGeometry visited ahead p r :
  (forall p, R p p) ->
  (forall p1 p2 p3, R p1 p2 -> R p2 p3 -> R p1 p3) ->
  (forall gi firstGroup covered mergedGroup p,
     R p (record_event (Merged gi firstGroup covered mergedGroup) p)) ->
  (forall group technique mergedGroup p p2 c,
     decoded_techniques !! Group.technique mergedGroup = Some technique ->
     dispatch_ tile context geometryIndex srcGeometry group technique
       mergedGroup p = (p2, c) -> R p p2) ->
  loop_ tile context decoded_techniques techniqueFilter geometryIndex
    srcGeometry visited ahead p r ->
  R p r.1.2.
Proof.
  intros Hrefl Htrans Hevent Hdispatch.
  induction 1 as
    [visited p
    |visited group following p r Hcreated _ IH
    |visited group following p Hcreated Htechnique
    |visited group following p r technique Hcreated Htechnique Hrejected _ IH
    |visited group following p technique count taken untaken p2
       Hcreated Htechnique Hrejected Hcompress Hd
    |visited group following p technique count taken untaken p2 r
       Hcreated Htechnique Hrejected Hcompress Hd _ IH];
    simpl; try done.
  - eapply Htrans; [apply Hevent|]. eapply Hdispatch; [|exact Hd]. done.
  - eapply Htrans; [apply Hevent|]. eapply Htrans; [|exact IH].
    eapply Hdispatch; [|exact Hd]. done.
Qed.

Lemma visit_geometries_steps (R : Pass -> Pass -> Prop) tile context
    decoded_techniques techniqueFilter gi remaining p :
  (forall p, R p p) ->
  (forall p1 p2 p3, R p1 p2 -> R p2 p3 -> R p1 p3) ->
  (forall gi firstGroup covered mergedGroup p,
     R p (record_event (Merged gi firstGroup covered mergedGroup) p)) ->
  (forall geometryIndex srcGeometry group technique mergedGroup p p2 c,
     decoded_techniques !! Group.technique mergedGroup = Some technique ->
     dispatch_ tile context geometryIndex srcGeometry group technique
       mergedGroup p = (p2, c) -> R p p2) ->
  R p (visit_geometries_ tile context decoded_techniques techniqueFilter gi
         remaining p).1.2.
Proof.
  intros Hrefl Htrans Hevent Hdispatch. revert gi p.
  induction remaining as [|srcGeometry more IH]; intros gi p; simpl; [done|].
  pose proof (visit_groups_loop isShareableAcrossTiles isDynamic registry
                createObject hasObjectConstructor createMaterial legacyObject
                tile context decoded_techniques
                techniqueFilter gi srcGeometry (length (groups srcGeometry))
                [] (groups srcGeometry) p (le_n _)) as Hloop.
  apply (loop_steps R) in Hloop; [|done|done|done|by eauto].
  destruct (visit_groups _ _ _ _ _ _ _ _ _ _ _ _ _ _ _ _ _) as [[groups' p1] c1].
  simpl in Hloop. destruct c1; [|done].
  specialize (IH (S gi) p1).
  destruct (visit_geometries _ _ _ _ _ _ _ _ _ _ _ _ more p1) as [[more' p2] c2].
  simpl in *. by eapply Htrans.
Qed.


(** *** What a call adds, and what it leaves alone *)

(** The pass only ever gets longer: objects, dynamic handlers, constructed
    handlers and log entries are appended, cached materials are added. *)
Definition extends (p p2 : Pass) : Prop :=
  tile_objects p `prefix_of` tile_objects p2 /\
  dynamicTechniqueHandlers p `prefix_of` dynamicTechniqueHandlers p2 /\
  Pool.handlers (pool p) `prefix_of` Pool.handlers (pool p2) /\
  events p `prefix_of` events p2 /\
  materials p ⊆ materials p2.

Lemma extends_refl p : extends p p.
Proof. by repeat split. Qed.

Lemma extends_trans p1 p2 p3 : extends p1 p2 -> extends p2 p3 -> extends p1 p3.
Proof.
  intros (A1 & A2 & A3 & A4 & A5) (B1 & B2 & B3 & B4 & B5).
  repeat split; by etrans.
Qed.

Lemma getTechniqueHandler_prefix technique tile context
    (st : @Pool.State Handler) :
  Pool.handlers st `prefix_of`
  Pool.handlers (Pool.getTechniqueHandler isShareableAcrossTiles registry
                   technique tile context st).2.
Proof.
  destruct (Pool.step_handlers_grow isShareableAcrossTiles registry st
              (Pool.Get technique tile context)) as [fresh Hfresh].
  simpl in Hfresh. rewrite Hfresh. by apply prefix_app_r.
Qed.

Lemma dispatch_extends tile context geometryIndex srcGeometry group technique
    mergedGroup p p2 c :
  dispatch_ tile context geometryIndex srcGeometry group technique mergedGroup p
    = (p2, c) ->
  extends p p2.
Proof.
  unfold dispatch. intros Hd.
  pose proof (getTechniqueHandler_prefix technique tile context (pool p))
    as Hstore.
  repeat (case_match; simplify_eq; simpl in *);
    repeat split; simpl; try done;
    rewrite <- ?app_assoc;
    try (by apply prefix_app_r); by apply insert_subseteq.
Qed.

(** What a call leaves of the decoded tile: the techniques, and the
    geometries up to the tile's offset appended to the created offsets of
    some groups. *)
Lemma createObjects_marks_groups
    (tile : Tile) (context : TechniqueUpdateContext) (decodedTile : DecodedTile)
    (techniqueFilter : option (Technique -> bool)) (p : Pass) :
  let r := createObjects_ tile context decodedTile techniqueFilter p in
  techniques r.1.1 = techniques decodedTile /\
  Forall2 (fun g g' =>
             uuid g' = uuid g /\ hasColor g' = hasColor g /\
             Forall2 (fun group group' =>
                        group' = group \/ group' = mark (offset tile) group)
               (groups g) (groups g'))
    (geometries decodedTile) (geometries r.1.1).
Proof.
  intros r. unfold r, createObjects. clear r.
  destruct (visit_geometries _ _ _ _ _ _ _ _ _ _ _ _ _ _) as [[geometries' p'] c]
    eqn:Hrun.
  simpl in *. split; [done|].
  revert Hrun. generalize 0 as gi. revert p geometries' p' c.
  induction (geometries decodedTile) as [|srcGeometry more IH];
    intros p geometries' p' c gi; simpl.
  - intros [= <- <- <-]. constructor.
  - pose proof (visit_groups_loop isShareableAcrossTiles isDynamic registry
                  createObject hasObjectConstructor createMaterial
                  legacyObject tile context (techniques decodedTile)
                  techniqueFilter gi srcGeometry (length (groups srcGeometry))
                  [] (groups srcGeometry) p (le_n _)) as Hloop.
    apply loop_keeps_visited in Hloop.
    destruct Hloop as (ahead' & Hfinal & Hsame).
    destruct (visit_groups _ _ _ _ _ _ _ _ _ _ _ _ _ _ _ _ _)
      as [[groups' p1] c1].
    simpl in Hfinal. subst groups'.
    destruct c1.
    + destruct (visit_geometries _ _ _ _ _ _ _ _ _ _ _ _ more p1)
        as [[more' p2] c2] eqn:Hrest.
      intros [= <- <- <-]. constructor; [by repeat split|].
      by eapply IH.
    + intros [= <- <- <-]. constructor; [by repeat split|].
      clear. induction more as [|g more IH]; constructor; [|exact IH].
      repeat split. clear. induction (groups g); constructor; [by left|done].
Qed.

(** X6.  A call of [createObjects] never removes or reorders anything the
    tile and the pool hold: the tile's objects, its dynamic technique
    handlers and the handlers constructed so far are all still there, in
    place, with what the call added after them; the materials cached for
    the legacy path are kept; the techniques of the decoded tile are the
    same, and its geometries differ at most by the tile's offset appended to
    the created offsets of some groups. *)
Theorem createObjects_only_appends
    (tile : Tile) (context : TechniqueUpdateContext) (decodedTile : DecodedTile)
    (techniqueFilter : option (Technique -> bool)) (p : Pass) :
  let r := createObjects_ tile context decodedTile techniqueFilter p in
  extends p r.1.2 /\
  techniques r.1.1 = techniques decodedTile /\
  Forall2 (fun g g' =>
             uuid g' = uuid g /\ hasColor g' = hasColor g /\
             Forall2 (fun group group' =>
                        group' = group \/ group' = mark (offset tile) group)
               (groups g) (groups g'))
    (geometries decodedTile) (geometries r.1.1).
Proof.
  intros r. split; [|exact (createObjects_marks_groups tile context decodedTile
                             techniqueFilter p)].
  unfold r, createObjects. clear r.
  pose proof (visit_geometries_steps extends tile context
                (techniques decodedTile) techniqueFilter 0
                (geometries decodedTile) p extends_refl extends_trans) as Hext.
  destruct (visit_geometries _ _ _ _ _ _ _ _ _ _ _ _ _ _) as [[geometries' p'] c]
    eqn:Hrun.
  simpl in *. apply Hext.
  - intros gi f n mg q. repeat split; simpl; try done. by apply prefix_app_r.
  - intros gi srcGeometry group technique mergedGroup q q2 c' _.
    apply dispatch_extends.
Qed.


(** *** Dynamic handlers of the tile *)

(** The entry that a logged creation adds to
    [tile.dynamicTechniqueHandlers], if any. *)
Definition dynamic_of (store : list Handler) (e : Event) : option nat :=
  match e with
  | CreateObjectCalled h _ _ =>
      match store !! h with
      | Some handler => if isDynamic handler then Some h else None
      | None => None
      end
  | _ => None
  end.

Definition known (store : list Handler) (e : Event) : Prop :=
  match e with
  | CreateObjectCalled h _ _ => is_Some (store !! h)
  | _ => True
  end.

Lemma known_more store fresh e : known store e -> known (store ++ fresh) e.
Proof.
  destruct e; simpl; try done. intros [x Hx]. exists x.
  by apply lookup_app_l_Some.
Qed.

Lemma dynamic_of_more store fresh new :
  Forall (known store) new ->
  omap (dynamic_of (store ++ fresh)) new = omap (dynamic_of store) new.
Proof.
  induction 1 as [|e new He _ IH]; [done|].
  change (omap ?f (e :: new)) with
    (match f e with Some y => y :: omap f new | None => omap f new end).
  rewrite IH. destruct e; simpl in *; try done. destruct He as [x Hx].
  by rewrite (lookup_app_l_Some _ _ _ _ Hx), Hx.
Qed.

Definition logs_dynamic (p p2 : Pass) : Prop :=
  exists fresh new,
    Pool.handlers (pool p2) = Pool.handlers (pool p) ++ fresh /\
    events p2 = events p ++ new /\
    Forall (known (Pool.handlers (pool p2))) new /\
    dynamicTechniqueHandlers p2 =
    dynamicTechniqueHandlers p ++ omap (dynamic_of (Pool.handlers (pool p2))) new.

Lemma logs_dynamic_refl p : logs_dynamic p p.
Proof. exists [], []. by rewrite !app_nil_r. Qed.

Lemma logs_dynamic_trans p1 p2 p3 :
  logs_dynamic p1 p2 -> logs_dynamic p2 p3 -> logs_dynamic p1 p3.
Proof.
  intros (f1 & n1 & S1 & E1 & K1 & D1) (f2 & n2 & S2 & E2 & K2 & D2).
  exists (f1 ++ f2), (n1 ++ n2).
  split; [by rewrite S2, S1, app_assoc|].
  split; [by rewrite E2, E1, app_assoc|].
  split.
  - apply Forall_app. split; [|done]. rewrite S2.
    eapply Forall_impl; [exact K1|]. intros e. apply known_more.
  - rewrite D2, D1, omap_app, <- app_assoc. f_equal. f_equal.
    rewrite S2. symmetry. by apply dynamic_of_more.
Qed.

Lemma dispatch_logs_dynamic tile context geometryIndex srcGeometry group
    technique mergedGroup p p2 c :
  dispatch_ tile context geometryIndex srcGeometry group technique mergedGroup p
    = (p2, c) ->
  logs_dynamic p p2.
Proof.
  unfold dispatch.
  destruct (techniqueHandlers p !! Group.technique mergedGroup) as [h|].
  - destruct (Pool.handlers (pool p) !! h) as [handler|] eqn:Hh;
      intros [= <- <-]; [|apply logs_dynamic_refl].
    exists [], [CreateObjectCalled h geometryIndex mergedGroup]. simpl.
    rewrite app_nil_r, Hh. repeat split; [by repeat (constructor; simpl; eauto)|].
    destruct (isDynamic handler); [done|by rewrite app_nil_r].
  - destruct (Pool.canHandle registry technique).
    + destruct (Pool.step_handlers_grow isShareableAcrossTiles registry (pool p)
                  (Pool.Get technique tile context)) as [fresh Hfresh].
      simpl in Hfresh.
      destruct (Pool.getTechniqueHandler _ _ _ _ _ _)
        as [[h|unknown|member] pool']; simpl in *.
      * destruct (Pool.handlers pool' !! h) as [handler|] eqn:Hh;
          intros [= <- <-]; simpl.
        -- exists fresh, [PoolQueried (Group.technique mergedGroup);
                          CreateObjectCalled h geometryIndex mergedGroup].
           simpl. rewrite Hh, <- app_assoc.
           repeat split; [done|by repeat (constructor; simpl; eauto)|].
           destruct (isDynamic handler); [done|by rewrite app_nil_r].
        -- exists fresh, [PoolQueried (Group.technique mergedGroup)]. simpl.
           rewrite app_nil_r. repeat split; [done|by repeat (constructor; simpl; eauto)].
      * intros [= <- <-]. simpl.
        exists fresh, [PoolQueried (Group.technique mergedGroup)]. simpl.
        rewrite app_nil_r. repeat split; [done|by repeat (constructor; simpl; eauto)].
      * intros [= <- <-]. simpl.
        exists fresh, [PoolQueried (Group.technique mergedGroup)]. simpl.
        rewrite app_nil_r. repeat split; [done|by repeat (constructor; simpl; eauto)].
    + destruct (hasObjectConstructor technique);
        [|intros [= <- <-]; apply logs_dynamic_refl].
      destruct (materials p !! Group.technique mergedGroup) as [material|].
      * intros [= <- <-].
        exists [], [LegacyObjectCreated (Group.technique mergedGroup)
                      geometryIndex mergedGroup].
        simpl. rewrite !app_nil_r. repeat split. by repeat (constructor; simpl; eauto).
      * destruct (createMaterial technique) as [material|];
          intros [= <- <-]; [|apply logs_dynamic_refl].
        exists [], [LegacyObjectCreated (Group.technique mergedGroup)
                      geometryIndex mergedGroup].
        simpl. rewrite !app_nil_r. repeat split. by repeat (constructor; simpl; eauto).
Qed.

(** X7.  [tile.dynamicTechniqueHandlers] gains one entry for every object
    creation by a handler that is dynamic, in the order of the creations,
    and nothing else: a dynamic handler that serves several merged groups
    in the call is listed once for each of them. *)
Theorem createObjects_lists_dynamic_handler_per_creation
    (tile : Tile) (context : TechniqueUpdateContext) (decodedTile : DecodedTile)
    (techniqueFilter : option (Technique -> bool)) (p : Pass) :
  let p' := (createObjects_ tile context decodedTile techniqueFilter p).1.2 in
  exists new,
    events p' = events p ++ new /\
    dynamicTechniqueHandlers p' =
    dynamicTechniqueHandlers p ++ omap (dynamic_of (Pool.handlers (pool p'))) new.
Proof.
  intros p'. unfold p', createObjects. clear p'.
  pose proof (visit_geometries_steps logs_dynamic tile context
                (techniques decodedTile) techniqueFilter 0
                (geometries decodedTile) p logs_dynamic_refl
                logs_dynamic_trans) as Hlog.
  destruct (visit_geometries _ _ _ _ _ _ _ _ _ _ _ _ _ _) as [[geometries' p'] c].
  simpl in *.
  destruct Hlog as (fresh & new & _ & Hev & _ & Hdyn).
  - intros gi f n mg q. exists [], [Merged gi f n mg]. simpl.
    rewrite !app_nil_r. repeat split. by repeat constructor.
  - intros gi srcGeometry group technique mergedGroup q q2 c' _.
    apply dispatch_logs_dynamic.
  - by exists new.
Qed.


(** *** The material cache of the legacy path *)

Definition cache_sound (decoded_techniques : list Technique) (p : Pass) : Prop :=
  forall ti m, materials p !! ti = Some m ->
  exists technique,
    decoded_techniques !! ti = Some technique /\
    createMaterial technique = Some m.

Definition legacy_cached (p2 : Pass) (e : Event) : Prop :=
  match e with
  | LegacyObjectCreated ti _ _ => is_Some (materials p2 !! ti)
  | _ => True
  end.

Definition caches_materials (decoded_techniques : list Technique)
    (p p2 : Pass) : Prop :=
  materials p ⊆ materials p2 /\
  (cache_sound decoded_techniques p -> cache_sound decoded_techniques p2) /\
  exists new, events p2 = events p ++ new /\ Forall (legacy_cached p2) new.

Lemma legacy_cached_more p2 p3 e :
  materials p2 ⊆ materials p3 -> legacy_cached p2 e -> legacy_cached p3 e.
Proof.
  intros Hsub. destruct e; simpl; try done. intros [m Hm]. exists m.
  by eapply lookup_weaken.
Qed.

Lemma caches_materials_refl ts p : caches_materials ts p p.
Proof. split; [done|]. split; [done|]. exists []. by rewrite app_nil_r. Qed.

Lemma caches_materials_trans ts p1 p2 p3 :
  caches_materials ts p1 p2 -> caches_materials ts p2 p3 ->
  caches_materials ts p1 p3.
Proof.
  intros (A1 & A2 & n1 & E1 & L1) (B1 & B2 & n2 & E2 & L2).
  split; [by etrans|]. split; [by auto|].
  exists (n1 ++ n2). split; [by rewrite E2, E1, app_assoc|].
  apply Forall_app. split; [|done].
  eapply Forall_impl; [exact L1|]. intros e. by apply legacy_cached_more.
Qed.

Lemma dispatch_caches_materials ts tile context geometryIndex srcGeometry group
    technique mergedGroup p p2 c :
  ts !! Group.technique mergedGroup = Some technique ->
  dispatch_ tile context geometryIndex srcGeometry group technique mergedGroup p
    = (p2, c) ->
  caches_materials ts p p2.
Proof.
  intros Htechnique. unfold dispatch.
  destruct (techniqueHandlers p !! Group.technique mergedGroup) as [h|].
  - destruct (Pool.handlers (pool p) !! h) as [handler|];
      intros [= <- <-]; [|apply caches_materials_refl].
    split; [done|]. split; [done|]. eexists. split; [reflexivity|].
    by repeat constructor.
  - destruct (Pool.canHandle registry technique).
    + destruct (Pool.getTechniqueHandler _ _ _ _ _ _)
        as [[h|unknown|member] pool']; simpl.
      * destruct (Pool.handlers pool' !! h) as [handler|];
          intros [= <- <-]; simpl.
        -- split; [done|]. split; [done|].
           exists [PoolQueried (Group.technique mergedGroup);
                   CreateObjectCalled h geometryIndex mergedGroup].
           split; [simpl; by rewrite <- app_assoc|by repeat constructor].
        -- split; [done|]. split; [done|]. eexists. split; [reflexivity|].
           by repeat constructor.
      * intros [= <- <-]. split; [done|]. split; [done|]. eexists.
        split; [reflexivity|]. by repeat constructor.
      * intros [= <- <-]. split; [done|]. split; [done|]. eexists.
        split; [reflexivity|]. by repeat constructor.
    + destruct (hasObjectConstructor technique);
        [|intros [= <- <-]; apply caches_materials_refl].
      destruct (materials p !! Group.technique mergedGroup) as [material|] eqn:Hm.
      * intros [= <- <-]. split; [done|]. split; [done|]. eexists.
        split; [reflexivity|]. constructor; [|constructor]. simpl. eauto.
      * destruct (createMaterial technique) as [material|] eqn:Hcreate;
          intros [= <- <-]; [|apply caches_materials_refl].
        split; [by apply insert_subseteq|]. split.
        -- intros Hsound ti m. simpl. rewrite lookup_insert. case_decide.
           ++ subst ti. intros [= <-]. eauto.
           ++ apply Hsound.
        -- eexists. split; [reflexivity|]. constructor; [|constructor].
           simpl. rewrite lookup_insert_eq. eauto.
Qed.

(** X8.  On the path for techniques without a handler the material cache
    is filled: in a call, every object created on that path is drawn with
    the material cached under its technique index, and that material is
    what [createMaterial] gives for the technique with this index; so one
    material serves all objects of a technique index. *)
Theorem createObjects_one_legacy_material_per_technique
    (poolState : @Pool.State Handler) (objects0 : list Drawable)
    (dynamic0 : list nat)
    (tile : Tile) (context : TechniqueUpdateContext) (decodedTile : DecodedTile)
    (techniqueFilter : option (Technique -> bool)) :
  let p := start_pass poolState objects0 dynamic0 in
  let p' := (createObjects_ tile context decodedTile techniqueFilter p).1.2 in
  (forall ti gi mergedGroup,
     LegacyObjectCreated ti gi mergedGroup ∈ events p' ->
     is_Some (materials p' !! ti)) /\
  (forall ti m,
     materials p' !! ti = Some m ->
     exists technique,
       techniques decodedTile !! ti = Some technique /\
       createMaterial technique = Some m).
Proof.
  intros p p'. unfold p', createObjects. clear p'.
  pose proof (visit_geometries_steps
                (caches_materials (techniques decodedTile)) tile context
                (techniques decodedTile) techniqueFilter 0
                (geometries decodedTile) p
                (caches_materials_refl _) (caches_materials_trans _)) as Hlog.
  destruct (visit_geometries _ _ _ _ _ _ _ _ _ _ _ _ _ _) as [[geometries' p'] c].
  simpl in *.
  destruct Hlog as (_ & Hsound & new & Hev & Hcached).
  - intros gi f n mg q. split; [done|]. split; [done|].
    exists [Merged gi f n mg]. split; [done|]. by repeat constructor.
  - intros gi srcGeometry group technique mergedGroup q q2 c'.
    apply dispatch_caches_materials.
  - split.
    + intros ti gi mergedGroup Hin. rewrite Hev in Hin. simpl in Hin.
      rewrite Forall_forall in Hcached. apply (Hcached _ Hin).
    + apply Hsound. intros ti m. unfold p. simpl. by rewrite lookup_empty.
Qed.

(** *** Handlers and the merged groups they serve *)

Definition sound (p : Pass) : Prop :=
  techniqueHandlers p = ∅ /\
  Pool.pool_in_store (pool p) /\
  Pool.pool_shareable isShareableAcrossTiles (pool p).

Definition shareable_in (store : list Handler) (h : nat) : Prop :=
  exists handler, store !! h = Some handler /\
                  isShareableAcrossTiles handler = true.

(** A creation is served by a handler of the store; a handler that
    existed before the step ([h < n0]) came out of the pool. *)
Definition ok_event (n0 : nat) (store : list Handler) (e : Event) : Prop :=
  match e with
  | CreateObjectCalled h _ _ =>
      h < length store /\ (h < n0 -> shareable_in store h)
  | _ => True
  end.

Definition served (n0 : nat) (store : list Handler) (new : list Event) : Prop :=
  Forall (ok_event n0 store) new /\
  forall i j h gi mg gj mj,
    i < j ->
    new !! i = Some (CreateObjectCalled h gi mg) ->
    new !! j = Some (CreateObjectCalled h gj mj) ->
    shareable_in store h.

Definition serves (p p2 : Pass) : Prop :=
  sound p ->
  sound p2 /\
  exists fresh new,
    Pool.handlers (pool p2) = Pool.handlers (pool p) ++ fresh /\
    events p2 = events p ++ new /\
    served (length (Pool.handlers (pool p))) (Pool.handlers (pool p2)) new.

Lemma shareable_in_more store fresh h :
  shareable_in store h -> shareable_in (store ++ fresh) h.
Proof.
  intros (handler & Hh & Hs). exists handler. split; [|done].
  by apply lookup_app_l_Some.
Qed.

Lemma served_nil n0 store : served n0 store [].
Proof. split; [constructor|]. intros i j h gi mg gj mj _ Hi. done. Qed.

Lemma serves_refl p : serves p p.
Proof.
  intros Hs. split; [done|]. exists [], []. rewrite !app_nil_r.
  split; [done|]. split; [done|]. apply served_nil.
Qed.

Lemma serves_trans p1 p2 p3 : serves p1 p2 -> serves p2 p3 -> serves p1 p3.
Proof.
  intros H12 H23 Hs1.
  destruct (H12 Hs1) as (Hs2 & f1 & n1 & S1 & E1 & [O1 P1]).
  destruct (H23 Hs2) as (Hs3 & f2 & n2 & S2 & E2 & [O2 P2]).
  split; [done|]. exists (f1 ++ f2), (n1 ++ n2).
  split; [by rewrite S2, S1, app_assoc|].
  split; [by rewrite E2, E1, app_assoc|].
  assert (Hlen : length (Pool.handlers (pool p1))
                 <= length (Pool.handlers (pool p2)))
    by (rewrite S1, length_app; lia).
  assert (Hlen' : length (Pool.handlers (pool p2))
                  <= length (Pool.handlers (pool p3)))
    by (rewrite S2, length_app; lia).
  assert (O1' : Forall (ok_event (length (Pool.handlers (pool p1)))
                          (Pool.handlers (pool p3))) n1).
  { eapply Forall_impl; [exact O1|]. intros e. destruct e; simpl; try done.
    intros [Hlt Hold]. split; [lia|]. intros Hh. rewrite S2.
    by apply shareable_in_more, Hold. }
  assert (O2' : Forall (ok_event (length (Pool.handlers (pool p1)))
                          (Pool.handlers (pool p3))) n2).
  { eapply Forall_impl; [exact O2|]. intros e. destruct e; simpl; try done.
    intros [Hlt Hold]. split; [done|]. intros Hh. apply Hold. lia. }
  split; [by apply Forall_app|].
  intros i j h gi mg gj mj Hij Hi Hj.
  destruct (decide (j < length n1)) as [Hj1|Hj2].
  - rewrite lookup_app_l in Hi by lia. rewrite lookup_app_l in Hj by lia.
    rewrite S2. apply shareable_in_more.
    exact (P1 _ _ _ _ _ _ _ Hij Hi Hj).
  - rewrite lookup_app_r in Hj by lia.
    destruct (decide (i < length n1)) as [Hi1|Hi2].
    + rewrite lookup_app_l in Hi by lia.
      rewrite Forall_lookup in O1. specialize (O1 _ _ Hi). simpl in O1.
      rewrite Forall_lookup in O2. specialize (O2 _ _ Hj). simpl in O2.
      apply O2. lia.
    + rewrite lookup_app_r in Hi by lia.
      apply (P2 (i - length n1) (j - length n1) h gi mg gj mj); [lia|done..].
Qed.

Lemma served_single n0 store e : ok_event n0 store e -> served n0 store [e].
Proof.
  intros He. split; [by repeat constructor|].
  intros i j h gi mg gj mj Hij Hi Hj.
  destruct j as [|j]; [lia|]. done.
Qed.

Lemma served_queried n0 store ti e :
  ok_event n0 store e -> served n0 store [PoolQueried ti; e].
Proof.
  intros He. split; [by repeat constructor|].
  intros i j h gi mg gj mj Hij Hi Hj.
  destruct i as [|i]; [done|]. destruct j as [|[|j]]; [lia|lia|done].
Qed.

Lemma dispatch_serves tile context geometryIndex srcGeometry group technique
    mergedGroup p p2 c :
  dispatch_ tile context geometryIndex srcGeometry group technique mergedGroup p
    = (p2, c) ->
  serves p p2.
Proof.
  intros Hd Hs. pose proof Hs as (Hcache & Hin & Hsh).
  unfold dispatch in Hd. rewrite Hcache, lookup_empty in Hd.
  destruct (Pool.canHandle registry technique) eqn:Hcan.
  - pose proof (Pool.step_pool_in_store isShareableAcrossTiles registry (pool p)
                  (Pool.Get technique tile context) Hin) as Hin'.
    pose proof (Pool.step_pool_shareable isShareableAcrossTiles registry (pool p)
                  (Pool.Get technique tile context) Hsh) as Hsh'.
    simpl in Hin', Hsh'.
    destruct (Pool.pool (pool p) !! _key technique) as [r|] eqn:Hpooled.
    + rewrite (Pool.getTechniqueHandler_pooled _ _ _ _ _ _ _ Hpooled) in *.
      simpl in Hd.
      destruct (Hsh _ _ Hpooled) as (handler & Hh & Hshareable).
      rewrite Hh in Hd. injection Hd as <- <-.
      split; [done|]. exists [], [PoolQueried (Group.technique mergedGroup);
               CreateObjectCalled r geometryIndex mergedGroup].
      simpl. rewrite app_nil_r, <- app_assoc. split; [done|]. split; [done|].
      apply served_queried. simpl. split; [by eapply lookup_lt_Some|].
      intros _. by exists handler.
    + destruct (registry !! name technique) as [ctor|] eqn:Hctor.
      * rewrite (Pool.getTechniqueHandler_constructs _ _ _ _ _ _ _ Hpooled Hctor)
          in *.
        simpl in Hd, Hin', Hsh'.
        rewrite lookup_app_r in Hd by lia. rewrite Nat.sub_diag in Hd.
        simpl in Hd. injection Hd as <- <-.
        split; [done|]. eexists [_], [PoolQueried (Group.technique mergedGroup);
                 CreateObjectCalled _ geometryIndex mergedGroup].
        simpl. rewrite <- app_assoc. split; [done|]. split; [done|].
        apply served_queried. simpl. rewrite length_app. simpl.
        split; lia.
      * rewrite (Pool.getTechniqueHandler_unregistered _ _ _ _ _ _
                   Hpooled Hctor) in Hd.
        destruct (Pool.inherited (name technique)); simpl in Hd;
          injection Hd as <- <-;
          (split; [done|]);
          exists [], [PoolQueried (Group.technique mergedGroup)]; simpl;
          rewrite app_nil_r; (split; [done|]); (split; [done|]);
          by apply served_single.
  - destruct (hasObjectConstructor technique).
    2:{ injection Hd as <- <-. by apply serves_refl. }
    destruct (materials p !! Group.technique mergedGroup) as [material|].
    + injection Hd as <- <-. split; [done|].
      exists [], [LegacyObjectCreated (Group.technique mergedGroup)
                    geometryIndex mergedGroup].
      simpl. rewrite app_nil_r. split; [done|]. split; [done|].
      by apply served_single.
    + destruct (createMaterial technique) as [material|];
        injection Hd as <- <-; [|by apply serves_refl].
      split; [done|].
      exists [], [LegacyObjectCreated (Group.technique mergedGroup)
                    geometryIndex mergedGroup].
      simpl. rewrite app_nil_r. split; [done|]. split; [done|].
      by apply served_single.
Qed.


Lemma createObjects_serves tile context decodedTile techniqueFilter p :
  serves p (createObjects_ tile context decodedTile techniqueFilter p).1.2.
Proof.
  unfold createObjects.
  pose proof (visit_geometries_steps serves tile context
                (techniques decodedTile) techniqueFilter 0
                (geometries decodedTile) p serves_refl serves_trans) as Hlog.
  destruct (visit_geometries _ _ _ _ _ _ _ _ _ _ _ _ _ _) as [[geometries' p'] c].
  simpl in *. apply Hlog.
  - intros gi f n mg q Hs. split; [done|]. exists [], [Merged gi f n mg].
    simpl. rewrite app_nil_r. split; [done|]. split; [done|].
    by apply served_single.
  - intros gi srcGeometry group technique mergedGroup q q2 c' _ Hd.
    exact (dispatch_serves _ _ _ _ _ _ _ _ _ _ Hd).
Qed.

(** X9.  Within one call, a handler that is not shareable across tiles
    serves one merged group only: if two creations of the call are served
    by the same handler, that handler reported itself shareable (and so
    came out of the pool the second time).  The pool is any pool reached
    from the empty one. *)
Theorem createObjects_private_handler_serves_once
    (history : list Pool.Call) (objects0 : list Drawable) (dynamic0 : list nat)
    (tile : Tile) (context : TechniqueUpdateContext) (decodedTile : DecodedTile)
    (techniqueFilter : option (Technique -> bool)) :
  let p := start_pass
             (Pool.run isShareableAcrossTiles registry history Pool.initial)
             objects0 dynamic0 in
  let p' := (createObjects_ tile context decodedTile techniqueFilter p).1.2 in
  forall i j h gi mergedGroup gj mergedGroup',
    i < j ->
    events p' !! i = Some (CreateObjectCalled h gi mergedGroup) ->
    events p' !! j = Some (CreateObjectCalled h gj mergedGroup') ->
    exists handler,
      Pool.handlers (pool p') !! h = Some handler /\
      isShareableAcrossTiles handler = true.
Proof.
  intros p p' i j h gi mergedGroup gj mergedGroup' Hij Hi Hj.
  destruct (createObjects_serves tile context decodedTile techniqueFilter p)
    as (_ & fresh & new & _ & Hev & _ & Hpairs).
  { split; [done|]. split.
    - apply Pool.run_pool_in_store, Pool.initial_pool_in_store.
    - apply Pool.run_pool_shareable. intros k r. simpl.
      by rewrite lookup_empty. }
  fold p' in Hev, Hpairs. simpl in Hev. rewrite Hev in Hi, Hj.
  exact (Hpairs _ _ _ _ _ _ _ Hij Hi Hj).
Qed.

(** *** When the call throws *)

(** A group the loop has to look at names a technique of the decoded
    tile. *)
Definition indexed (decoded_techniques : list Technique) (tileOffset : Z)
    (group : Group.t) : Prop :=
  created_for tileOffset group = false ->
  is_Some (decoded_techniques !! Group.technique group).

Lemma merges_with_technique techniqueIndex e run e' :
  merges_with techniqueIndex e run e' ->
  Forall (fun g => Group.technique g = techniqueIndex) run.
Proof. induction 1; by constructor. Qed.

(** The name of the technique is no member inherited from
    [Object.prototype], unless a handler module registered it. *)
Definition registered_if_inherited (technique : Technique) : Prop :=
  name technique ∈ Pool.Object_prototype -> is_Some (registry !! name technique).

Lemma dispatch_completion tile context geometryIndex srcGeometry group
    technique mergedGroup p p2 c :
  dispatch_ tile context geometryIndex srcGeometry group technique mergedGroup p
    = (p2, c) ->
  sound p ->
  registered_if_inherited technique ->
  c = Normal.
Proof.
  intros Hd (Hcache & Hin & Hsh) Hname.
  unfold dispatch in Hd. rewrite Hcache, lookup_empty in Hd.
  destruct (Pool.canHandle registry technique) eqn:Hcan.
  - destruct (Pool.pool (pool p) !! _key technique) as [r|] eqn:Hpooled.
    + rewrite (Pool.getTechniqueHandler_pooled _ _ _ _ _ _ _ Hpooled) in Hd.
      simpl in Hd.
      destruct (Hsh _ _ Hpooled) as (handler & Hh & _). rewrite Hh in Hd.
      by injection Hd as <- <-.
    + assert (Hregistered : is_Some (registry !! name technique)).
      { destruct (decide (name technique ∈ Pool.Object_prototype)) as [Hi|Hi];
          [by apply Hname|].
        unfold Pool.canHandle, Pool.inherited in Hcan.
        destruct (registry !! name technique); [by eexists|].
        by apply bool_decide_eq_true in Hcan. }
      destruct Hregistered as [ctor Hctor].
      rewrite (Pool.getTechniqueHandler_constructs _ _ _ _ _ _ _ Hpooled Hctor)
        in Hd.
      simpl in Hd.
      rewrite lookup_app_r in Hd by lia. rewrite Nat.sub_diag in Hd.
      simpl in Hd. by injection Hd as <- <-.
  - destruct (hasObjectConstructor technique); [|by injection Hd as <- <-].
    destruct (materials p !! Group.technique mergedGroup) as [material|];
      [by injection Hd as <- <-|].
    destruct (createMaterial technique) as [material|];
      by injection Hd as <- <-.
Qed.

Lemma loop_completion tile context decoded_techniques techniqueFilter
    geometryIndex srcGeometry visited ahead p r :
  loop_ tile context decoded_techniques techniqueFilter geometryIndex
    srcGeometry visited ahead p r ->
  Forall registered_if_inherited decoded_techniques ->
  sound p ->
  sound r.1.2 /\
  (r.2 = Normal <-> Forall (indexed decoded_techniques (offset tile)) ahead).
Proof.
  intros Hloop Hnames.
  induction Hloop as
    [visited p
    |visited group following p r Hcreated _ IH
    |visited group following p Hcreated Htechnique
    |visited group following p r technique Hcreated Htechnique Hrejected _ IH
    |visited group following p technique count taken untaken p2
       Hcreated Htechnique Hrejected Hcompress Hd
    |visited group following p technique count taken untaken p2 r
       Hcreated Htechnique Hrejected Hcompress Hd _ IH];
    intros Hs; simpl.
  - split; [done|]. split; [constructor|done].
  - destruct (IH Hs) as [Hs' Hiff]. split; [done|]. rewrite Hiff.
    rewrite Forall_cons. split; [|tauto]. intros H. split; [|done].
    intros Hc. congruence.
  - split; [done|]. split; [done|]. rewrite Forall_cons. intros [Hg _].
    specialize (Hg Hcreated). rewrite Htechnique in Hg. by destruct Hg.
  - destruct (IH Hs) as [Hs' Hiff]. split; [done|]. rewrite Hiff.
    rewrite Forall_cons. split; [|tauto]. intros H. split; [|done].
    intros _. by rewrite Htechnique.
  - exfalso.
    assert (Hs1 : sound (record_event
                           (Merged geometryIndex (length visited)
                              (S (length taken)) (merged_group group count)) p))
      by done.
    assert (Hname : registered_if_inherited technique).
    { rewrite Forall_forall in Hnames. apply Hnames.
      by eapply list_elem_of_lookup_2. }
    by pose proof (dispatch_completion _ _ _ _ _ _ _ _ _ _ Hd Hs1 Hname).
  - assert (Hs1 : sound (record_event
                           (Merged geometryIndex (length visited)
                              (S (length taken)) (merged_group group count)) p))
      by done.
    destruct (dispatch_serves _ _ _ _ _ _ _ _ _ _ Hd Hs1) as [Hs2 _].
    destruct (IH Hs2) as [Hs' Hiff]. split; [done|]. rewrite Hiff.
    destruct (compress_run _ _ _ _ _ _ _ _ Hcompress)
      as (run & -> & _ & Hm & _).
    apply merges_with_technique in Hm.
    rewrite Forall_cons, Forall_app. split; [|tauto]. intros H.
    split; [|split; [|done]].
    + intros _. by rewrite Htechnique.
    + eapply Forall_impl; [exact Hm|]. intros g Hg _. simpl in Hg.
      by rewrite Hg, Htechnique.
Qed.

Lemma visit_geometries_completion tile context decoded_techniques
    techniqueFilter gi remaining p :
  Forall registered_if_inherited decoded_techniques ->
  sound p ->
  (visit_geometries_ tile context decoded_techniques techniqueFilter gi
     remaining p).2 = Normal <->
  Forall (fun g => Forall (indexed decoded_techniques (offset tile)) (groups g))
    remaining.
Proof.
  intros Hnames.
  revert gi p. induction remaining as [|srcGeometry more IH]; intros gi p Hs;
    simpl.
  - split; [constructor|done].
  - pose proof (visit_groups_loop isShareableAcrossTiles isDynamic registry
                  createObject hasObjectConstructor createMaterial legacyObject
                  tile context decoded_techniques
                  techniqueFilter gi srcGeometry (length (groups srcGeometry))
                  [] (groups srcGeometry) p (le_n _)) as Hloop.
    apply loop_completion in Hloop; [|done..].
    destruct (visit_groups _ _ _ _ _ _ _ _ _ _ _ _ _ _ _ _ _)
      as [[groups' p1] c1].
    simpl in Hloop. destruct Hloop as [Hs1 Hiff].
    rewrite Forall_cons, <- Hiff. destruct c1; simpl.
    + specialize (IH (S gi) p1 Hs1).
      destruct (visit_geometries _ _ _ _ _ _ _ _ _ _ _ _ more p1)
        as [[more' p2] c2].
      simpl in *. rewrite <- IH. tauto.
    + split; [done|]. by intros [? _].
Qed.

(** X10.  Take a call of [createObjects] on a pool reached from the empty
    one, for a decoded tile none of whose techniques is named after a
    member that the registry inherits from [Object.prototype] without a
    handler module having registered the name.  The call ends normally
    exactly when every group that is not yet created for the tile's offset
    names a technique of the decoded tile; otherwise reading
    [technique.enabled] of the missing technique throws.  The pool does
    not throw in the call, since it is only asked for techniques it has a
    constructor for.  (The registered constructors, the handlers'
    [createObject] and the helpers of the legacy path are functions of the
    model: this is a statement about calls in which they return.) *)
Theorem createObjects_throws_iff_technique_missing
    (history : list Pool.Call) (objects0 : list Drawable) (dynamic0 : list nat)
    (tile : Tile) (context : TechniqueUpdateContext) (decodedTile : DecodedTile)
    (techniqueFilter : option (Technique -> bool))
    (Hnames : Forall registered_if_inherited (techniques decodedTile)) :
  let p := start_pass
             (Pool.run isShareableAcrossTiles registry history Pool.initial)
             objects0 dynamic0 in
  (createObjects_ tile context decodedTile techniqueFilter p).2 = Normal <->
  forall srcGeometry group,
    srcGeometry ∈ geometries decodedTile ->
    group ∈ groups srcGeometry ->
    created_for (offset tile) group = false ->
    is_Some (techniques decodedTile !! Group.technique group).
Proof.
  intros p. unfold createObjects.
  pose proof (visit_geometries_completion tile context (techniques decodedTile)
                techniqueFilter 0 (geometries decodedTile) p Hnames) as Hiff.
  destruct (visit_geometries _ _ _ _ _ _ _ _ _ _ _ _ _ _) as [[geometries' p'] c].
  simpl in *. rewrite Hiff.
  - rewrite Forall_forall. split.
    + intros H srcGeometry group Hg Hgroup.
      specialize (H _ Hg). rewrite Forall_forall in H. exact (H _ Hgroup).
    + intros H srcGeometry Hg. rewrite Forall_forall. intros group Hgroup.
      exact (H _ _ Hg Hgroup).
  - split; [done|]. split.
    + apply Pool.run_pool_in_store, Pool.initial_pool_in_store.
    + apply Pool.run_pool_shareable. intros k r. simpl.
      by rewrite lookup_empty.
Qed.


(** *** The technique filter *)

Lemma visit_groups_filter_ext (f1 f2 : option (Technique -> bool)) fuel tile
    context decoded_techniques gi srcGeometry visited ahead p :
  (forall technique, rejected f1 technique = rejected f2 technique) ->
  visit_groups isShareableAcrossTiles isDynamic registry createObject
    hasObjectConstructor createMaterial legacyObject
    fuel tile context decoded_techniques f1 gi srcGeometry visited ahead p =
  visit_groups isShareableAcrossTiles isDynamic registry createObject
    hasObjectConstructor createMaterial legacyObject
    fuel tile context decoded_techniques f2 gi srcGeometry visited ahead p.
Proof.
  intros Hext. revert visited ahead p.
  induction fuel as [|fuel IH]; intros visited ahead p; simpl; [done|].
  destruct ahead as [|group following]; [done|].
  destruct (created_for (offset tile) group); [apply IH|].
  destruct (decoded_techniques !! Group.technique group) as [technique|];
    [|done].
  rewrite Hext. destruct (rejected f2 technique); [apply IH|].
  destruct (compress _ _ _ _ following) as [[count taken] untaken].
  destruct (dispatch _ _ _ _ _ _ _ _ _ _ _ _ _ _ _) as [p2 [|]]; [apply IH|done].
Qed.

Lemma visit_geometries_filter_ext (f1 f2 : option (Technique -> bool)) tile
    context decoded_techniques gi remaining p :
  (forall technique, rejected f1 technique = rejected f2 technique) ->
  visit_geometries_ tile context decoded_techniques f1 gi remaining p =
  visit_geometries_ tile context decoded_techniques f2 gi remaining p.
Proof.
  intros Hext. revert gi p.
  induction remaining as [|srcGeometry more IH]; intros gi p; simpl; [done|].
  rewrite (visit_groups_filter_ext f1 f2) by done.
  destruct (visit_groups _ _ _ _ _ _ _ _ _ _ _ _ _ _ _ _ _)
    as [[groups' p1] [|]]; [|done].
  by rewrite IH.
Qed.

(** The filter that [createAllGeometries] hands to [createObjects]:
    [technique => technique.enabled !== false]. *)
Definition createAllGeometries_filter (technique : Technique) : bool :=
  match enabled technique with
  | Some false => false
  | _ => true
  end.

(** X11.  [createObjects] itself skips techniques whose [enabled] is
    [false], so the filter of [createAllGeometries] rejects nothing that
    would not be rejected anyway: the call with that filter does exactly
    what the call without a filter does. *)
Theorem createAllGeometries_filter_is_redundant
    (tile : Tile) (context : TechniqueUpdateContext) (decodedTile : DecodedTile)
    (p : Pass) :
  createObjects_ tile context decodedTile (Some createAllGeometries_filter) p =
  createObjects_ tile context decodedTile None p.
Proof.
  unfold createObjects.
  rewrite (visit_geometries_filter_ext (Some createAllGeometries_filter) None);
    [done|].
  intros technique. unfold rejected, createAllGeometries_filter.
  by destruct (enabled technique) as [[|]|].
Qed.

(** *** Tile offsets are independent *)

(** Two groups that the loop cannot tell apart when it works for
    [tileOffset]. *)
Definition same_for (tileOffset : Z) (g g' : Group.t) : Prop :=
  Group.start g' = Group.start g /\
  Group.count g' = Group.count g /\
  Group.technique g' = Group.technique g /\
  Group.renderOrderOffset g' = Group.renderOrderOffset g /\
  created_for tileOffset g' = created_for tileOffset g.

(** Two passes that differ at most in the objects of the tile. *)
Definition same_log (p q : Pass) : Prop :=
  pool q = pool p /\
  materials q = materials p /\
  techniqueHandlers q = techniqueHandlers p /\
  dynamicTechniqueHandlers q = dynamicTechniqueHandlers p /\
  events q = events p.

Lemma same_for_mark tileOffset g g' :
  same_for tileOffset g g' ->
  same_for tileOffset (mark tileOffset g) (mark tileOffset g').
Proof.
  intros (A & B & C & D & E). repeat split; try done.
  by rewrite !created_for_mark.
Qed.

Lemma compress_same_for tileOffset start techniqueIndex count following
    following' :
  Forall2 (same_for tileOffset) following following' ->
  let r := compress tileOffset start techniqueIndex count following in
  let r' := compress tileOffset start techniqueIndex count following' in
  r'.1.1 = r.1.1 /\
  Forall2 (same_for tileOffset) r.1.2 r'.1.2 /\
  Forall2 (same_for tileOffset) r.2 r'.2.
Proof.
  intros H. revert count.
  induction H as [|next next' later later' Hnext Hlater IH]; intros count;
    simpl; [by repeat split|].
  destruct Hnext as (A & B & C & D & E). rewrite A, B, C.
  destruct (Nat.eqb _ _).
  2:{ simpl. repeat split; try done. constructor; [by repeat split|done]. }
  destruct (_ =? _)%Z.
  2:{ simpl. repeat split; try done. constructor; [by repeat split|done]. }
  specialize (IH (count + Group.count next)%Z). simpl in IH.
  destruct (compress _ _ _ _ later) as [[total taken] untaken].
  destruct (compress _ _ _ _ later') as [[total' taken'] untaken'].
  simpl in *. destruct IH as (-> & Ht & Hu).
  repeat split; try done. constructor; [|done].
  apply same_for_mark. by repeat split.
Qed.

Lemma dispatch_same_log tile context geometryIndex srcGeometry srcGeometry'
    group group' technique mergedGroup p q :
  same_log p q ->
  let r := dispatch_ tile context geometryIndex srcGeometry group technique
             mergedGroup p in
  let r' := dispatch_ tile context geometryIndex srcGeometry' group' technique
              mergedGroup q in
  same_log r.1 r'.1 /\ r'.2 = r.2.
Proof.
  intros (A & B & C & D & E). cbv zeta. unfold dispatch. rewrite A, B, C.
  destruct (techniqueHandlers p !! Group.technique mergedGroup) as [h|].
  - simpl. rewrite A.
    destruct (Pool.handlers (pool p) !! h) as [handler|]; simpl.
    + rewrite ?B, ?C, ?D, ?E. by repeat split.
    + by repeat split.
  - destruct (Pool.canHandle registry technique).
    + destruct (Pool.getTechniqueHandler _ _ _ _ _ _)
        as [[h|unknown|member] pool']; simpl.
      * destruct (Pool.handlers pool' !! h) as [handler|]; simpl;
          rewrite ?B, ?C, ?D, ?E; by repeat split.
      * rewrite ?B, ?C, ?D, ?E. by repeat split.
      * rewrite ?B, ?C, ?D, ?E. by repeat split.
    + destruct (hasObjectConstructor technique); [|by repeat split].
      destruct (materials p !! Group.technique mergedGroup) as [material|].
      * simpl. rewrite ?A, ?B, ?C, ?D, ?E. by repeat split.
      * destruct (createMaterial technique) as [material|]; [|by repeat split].
        simpl. rewrite ?A, ?B, ?C, ?D, ?E. by repeat split.
Qed.


Lemma same_log_event e p q : same_log p q -> same_log (record_event e p) (record_event e q).
Proof. intros (A & B & C & D & E). repeat split; simpl; congruence. Qed.

Lemma visit_groups_same_for fuel tile context decoded_techniques techniqueFilter
    gi srcGeometry srcGeometry' visited visited' ahead ahead' p q :
  Forall2 (same_for (offset tile)) visited visited' ->
  Forall2 (same_for (offset tile)) ahead ahead' ->
  same_log p q ->
  let r := visit_groups isShareableAcrossTiles isDynamic registry createObject
             hasObjectConstructor createMaterial legacyObject fuel tile context
             decoded_techniques techniqueFilter gi srcGeometry visited ahead p in
  let r' := visit_groups isShareableAcrossTiles isDynamic registry createObject
              hasObjectConstructor createMaterial legacyObject fuel tile context
              decoded_techniques techniqueFilter gi srcGeometry' visited' ahead'
              q in
  Forall2 (same_for (offset tile)) r.1.1 r'.1.1 /\
  same_log r.1.2 r'.1.2 /\ r'.2 = r.2.
Proof.
  cbv zeta. revert visited visited' ahead ahead' p q.
  induction fuel as [|fuel IH]; intros visited visited' ahead ahead' p q Hv Ha Hl;
    simpl.
  { split; [by apply Forall2_app|done]. }
  destruct Ha as [|group group' following following' Hg Hf]; [done|].
  pose proof Hg as (A & B & C & D & E). rewrite A, C, E.
  assert (Hv1 : Forall2 (same_for (offset tile)) (visited ++ [group])
                  (visited' ++ [group']))
    by (apply Forall2_app; [done|by constructor]).
  destruct (created_for (offset tile) group); [by apply IH|].
  destruct (decoded_techniques !! Group.technique group) as [technique|].
  2:{ simpl. split; [|done]. apply Forall2_app; [done|by constructor]. }
  destruct (rejected techniqueFilter technique); [by apply IH|].
  rewrite B.
  pose proof (compress_same_for (offset tile) (Group.start group)
                (Group.technique group) (Group.count group) following
                following' Hf) as Hc.
  simpl in Hc.
  destruct (compress _ _ _ _ following) as [[count taken] untaken].
  destruct (compress _ _ _ _ following') as [[count' taken'] untaken'].
  simpl in Hc. destruct Hc as (-> & Ht & Hu).
  rewrite (Forall2_length _ _ _ Hv), (Forall2_length _ _ _ Ht).
  match goal with
  | |- context [dispatch _ _ _ _ _ _ _ _ _ _ srcGeometry group technique ?mg
                  (record_event ?e p)] =>
      pose proof (dispatch_same_log tile context gi srcGeometry srcGeometry'
                    group group' technique mg (record_event e p)
                    (record_event e q) (same_log_event e p q Hl)) as Hd
  end.
  simpl in Hd.
  destruct (dispatch _ _ _ _ _ _ _ _ _ _ srcGeometry _ _ _ _) as [p2 c2].
  destruct (dispatch _ _ _ _ _ _ _ _ _ _ srcGeometry' _ _ _ _) as [q2 c2'].
  simpl in Hd. destruct Hd as [Hl2 ->].
  assert (Hv2 : Forall2 (same_for (offset tile))
                  (visited ++ mark (offset tile) group :: taken)
                  (visited' ++ mark (offset tile) group' :: taken')).
  { apply Forall2_app; [done|]. constructor; [by apply same_for_mark|done]. }
  destruct c2; [by apply IH|].
  simpl. split; [|done]. by apply Forall2_app.
Qed.

Definition same_groups_for (tileOffset : Z) (g g' : Geometry) : Prop :=
  Forall2 (same_for tileOffset) (groups g) (groups g').

Lemma visit_geometries_same_for tile context decoded_techniques techniqueFilter
    gi remaining remaining' p q :
  Forall2 (same_groups_for (offset tile)) remaining remaining' ->
  same_log p q ->
  let r := visit_geometries_ tile context decoded_techniques techniqueFilter gi
             remaining p in
  let r' := visit_geometries_ tile context decoded_techniques techniqueFilter gi
              remaining' q in
  Forall2 (same_groups_for (offset tile)) r.1.1 r'.1.1 /\
  same_log r.1.2 r'.1.2 /\ r'.2 = r.2.
Proof.
  cbv zeta. intros H. revert gi p q.
  induction H as [|g g' more more' Hg Hmore IH]; intros gi p q Hl; simpl;
    [split; [constructor|done]|].
  pose proof (visit_groups_same_for (length (groups g)) tile context
                decoded_techniques techniqueFilter gi g g' [] []
                (groups g) (groups g') p q ltac:(constructor) Hg Hl) as Hv.
  simpl in Hv. rewrite <- (Forall2_length _ _ _ Hg).
  destruct (visit_groups _ _ _ _ _ _ _ _ _ _ _ _ _ g _ _ _) as [[gs p1] c1].
  destruct (visit_groups _ _ _ _ _ _ _ _ _ _ _ _ _ g' _ _ _) as [[gs' q1] c1'].
  simpl in Hv. destruct Hv as (Hgs & Hl1 & ->).
  destruct c1.
  - specialize (IH (S gi) p1 q1 Hl1).
    destruct (visit_geometries _ _ _ _ _ _ _ _ _ _ _ _ more p1)
      as [[ms p2] c2].
    destruct (visit_geometries _ _ _ _ _ _ _ _ _ _ _ _ more' q1)
      as [[ms' q2] c2'].
    simpl in *. destruct IH as (Hms & Hl2 & ->).
    split; [|done]. by constructor.
  - simpl. split; [|done]. by constructor.
Qed.

(** X12.  What was created for one tile offset has no influence on what is
    created for another.  After a call for a tile with a different offset,
    a call for this tile logs the same merged groups and creations, asks
    the pool for the same handlers and ends the same way as it would on the
    decoded tile the first call had not touched. *)
Theorem createObjects_offsets_are_independent
    (tile other : Tile) (context context1 : TechniqueUpdateContext)
    (decodedTile : DecodedTile)
    (techniqueFilter techniqueFilter1 : option (Technique -> bool))
    (p p1 : Pass)
    (Hother : offset other <> offset tile) :
  let visited := (createObjects_ other context1 decodedTile techniqueFilter1 p1).1.1 in
  let r := createObjects_ tile context decodedTile techniqueFilter p in
  let r' := createObjects_ tile context visited techniqueFilter p in
  r'.2 = r.2 /\
  events r'.1.2 = events r.1.2 /\
  pool r'.1.2 = pool r.1.2 /\
  dynamicTechniqueHandlers r'.1.2 = dynamicTechniqueHandlers r.1.2 /\
  Forall2 (same_groups_for (offset tile)) (geometries r.1.1) (geometries r'.1.1).
Proof.
  intros visited r r'.
  destruct (createObjects_marks_groups other context1 decodedTile
              techniqueFilter1 p1) as (Hts & Hgs).
  fold visited in Hts, Hgs.
  assert (Hrel : Forall2 (same_groups_for (offset tile))
                   (geometries decodedTile) (geometries visited)).
  { eapply Forall2_impl; [exact Hgs|]. intros g g' (_ & _ & Hgroups).
    eapply Forall2_impl; [exact Hgroups|]. intros group group' [->| ->].
    - by repeat split.
    - repeat split. by apply created_for_mark_other. }
  pose proof (visit_geometries_same_for tile context (techniques decodedTile)
                techniqueFilter 0 (geometries decodedTile) (geometries visited)
                p p Hrel ltac:(by repeat split)) as Hsame.
  unfold r, r', createObjects. rewrite Hts. simpl in Hsame.
  destruct (visit_geometries _ _ _ _ _ _ _ _ _ _ _ _ (geometries decodedTile) p)
    as [[gs q] c].
  destruct (visit_geometries _ _ _ _ _ _ _ _ _ _ _ _ (geometries visited) p)
    as [[gs' q'] c'].
  simpl in *. destruct Hsame as (Hgs' & (A & B & C & D & E) & ->).
  by repeat split.
Qed.

End PassFacts.

(** A handler that is dynamic, and one tile that is a wrapped-around copy
    of another. *)
Lemma createObjects_private_handler_serves_once_witness :
  exists handler,
    Pool.handlers
      (pool (run_createObjects (Pool.sample_tile 1)
               (two_separate_groups technique_A) first_pass).1.2) !! 0
    = Some handler /\
    Pool.shareable handler = true.
Proof.
  apply (createObjects_private_handler_serves_once Pool.shareable never_dynamic
           Pool.sample_registry span_object is_line line_material_of
           line_object [] [] [] (Pool.sample_tile 1) Pool.sample_context
           (two_separate_groups technique_A) None
           2 5 0 0 (span 0 5 0) 0 (span 10 5 0));
    [lia | vm_compute; reflexivity | vm_compute; reflexivity].
Defined.

Definition shifted_tile : Tile :=
  {| tileKey := 1; offset := 1; frameNumLastVisible := 0;
     tileProjection := Planar; boundingBoxSize := (1%float, 1%float) |}.

Example both_offsets_get_their_objects :
  let '(decodedTile', p', _) :=
    run_createObjects shifted_tile three_groups first_pass in
  let '(decodedTile'', p'', c) :=
    run_createObjects (Pool.sample_tile 1) decodedTile'
      (start_pass (pool p') (tile_objects p') (dynamicTechniqueHandlers p')) in
  c = Normal /\
  tile_objects p'' = [(0, 8); (8, 2); (0, 8); (8, 2)]%Z /\
  ((fun g => Group.createdOffsets <$> groups g) <$> geometries decodedTile'')
    = [[[1; 0]; [1; 0]; [1; 0]]]%Z.
Proof. vm_compute. repeat split; reflexivity. Qed.

Lemma createObjects_offsets_are_independent_witness :
  events (run_createObjects (Pool.sample_tile 1)
            (run_createObjects shifted_tile three_groups first_pass).1.1
            first_pass).1.2
  = events (run_createObjects (Pool.sample_tile 1) three_groups first_pass).1.2.
Proof.
  destruct (createObjects_offsets_are_independent Pool.shareable never_dynamic
              Pool.sample_registry span_object is_line line_material_of
              line_object (Pool.sample_tile 1) shifted_tile Pool.sample_context
              Pool.sample_context three_groups None None first_pass first_pass
              ltac:(simpl; lia))
    as (_ & Hevents & _).
  exact Hevents.
Defined.

Lemma createObjects_throws_iff_technique_missing_witness :
  Forall (registered_if_inherited Pool.sample_registry)
    (techniques three_groups) /\
  (run_createObjects (Pool.sample_tile 1) three_groups first_pass).2 = Normal.
Proof.
  assert (Hnames : Forall (registered_if_inherited Pool.sample_registry)
                     (techniques three_groups)).
  { apply Forall_cons_2; [|apply Forall_cons_2; [|apply Forall_nil_2]];
      intros Hin; exfalso; revert Hin;
      by apply (bool_decide_eq_false_1 ("fill" ∈ Pool.Object_prototype)). }
  split; [exact Hnames|].
  apply (createObjects_throws_iff_technique_missing Pool.shareable never_dynamic
           Pool.sample_registry span_object is_line line_material_of
           line_object [] [] [] (Pool.sample_tile 1) Pool.sample_context
           three_groups None Hnames).
  intros srcGeometry group Hgeometry Hgroup _.
  apply list_elem_of_singleton in Hgeometry. subst srcGeometry.
  simpl in Hgroup. rewrite !elem_of_cons, elem_of_nil in Hgroup.
  destruct Hgroup as [->|[->|[->|[]]]]; by eexists.
Defined.

(** A group whose technique is named [constructor]: the loop body takes
    the handler branch, since [canHandle] accepts the name, and the call
    throws in the pool; no object is created. *)
Example inherited_name_throws_in_pool :
  let '(_, p', c) :=
    run_createObjects (Pool.sample_tile 1)
      (two_separate_groups Pool.inherited_name) first_pass in
  c = Thrown /\
  events p' = [Merged 0 0 1 (span 0 5 0); PoolQueried 0] /\
  tile_objects p' = [].
Proof. vm_compute. repeat split; reflexivity. Qed.

(** *** Techniques as the set-up functions see them *)

(** [technique.kind]: a [GeometryKind] (a string), an array of them as the
    style gives it, a [GeometryKindSet], or a value of another type. *)
Inductive Kind :=
| KindName (kind : string)
| KindArray (kinds : list string)
| KindSet (kinds : gset string)
| KindOther.

(** The attributes that [processPriorities] and [initDecodedTile] read or
    write, around the attributes [createObjects] reads ([core]).  [Value]
    is whatever an attribute of a technique may hold: a number, an
    expression, an interpolation. *)
Module IndexedTechnique.
Section Fields.
Context {Value : Type}.

Record t := {
  core : Technique;
  kind : option Kind;
  _category : option string;
  _secondaryCategory : option string;
  _styleSet : option string;
  priority : option Value;
  renderOrder : option Value;
  secondaryRenderOrder : option Value
}.

Definition with_priority (technique : t) (v : Value) : t :=
  {| core := core technique; kind := kind technique;
     _category := _category technique;
     _secondaryCategory := _secondaryCategory technique;
     _styleSet := _styleSet technique;
     priority := Some v;
     renderOrder := renderOrder technique;
     secondaryRenderOrder := secondaryRenderOrder technique |}.

Definition with_renderOrder (technique : t) (v : Value) : t :=
  {| core := core technique; kind := kind technique;
     _category := _category technique;
     _secondaryCategory := _secondaryCategory technique;
     _styleSet := _styleSet technique;
     priority := priority technique;
     renderOrder := Some v;
     secondaryRenderOrder := secondaryRenderOrder technique |}.

Definition with_secondaryRenderOrder (technique : t) (v : Value) : t :=
  {| core := core technique; kind := kind technique;
     _category := _category technique;
     _secondaryCategory := _secondaryCategory technique;
     _styleSet := _styleSet technique;
     priority := priority technique;
     renderOrder := renderOrder technique;
     secondaryRenderOrder := Some v |}.

Definition with_kind (technique : t) (k : option Kind) : t :=
  {| core := core technique; kind := k;
     _category := _category technique;
     _secondaryCategory := _secondaryCategory technique;
     _styleSet := _styleSet technique;
     priority := priority technique;
     renderOrder := renderOrder technique;
     secondaryRenderOrder := secondaryRenderOrder technique |}.

Definition with_enabled (technique : t) (b : bool) : t :=
  {| core := {| name := name (core technique); _key := _key (core technique);
                enabled := Some b |};
     kind := kind technique;
     _category := _category technique;
     _secondaryCategory := _secondaryCategory technique;
     _styleSet := _styleSet technique;
     priority := priority technique;
     renderOrder := renderOrder technique;
     secondaryRenderOrder := secondaryRenderOrder technique |}.

End Fields.
Arguments t : clear implicits.
End IndexedTechnique.

(** An entry of the theme's [priorities]. *)
Module StylePriority.
Record t := {
  group : string;
  category : option string
}.
End StylePriority.

Record Theme := {
  priorities : option (list StylePriority.t);
  labelPriorities : option (list string)
}.

Section Priorities.
Import IndexedTechnique.

Context {Value : Type}.

(** A JavaScript number with an integer value, as an attribute value. *)
Variable number : Z -> Value.

(** The type guards of harp-datasource-protocol. *)
Variable isTextTechnique : Technique -> bool.
Variable isPoiTechnique : Technique -> bool.
Variable isLineMarkerTechnique : Technique -> bool.

Local Abbreviation IndexedTechnique := (IndexedTechnique.t Value).

(** [labelPriorities.indexOf(category)]; [None] is the answer [-1]. *)
Definition indexOf (category : string) (l : list string) : option nat :=
  fst <$> list_find (fun entry => entry = category) l.

(** [priorities.findIndex(entry => entry.group === styleSet &&
                                    entry.category === category)] *)
Definition findIndex (styleSet category : string) (l : list StylePriority.t)
    : option nat :=
  fst <$> list_find
            (fun entry => StylePriority.group entry = styleSet /\
                          StylePriority.category entry = Some category) l.

(** The closure [computeRenderOrder]: [(priority + 1) * 10] for the index
    found, [undefined] when nothing is found. *)
Definition computeRenderOrder (l : list StylePriority.t) (styleSet : string)
    (category : string) : option Z :=
  match findIndex styleSet category l with
  | Some priority => Some ((Z.of_nat priority + 1) * 10)%Z
  | None => None
  end.

(** The body of the [forEach] over the techniques. *)
Definition prioritise (theme : Theme) (technique : IndexedTechnique)
    : IndexedTechnique :=
  if isTextTechnique (core technique) || isPoiTechnique (core technique)
     || isLineMarkerTechnique (core technique)
  then
    match labelPriorities theme, _category technique with
    | Some labels, Some category =>
        match indexOf category labels with
        | Some priority =>
            with_priority technique
              (number (Z.of_nat (length labels) - Z.of_nat priority))
        | None => technique
        end
    | _, _ => technique
    end
  else
    match priorities theme, _styleSet technique with
    | Some entries, Some styleSet =>
        let technique1 :=
          match _category technique with
          | Some category =>
              match computeRenderOrder entries styleSet category with
              | Some renderOrder =>
                  with_renderOrder technique (number renderOrder)
              | None => technique
              end
          | None => technique
          end in
        match _secondaryCategory technique1 with
        | Some category =>
            match computeRenderOrder entries styleSet category with
            | Some secondaryRenderOrder =>
                with_secondaryRenderOrder technique1 (number secondaryRenderOrder)
            | None => technique1
            end
        | None => technique1
        end
    | _, _ => technique
    end.

(** [processPriorities(tile)], on [tile.decodedTile] (its techniques) and
    the theme of [tile.mapView]; both may be missing, and then nothing is
    done. *)
Definition processPriorities (mapView : option Theme)
    (decodedTile : option (list IndexedTechnique))
    : option (list IndexedTechnique) :=
  match decodedTile with
  | None => None
  | Some techniques =>
      match mapView with
      | None => Some techniques
      | Some theme => Some (prioritise theme <$> techniques)
      end
  end.

Definition isScreenSpace (technique : IndexedTechnique) : bool :=
  isTextTechnique (core technique) || isPoiTechnique (core technique)
  || isLineMarkerTechnique (core technique).

Lemma indexOf_Some category l i :
  indexOf category l = Some i <->
  l !! i = Some category /\ forall j, j < i -> l !! j <> Some category.
Proof.
  unfold indexOf. split.
  - destruct (list_find _ l) as [[i' x]|] eqn:Hfind; [|done].
    simpl. intros [= ->]. apply list_find_Some in Hfind.
    destruct Hfind as (Hi & -> & Hbefore). split; [done|].
    intros j Hj Hl. by apply (Hbefore j category).
  - intros [Hi Hbefore].
    assert (Hfind : list_find (fun entry => entry = category) l
                    = Some (i, category)).
    { apply list_find_Some. split; [done|]. split; [done|].
      intros j y Hy Hj ->. by apply (Hbefore j). }
    by rewrite Hfind.
Qed.

Lemma indexOf_None category l :
  indexOf category l = None <-> category ∉ l.
Proof.
  unfold indexOf. destruct (list_find _ l) as [[i x]|] eqn:Hfind; simpl.
  - apply list_find_Some in Hfind. destruct Hfind as (Hi & -> & _).
    split; [done|]. intros Hnot. exfalso. apply Hnot.
    by eapply list_elem_of_lookup_2.
  - apply list_find_None in Hfind. split; [|done]. intros _ Hin.
    rewrite Forall_forall in Hfind. by apply (Hfind category).
Qed.


Lemma findIndex_Some styleSet category l i :
  findIndex styleSet category l = Some i <->
  (exists entry, l !! i = Some entry /\
                 StylePriority.group entry = styleSet /\
                 StylePriority.category entry = Some category) /\
  (forall j entry, j < i -> l !! j = Some entry ->
     ~ (StylePriority.group entry = styleSet /\
        StylePriority.category entry = Some category)).
Proof.
  unfold findIndex. split.
  - destruct (list_find _ l) as [[i' x]|] eqn:Hfind; [|done].
    simpl. intros [= ->]. apply list_find_Some in Hfind.
    destruct Hfind as (Hi & [Hg Hc] & Hbefore). split; [by exists x|].
    intros j entry Hj Hl. by apply (Hbefore j entry).
  - intros [(entry & Hi & Hg & Hc) Hbefore].
    assert (Hfind : list_find
                      (fun entry => StylePriority.group entry = styleSet /\
                                    StylePriority.category entry = Some category)
                      l = Some (i, entry)).
    { apply list_find_Some. split; [done|]. split; [done|].
      intros j y Hy Hj. by apply (Hbefore j). }
    by rewrite Hfind.
Qed.

(** X13.  A text, POI or line-marker technique whose category is listed in
    the theme's [labelPriorities] gets as priority the number of labels
    minus the first position of the category: the first label gives the
    highest priority (the length of the list), the last one gives 1, and
    nothing else of the technique changes.  When the category is not
    listed the technique stays as it is. *)
Theorem processPriorities_ranks_labels
    (theme : Theme) (labels : list string)
    (techniques : list IndexedTechnique) (k : nat)
    (technique : IndexedTechnique) (category : string)
    (Hk : techniques !! k = Some technique)
    (Hscreen : isScreenSpace technique = true)
    (Hlabels : labelPriorities theme = Some labels)
    (Hcategory : _category technique = Some category) :
  exists techniques',
    processPriorities (Some theme) (Some techniques) = Some techniques' /\
    (forall i,
       labels !! i = Some category ->
       (forall j, j < i -> labels !! j <> Some category) ->
       let n := (Z.of_nat (length labels) - Z.of_nat i)%Z in
       techniques' !! k = Some (with_priority technique (number n)) /\
       (1 <= n <= Z.of_nat (length labels))%Z /\
       (priority <$> techniques' !! k) = Some (Some (number n))) /\
    (category ∉ labels -> techniques' !! k = Some technique).
Proof.
  eexists. split; [reflexivity|].
  rewrite list_lookup_fmap, Hk. simpl. unfold prioritise.
  unfold isScreenSpace in Hscreen. rewrite Hscreen, Hlabels, Hcategory.
  split.
  - intros i Hi Hfirst.
    assert (Hfind : indexOf category labels = Some i)
      by (by apply indexOf_Some).
    rewrite Hfind. split; [done|]. split; [|done].
    apply lookup_lt_Some in Hi. lia.
  - intros Hnot. apply indexOf_None in Hnot. by rewrite Hnot.
Qed.

(** X14.  A technique that is not drawn in screen space and belongs to a
    style set gets as render order ten times the position, counted from
    one, of the first entry of the theme's [priorities] with the
    technique's style set and category: entries of other style sets are
    passed over, an earlier entry gives a lower render order, and the
    priority of the technique is left alone. *)
Theorem processPriorities_orders_by_first_entry
    (theme : Theme) (entries : list StylePriority.t)
    (techniques : list IndexedTechnique) (k : nat)
    (technique : IndexedTechnique) (styleSet category : string)
    (i : nat) (entry : StylePriority.t)
    (Hk : techniques !! k = Some technique)
    (Hworld : isScreenSpace technique = false)
    (Hentries : priorities theme = Some entries)
    (HstyleSet : _styleSet technique = Some styleSet)
    (Hcategory : _category technique = Some category)
    (Hi : entries !! i = Some entry)
    (Hgroup : StylePriority.group entry = styleSet)
    (Hentry : StylePriority.category entry = Some category)
    (Hfirst : forall j earlier, j < i -> entries !! j = Some earlier ->
              ~ (StylePriority.group earlier = styleSet /\
                 StylePriority.category earlier = Some category)) :
  exists techniques' technique',
    processPriorities (Some theme) (Some techniques) = Some techniques' /\
    techniques' !! k = Some technique' /\
    renderOrder technique' = Some (number ((Z.of_nat i + 1) * 10)) /\
    priority technique' = priority technique /\
    (10 <= (Z.of_nat i + 1) * 10 <= 10 * Z.of_nat (length entries))%Z.
Proof.
  eexists. eexists. split; [reflexivity|].
  rewrite list_lookup_fmap, Hk. simpl. split; [reflexivity|].
  unfold prioritise. unfold isScreenSpace in Hworld.
  rewrite Hworld, Hentries, HstyleSet, Hcategory.
  assert (Hfind : findIndex styleSet category entries = Some i).
  { apply findIndex_Some. split; [by exists entry|done]. }
  unfold computeRenderOrder. rewrite Hfind. simpl.
  apply lookup_lt_Some in Hi.
  destruct (_secondaryCategory technique) as [secondary|]; simpl.
  - destruct (findIndex styleSet secondary entries); simpl;
      (split; [done|split; [done|lia]]).
  - split; [done|split; [done|lia]].
Qed.

(** X15.  [processPriorities] rewrites priorities and render orders and
    nothing else: the techniques stay in place, each with its name, key,
    flags, kind, categories and style set; a screen-space technique keeps
    both render orders, any other technique keeps its priority; and
    without a map view nothing is rewritten at all. *)
Theorem processPriorities_keeps_the_rest
    (mapView : option Theme) (techniques : list IndexedTechnique) :
  match processPriorities mapView (Some techniques) with
  | Some techniques' =>
      Forall2
        (fun technique technique' =>
           core technique' = core technique /\
           kind technique' = kind technique /\
           _category technique' = _category technique /\
           _secondaryCategory technique' = _secondaryCategory technique /\
           _styleSet technique' = _styleSet technique /\
           (if isScreenSpace technique
            then renderOrder technique' = renderOrder technique /\
                 secondaryRenderOrder technique' = secondaryRenderOrder technique
            else priority technique' = priority technique))
        techniques techniques' /\
      (mapView = None -> techniques' = techniques)
  | None => False
  end.
Proof.
  destruct mapView as [theme|]; simpl.
  2:{ split; [|done]. apply Forall2_same_length_lookup. split; [done|].
      intros i t t' Ht Ht'. assert (t' = t) as -> by congruence.
      repeat split. by destruct (isScreenSpace t). }
  split; [|done]. apply Forall2_fmap_r, Forall_Forall2_diag, Forall_forall.
  intros technique _. unfold compose. cbv beta.
  unfold prioritise, isScreenSpace.
  repeat case_match; simplify_eq; repeat split; simpl; done.
Qed.

(** X27.  [processPriorities] may be run again: a second pass over the
    techniques of a decoded tile, with the same theme, finds every
    priority and render order as the first pass left it and changes
    nothing. *)
Theorem processPriorities_twice
    (mapView : option Theme) (decodedTile : option (list IndexedTechnique)) :
  processPriorities mapView (processPriorities mapView decodedTile)
  = processPriorities mapView decodedTile.
Proof.
  destruct decodedTile as [techniques|]; [|done].
  destruct mapView as [theme|]; [|done].
  simpl. f_equal. rewrite <- list_fmap_compose.
  apply list_fmap_ext. intros i technique _. unfold compose.
  unfold prioritise at 2.
  repeat case_match; simplify_eq; try done;
    unfold prioritise; cbn in *;
    repeat (match goal with
            | H : ?l = _ |- context [?l] => rewrite H
            end; cbn);
    done.
Qed.

End Priorities.

(** *** A theme with three label categories and two style sets *)

Definition is_named (kind_name : string) (technique : Technique) : bool :=
  String.eqb (name technique) kind_name.

Definition sample_theme : Theme :=
  {| priorities :=
       Some [{| StylePriority.group := "tilezen";
                StylePriority.category := Some "water" |};
             {| StylePriority.group := "other";
                StylePriority.category := Some "roads" |};
             {| StylePriority.group := "tilezen";
                StylePriority.category := Some "roads" |};
             {| StylePriority.group := "tilezen";
                StylePriority.category := Some "roads" |}];
     labelPriorities := Some ["capital"; "city"; "street"] |}.

Definition styled (kind_name : string) (category styleSet : option string)
    : IndexedTechnique.t Z :=
  {| IndexedTechnique.core :=
       {| name := kind_name; _key := kind_name; enabled := None |};
     IndexedTechnique.kind := None;
     IndexedTechnique._category := category;
     IndexedTechnique._secondaryCategory := None;
     IndexedTechnique._styleSet := styleSet;
     IndexedTechnique.priority := None;
     IndexedTechnique.renderOrder := None;
     IndexedTechnique.secondaryRenderOrder := None |}.

Definition sample_processPriorities (techniques : list (IndexedTechnique.t Z))
    : option (list (IndexedTechnique.t Z)) :=
  processPriorities (fun n => n) (is_named "text") (is_named "labeled-icon")
    (is_named "line-marker") (Some sample_theme) (Some techniques).

Example processPriorities_on_sample_theme :
  (fun technique => (IndexedTechnique.priority technique,
                     IndexedTechnique.renderOrder technique))
  <$> default [] (sample_processPriorities
                    [styled "text" (Some "capital") (Some "tilezen");
                     styled "text" (Some "street") None;
                     styled "text" (Some "village") None;
                     styled "solid-line" (Some "roads") (Some "tilezen");
                     styled "solid-line" (Some "roads") (Some "unknown");
                     styled "fill" (Some "water") (Some "tilezen")])
  = [(Some 3, None); (Some 1, None); (None, None);
     (None, Some 30); (None, None); (None, Some 10)]%Z.
Proof. vm_compute. reflexivity. Qed.

Lemma processPriorities_ranks_labels_witness :
  exists techniques',
    sample_processPriorities [styled "text" (Some "city") None]
      = Some techniques' /\
    techniques' !! 0 =
      Some (IndexedTechnique.with_priority (styled "text" (Some "city") None) 2%Z) /\
    (IndexedTechnique.priority <$> techniques' !! 0) = Some (Some 2%Z).
Proof.
  destruct (processPriorities_ranks_labels (fun n => n) (is_named "text")
              (is_named "labeled-icon") (is_named "line-marker")
              sample_theme ["capital"; "city"; "street"]
              [styled "text" (Some "city") None] 0
              (styled "text" (Some "city") None) "city"
              eq_refl eq_refl eq_refl eq_refl)
    as (techniques' & Hrun & Hlisted & _).
  exists techniques'. split; [exact Hrun|].
  destruct (Hlisted 1) as (Hranked & _ & Hpriority);
    [reflexivity| |split; [exact Hranked|exact Hpriority]].
  intros j Hj. assert (j = 0) as -> by lia. discriminate.
Defined.

Lemma processPriorities_orders_by_first_entry_witness :
  exists techniques' technique',
    sample_processPriorities
      [styled "solid-line" (Some "roads") (Some "tilezen")] = Some techniques' /\
    techniques' !! 0 = Some technique' /\
    IndexedTechnique.renderOrder technique' = Some 30%Z.
Proof.
  destruct (processPriorities_orders_by_first_entry (fun n => n)
              (is_named "text") (is_named "labeled-icon")
              (is_named "line-marker") sample_theme
              (default [] (priorities sample_theme))
              [styled "solid-line" (Some "roads") (Some "tilezen")] 0
              (styled "solid-line" (Some "roads") (Some "tilezen"))
              "tilezen" "roads" 2
              {| StylePriority.group := "tilezen";
                 StylePriority.category := Some "roads" |}
              eq_refl eq_refl eq_refl eq_refl eq_refl eq_refl eq_refl eq_refl)
    as (techniques' & technique' & Hrun & Hk & Horder & _).
  { intros j earlier Hj Hearlier [Hgroup Hcategory].
    destruct j as [|[|j]]; [| |lia]; simpl in Hearlier;
      injection Hearlier as <-; simpl in *; discriminate. }
  exists techniques', technique'. split; [exact Hrun|]. split; [exact Hk|].
  exact Horder.
Defined.

(** *** initDecodedTile *)

Section InitDecodedTile.
Import IndexedTechnique.

Context {Handler Drawable LegacyMaterial : Type}.
Variable isShareableAcrossTiles : Handler -> bool.
Variable isDynamic : Handler -> bool.
Variable registry : gmap string (@Pool.TechniqueHandlerConstructor Handler).
Variable createObject :
  Handler -> Tile -> Geometry -> Group.t -> @Creation Drawable.
Variable hasObjectConstructor : Technique -> bool.
Variable createMaterial : Technique -> option LegacyMaterial.
Variable legacyObject :
  Technique -> Geometry -> Group.t -> option float -> LegacyMaterial -> Drawable.

Context {Value : Type}.
Local Abbreviation IndexedTechnique := (IndexedTechnique.t Value).

(** [GeometryKindSet.hasOrIntersects] of harp-datasource-protocol, asked
    about a kind name or a set of them; and [compileTechniques] of
    DecodedTileHelpers, which compiles the dynamic expressions of the
    techniques in place. *)
Variable hasOrIntersects : gset string -> Kind -> bool.
Variable compileTechniques : list IndexedTechnique -> list IndexedTechnique.

(** [technique.kind] after the first [if]: an array becomes a
    [GeometryKindSet]; anything else that is not a string is reported as
    unknown and replaced by [undefined]. *)
Definition normalise_kind (technique : IndexedTechnique) : IndexedTechnique :=
  match kind technique with
  | None => technique
  | Some (KindArray kinds) =>
      with_kind technique (Some (KindSet (list_to_set kinds)))
  | Some (KindName _) => technique
  | Some (KindSet _) | Some KindOther => with_kind technique None
  end.

(** [!(disabledKinds !== undefined && disabledKinds.hasOrIntersects(kind))
     || (enabledKinds !== undefined && enabledKinds.hasOrIntersects(kind))] *)
Definition kinds_allow (enabledKinds disabledKinds : option (gset string))
    (k : Kind) : bool :=
  negb (match disabledKinds with
        | Some disabled => hasOrIntersects disabled k
        | None => false
        end)
  || match enabledKinds with
     | Some enabled => hasOrIntersects enabled k
     | None => false
     end.

(** The body of the loop over the techniques. *)
Definition flag (enabledKinds disabledKinds : option (gset string))
    (technique : IndexedTechnique) : IndexedTechnique :=
  match enabled (core technique) with
  | Some _ => technique
  | None =>
      let technique1 := normalise_kind technique in
      match kind technique1 with
      | None => with_enabled technique1 true
      | Some (KindSet kinds) =>
          if bool_decide (size kinds = 0)
          then with_enabled technique1 true
          else with_enabled technique1
                 (kinds_allow enabledKinds disabledKinds (KindSet kinds))
      | Some k =>
          with_enabled technique1 (kinds_allow enabledKinds disabledKinds k)
      end
  end.

(** [group.createdOffsets = []] *)
Definition unmark (group : Group.t) : Group.t :=
  {| Group.start := Group.start group;
     Group.count := Group.count group;
     Group.technique := Group.technique group;
     Group.createdOffsets := [];
     Group.renderOrderOffset := Group.renderOrderOffset group |}.

Definition initDecodedTile
    (decodedTile : list IndexedTechnique * list Geometry)
    (enabledKinds disabledKinds : option (gset string))
    : list IndexedTechnique * list Geometry :=
  let flagged := flag enabledKinds disabledKinds <$> decodedTile.1 in
  let unmarked := (fun g => with_groups g (unmark <$> groups g)) <$> decodedTile.2 in
  (compileTechniques flagged, unmarked).

(** The decoded tile as [createObjects] reads it. *)
Definition decoded (decodedTile : list IndexedTechnique * list Geometry)
    : DecodedTile :=
  {| techniques := core <$> decodedTile.1; geometries := decodedTile.2 |}.

(** The kind the filters are asked about, if they are asked. *)
Definition filtered_kind (technique : IndexedTechnique) : option Kind :=
  match kind technique with
  | Some (KindName k) => Some (KindName k)
  | Some (KindArray kinds) =>
      if bool_decide (size (list_to_set kinds : gset string) = 0) then None
      else Some (KindSet (list_to_set kinds))
  | _ => None
  end.

Lemma flag_enabled enabledKinds disabledKinds technique :
  enabled (core (flag enabledKinds disabledKinds technique)) =
  match enabled (core technique) with
  | Some b => Some b
  | None =>
      match filtered_kind technique with
      | Some k => Some (kinds_allow enabledKinds disabledKinds k)
      | None => Some true
      end
  end.
Proof.
  unfold flag, filtered_kind, normalise_kind.
  destruct (enabled (core technique)) as [b|] eqn:Hb; [by rewrite Hb|].
  destruct (kind technique) as [[k|kinds|kinds|]|] eqn:Hk; simpl;
    rewrite ?Hk; simpl; try done.
  by destruct (bool_decide _).
Qed.

(** Compiling expressions leaves names, keys and flags alone. *)
Definition compiling_keeps_core : Prop :=
  forall techniques, core <$> compileTechniques techniques = core <$> techniques.

Lemma initDecodedTile_core decodedTile enabledKinds disabledKinds :
  compiling_keeps_core ->
  core <$> (initDecodedTile decodedTile enabledKinds disabledKinds).1 =
  (fun technique => core (flag enabledKinds disabledKinds technique))
    <$> decodedTile.1.
Proof.
  intros Hcore. unfold initDecodedTile. simpl. rewrite Hcore.
  by rewrite <- list_fmap_compose.
Qed.

(** X16.  After [initDecodedTile] every technique has its [enabled] flag. A
    technique is disabled exactly when it was disabled before, or it had no
    flag, has a kind (a name, or a non-empty array of names), and
    [disabledKinds] is given and has that kind while [enabledKinds] is not
    given or does not have it.  So [enabledKinds] alone disables nothing, a
    technique without kind is always enabled, and so is one whose kind is
    already a [GeometryKindSet] or of an unknown type. *)
Theorem initDecodedTile_disables_iff
    (decodedTile : list IndexedTechnique * list Geometry)
    (enabledKinds disabledKinds : option (gset string))
    (i : nat) (technique : IndexedTechnique)
    (Hcompile : compiling_keeps_core)
    (Hi : decodedTile.1 !! i = Some technique) :
  exists flagged,
    techniques (decoded (initDecodedTile decodedTile enabledKinds disabledKinds))
      !! i = Some flagged /\
    name flagged = name (core technique) /\
    _key flagged = _key (core technique) /\
    is_Some (enabled flagged) /\
    (enabled flagged = Some false <->
     enabled (core technique) = Some false \/
     (enabled (core technique) = None /\
      exists k disabled,
        filtered_kind technique = Some k /\
        disabledKinds = Some disabled /\
        hasOrIntersects disabled k = true /\
        forall enabled, enabledKinds = Some enabled ->
                        hasOrIntersects enabled k = false)).
Proof.
  exists (core (flag enabledKinds disabledKinds technique)).
  split.
  { unfold decoded. cbn [techniques]. rewrite initDecodedTile_core by done.
    by rewrite list_lookup_fmap, Hi. }
  split; [unfold flag, normalise_kind; by repeat case_match|].
  split; [unfold flag, normalise_kind; by repeat case_match|].
  rewrite flag_enabled.
  destruct (enabled (core technique)) as [b|] eqn:Hb.
  { split; [by eexists|]. split; [by left|]. intros [H|[H _]]; done. }
  destruct (filtered_kind technique) as [k|] eqn:Hk.
  2:{ split; [by eexists|]. split; [done|].
      intros [H|(_ & k & d & H & _)]; done. }
  split; [by eexists|]. unfold kinds_allow. split.
  - intros [= H]. right. split; [done|].
    apply orb_false_iff in H. destruct H as [Hd He].
    apply negb_false_iff in Hd.
    destruct disabledKinds as [disabled|]; [|done].
    exists k, disabled. repeat split; try done.
    intros e ->. exact He.
  - intros [H|(_ & k' & d & [= <-] & -> & Hd & He)]; [done|].
    rewrite Hd. simpl. destruct enabledKinds as [e|]; [|done].
    by rewrite (He e eq_refl).
Qed.

(** X17.  The kind filters are applied once: a technique that has its flag
    keeps it, so initialising a decoded tile again, with whatever kinds,
    leaves every [enabled] flag as the first initialisation set it. *)
Theorem initDecodedTile_flags_once
    (decodedTile : list IndexedTechnique * list Geometry)
    (enabledKinds disabledKinds enabledKinds' disabledKinds'
       : option (gset string))
    (Hcompile : compiling_keeps_core) :
  let first := initDecodedTile decodedTile enabledKinds disabledKinds in
  let second := initDecodedTile first enabledKinds' disabledKinds' in
  techniques (decoded second) = techniques (decoded first).
Proof.
  intros first second. unfold decoded. cbn [techniques].
  unfold second. rewrite initDecodedTile_core by done.
  apply list_eq. intros i. rewrite !list_lookup_fmap.
  destruct (first.1 !! i) as [technique|] eqn:Hi; [|done]. simpl. f_equal.
  assert (Hflag : is_Some (enabled (core technique))).
  { assert (Hc : (core <$> first.1) !! i = Some (core technique))
      by (by rewrite list_lookup_fmap, Hi).
    unfold first in Hc. rewrite initDecodedTile_core in Hc by done.
    rewrite list_lookup_fmap in Hc.
    destruct (decodedTile.1 !! i) as [t0|]; [|done]. simpl in Hc.
    injection Hc as <-. rewrite flag_enabled.
    destruct (enabled (core t0)); [by eexists|].
    destruct (filtered_kind t0); by eexists. }
  destruct Hflag as [b Hb]. unfold flag. by rewrite Hb.
Qed.

Local Abbreviation createObjects_ :=
  (createObjects isShareableAcrossTiles isDynamic registry createObject
     hasObjectConstructor createMaterial legacyObject).

Lemma unmark_marked tile group group' :
  marked_or_same tile group group' -> unmark group' = unmark group.
Proof. by intros [->| ->]. Qed.

(** X18.  [initDecodedTile] forgets every creation: all groups come out
    with empty created offsets, so the decoded tile is one that
    [createObjects] may be given; and a decoded tile initialised after a
    call of [createObjects] is the decoded tile initialised before it. *)
Theorem initDecodedTile_forgets_creations
    (techniques0 : list IndexedTechnique) (geometries0 : list Geometry)
    (enabledKinds disabledKinds : option (gset string))
    (tile : Tile) (context : TechniqueUpdateContext)
    (techniqueFilter : option (Technique -> bool))
    (p : @Pass Handler Drawable LegacyMaterial) :
  let visited :=
    (createObjects_ tile context (decoded (techniques0, geometries0))
       techniqueFilter p).1.1 in
  initDecodedTile (techniques0, geometries visited) enabledKinds disabledKinds
  = initDecodedTile (techniques0, geometries0) enabledKinds disabledKinds /\
  prepared isShareableAcrossTiles isDynamic registry createObject
    hasObjectConstructor createMaterial legacyObject
    (decoded (initDecodedTile (techniques0, geometries0)
                enabledKinds disabledKinds)) /\
  Forall (fun srcGeometry =>
            Forall (fun group => Group.createdOffsets group = [])
              (groups srcGeometry))
    (initDecodedTile (techniques0, geometries0) enabledKinds disabledKinds).2.
Proof.
  intros visited. split; [|split].
  - unfold initDecodedTile. simpl. f_equal.
    unfold visited, createObjects. clear visited. simpl.
    pose proof (visit_geometries_shape isShareableAcrossTiles isDynamic registry
                  createObject hasObjectConstructor createMaterial legacyObject
                  tile context (core <$> techniques0) techniqueFilter 0
                  geometries0 p) as Hshape.
    destruct (visit_geometries _ _ _ _ _ _ _ _ _ _ _ _ _ _)
      as [[geometries' p'] c] eqn:Hrun.
    specialize (Hshape _ _ _ eq_refl). simpl.
    assert (Huuid : Forall2 (fun g g' => uuid g' = uuid g /\
                                         hasColor g' = hasColor g)
                      geometries0 geometries').
    { clear Hshape. revert Hrun. generalize 0. revert p geometries' p' c.
      induction geometries0 as [|g more IH]; intros p geometries' p' c gi;
        simpl.
      - intros [= <- <- <-]. constructor.
      - destruct (visit_groups _ _ _ _ _ _ _ _ _ _ _ _ _ _ _ _ _)
          as [[groups' p1] [|]].
        + destruct (visit_geometries _ _ _ _ _ _ _ _ _ _ _ _ more p1)
            as [[more' p2] c2] eqn:Hrest.
          intros [= <- <- <-]. constructor; [done|]. by eapply IH.
        + intros [= <- <- <-]. constructor; [done|].
          clear. induction more; by constructor. }
    clear Hrun. induction Hshape as [|g g' gs gs' Hg _ IH]; [done|].
    inversion Huuid as [|? ? ? ? [Hu Hc] Hrest]; subst. simpl.
    f_equal; [|by apply IH].
    unfold with_groups. rewrite Hu, Hc. f_equal.
    clear -Hg. unfold same_but_marks in Hg.
    induction Hg as [|group group' groups0 groups' Hgroup _ IH]; [done|].
    simpl. f_equal; [|exact IH]. by eapply unmark_marked.
  - unfold initDecodedTile, decoded. simpl. apply prepared_init.
    apply Forall_fmap, Forall_forall. intros g _. simpl.
    by apply Forall_fmap, Forall_forall.
  - unfold initDecodedTile. simpl.
    apply Forall_fmap, Forall_forall. intros g _. simpl.
    by apply Forall_fmap, Forall_forall.
Qed.

End InitDecodedTile.

(** *** Kinds of a sample tile

    [hasOrIntersects] as the protocol library defines it: membership for a
    kind name, a common element for a set. *)
Definition sample_hasOrIntersects (kinds : gset string) (k : Kind) : bool :=
  match k with
  | KindName kind_name => bool_decide (kind_name ∈ kinds)
  | KindSet other => negb (bool_decide (kinds ∩ other = ∅))
  | KindArray _ | KindOther => false
  end.

Definition of_kind (k : option Kind) : IndexedTechnique.t Z :=
  {| IndexedTechnique.core :=
       {| name := "fill"; _key := "fill"; enabled := None |};
     IndexedTechnique.kind := k;
     IndexedTechnique._category := None;
     IndexedTechnique._secondaryCategory := None;
     IndexedTechnique._styleSet := None;
     IndexedTechnique.priority := None;
     IndexedTechnique.renderOrder := None;
     IndexedTechnique.secondaryRenderOrder := None |}.

Definition sample_initDecodedTile
    (decodedTile : list (IndexedTechnique.t Z) * list Geometry)
    (enabledKinds disabledKinds : option (gset string))
    : list (IndexedTechnique.t Z) * list Geometry :=
  initDecodedTile sample_hasOrIntersects (fun techniques => techniques)
    decodedTile enabledKinds disabledKinds.

Definition kinds_of_sample_tile : list (IndexedTechnique.t Z) :=
  [of_kind (Some (KindName "road"));
   of_kind (Some (KindArray ["road"; "water"]));
   of_kind (Some (KindArray []));
   of_kind (Some (KindSet {["road"]}));
   of_kind None;
   of_kind (Some (KindName "water"))].

Example initDecodedTile_on_sample_kinds :
  (fun technique => enabled (IndexedTechnique.core technique))
  <$> (sample_initDecodedTile (kinds_of_sample_tile, [])
         (Some {["water"]}) (Some {["road"]})).1
  = [Some false; Some true; Some true; Some true; Some true; Some true] /\
  (fun technique => enabled (IndexedTechnique.core technique))
  <$> (sample_initDecodedTile (kinds_of_sample_tile, [])
         (Some {["water"]}) None).1
  = [Some true; Some true; Some true; Some true; Some true; Some true].
Proof. split; vm_compute; reflexivity. Qed.

Lemma identity_keeps_core :
  @compiling_keeps_core Z (fun techniques => techniques).
Proof. intros techniques. reflexivity. Qed.

Lemma initDecodedTile_disables_iff_witness :
  exists flagged,
    techniques (decoded (sample_initDecodedTile (kinds_of_sample_tile, [])
                           (Some {["water"]}) (Some {["road"]}))) !! 0
    = Some flagged /\
    enabled flagged = Some false.
Proof.
  destruct (initDecodedTile_disables_iff sample_hasOrIntersects
              (fun techniques => techniques) (kinds_of_sample_tile, [])
              (Some {["water"]}) (Some {["road"]}) 0
              (of_kind (Some (KindName "road")))
              identity_keeps_core eq_refl)
    as (flagged & Hflagged & _ & _ & _ & Hiff).
  exists flagged. split; [exact Hflagged|].
  apply Hiff. right. split; [reflexivity|].
  exists (KindName "road"), {["road"]}.
  split; [reflexivity|]. split; [reflexivity|].
  split; [vm_compute; reflexivity|].
  intros kinds [= <-]. vm_compute. reflexivity.
Defined.

Lemma initDecodedTile_flags_once_witness :
  techniques
    (decoded (sample_initDecodedTile
                (sample_initDecodedTile (kinds_of_sample_tile, [])
                   (Some {["water"]}) (Some {["road"]}))
                None None))
  = techniques
      (decoded (sample_initDecodedTile (kinds_of_sample_tile, [])
                  (Some {["water"]}) (Some {["road"]}))).
Proof.
  exact (initDecodedTile_flags_once sample_hasOrIntersects
           (fun techniques => techniques) (kinds_of_sample_tile, [])
           (Some {["water"]}) (Some {["road"]}) None None identity_keeps_core).
Defined.

(** *** prepareTextPaths *)

Section TextPaths.

(** A [TextPathGeometry] of the decoded tile; the modelled code reads its
    technique index and hands the path on as it is. *)
Context {TextPathGeometry : Type}.
Variable path_technique : TextPathGeometry -> nat.

(** The type guard of harp-datasource-protocol; it reads
    [technique.name]. *)
Variable isTextTechnique : Technique -> bool.

(** [!isTextTechnique(technique) ||
     (textFilter !== undefined && !textFilter(technique))] *)
Definition skipped (textFilter : option (Technique -> bool))
    (technique : Technique) : bool :=
  negb (isTextTechnique technique)
  || match textFilter with
     | Some accepts => negb (accepts technique)
     | None => false
     end.

(** The [while] loop.  [newPaths] is the stack the loop pops from, its top
    first; the paths of a decoded tile are objects, so the test for an
    [undefined] top only ends the loop on the empty stack.  A technique
    index outside [decodedTile.techniques] makes the type guard read a
    property of [undefined]. *)
Fixpoint pop_paths (decoded_techniques : list Technique)
    (textFilter : option (Technique -> bool))
    (newPaths processedPaths : list TextPathGeometry)
    : list TextPathGeometry * Completion :=
  match newPaths with
  | [] => (processedPaths, Normal)
  | textPath :: rest =>
      match decoded_techniques !! path_technique textPath with
      | None => (processedPaths, Thrown)
      | Some technique =>
          if skipped textFilter technique
          then pop_paths decoded_techniques textFilter rest processedPaths
          else pop_paths decoded_techniques textFilter rest
                 (processedPaths ++ [textPath])
      end
  end.

(** [prepareTextPaths(textPathGeometries, decodedTile, textFilter)]:
    [slice()] copies the array, [pop()] takes its last element. *)
Definition prepareTextPaths (textPathGeometries : list TextPathGeometry)
    (decodedTile : DecodedTile) (textFilter : option (Technique -> bool))
    : list TextPathGeometry * Completion :=
  pop_paths (techniques decodedTile) textFilter (reverse textPathGeometries) [].

(** Does the loop keep the path? *)
Definition kept (decodedTile : DecodedTile)
    (textFilter : option (Technique -> bool)) (textPath : TextPathGeometry)
    : bool :=
  match techniques decodedTile !! path_technique textPath with
  | Some technique => negb (skipped textFilter technique)
  | None => false
  end.

Lemma pop_paths_spec decoded_techniques textFilter newPaths processedPaths :
  let r := pop_paths decoded_techniques textFilter newPaths processedPaths in
  (r.2 = Normal <->
   Forall (fun textPath =>
             is_Some (decoded_techniques !! path_technique textPath)) newPaths) /\
  (r.2 = Normal ->
   r.1 = processedPaths ++
         List.filter (kept {| techniques := decoded_techniques;
                              geometries := [] |} textFilter) newPaths).
Proof.
  cbv zeta. revert processedPaths.
  induction newPaths as [|textPath rest IH]; intros processedPaths; simpl.
  - split; [split; [constructor|done]|]. by rewrite app_nil_r.
  - unfold kept. simpl.
    destruct (decoded_techniques !! path_technique textPath)
      as [technique|] eqn:Ht; simpl.
    2:{ split; [|done]. split; [done|].
        intros H. inversion H as [|? ? [x Hx]]; subst. congruence. }
    destruct (skipped textFilter technique); simpl.
    + destruct (IH processedPaths) as [Hiff Hres]. split; [|done].
      rewrite Hiff, Forall_cons. split; [|tauto]. intros H.
      split; [|done]. by rewrite Ht.
    + destruct (IH (processedPaths ++ [textPath])) as [Hiff Hres].
      split.
      * rewrite Hiff, Forall_cons. split; [|tauto]. intros H.
        split; [|done]. by rewrite Ht.
      * intros Hn. rewrite (Hres Hn). by rewrite <- app_assoc.
Qed.

(** X19.  [prepareTextPaths] ends normally exactly when every path names a
    technique of the decoded tile.  It then returns the paths whose
    technique is a text technique that the filter, if there is one,
    accepts: each of them as it was given, none twice, none split, and in
    the reverse of the order they were given in. *)
Theorem prepareTextPaths_filters_and_reverses
    (textPathGeometries : list TextPathGeometry) (decodedTile : DecodedTile)
    (textFilter : option (Technique -> bool)) :
  let r := prepareTextPaths textPathGeometries decodedTile textFilter in
  (r.2 = Normal <->
   Forall (fun textPath =>
             is_Some (techniques decodedTile !! path_technique textPath))
     textPathGeometries) /\
  (r.2 = Normal ->
   r.1 = reverse (List.filter (kept decodedTile textFilter) textPathGeometries)).
Proof.
  intros r. unfold r, prepareTextPaths.
  destruct (pop_paths_spec (techniques decodedTile) textFilter
              (reverse textPathGeometries) []) as [Hiff Hres].
  split.
  - rewrite Hiff. rewrite !Forall_forall. split; intros H x Hx; apply H.
    + by apply elem_of_reverse.
    + by apply elem_of_reverse.
  - intros Hn. rewrite (Hres Hn). simpl.
    clear. induction textPathGeometries as [|x l IH]; [done|].
    rewrite reverse_cons, List.filter_app, IH. simpl.
    assert (Hsame : kept {| techniques := techniques decodedTile;
                            geometries := [] |} textFilter x
                    = kept decodedTile textFilter x) by done.
    rewrite Hsame.
    destruct (kept decodedTile textFilter x).
    + by rewrite reverse_cons.
    + by rewrite app_nil_r.
Qed.

End TextPaths.

End TileGeometryCreator.
